(** * Leaflet map component: coordinate parsing, measurement and draw-tool
      lifecycle.

    Shallow embedding of [Leaflet.jsx] (the Vue component [LeafletMap]):
    [parseCoordinates], [parseDMS], [calculateDistance], [calculateArea]
    and the handlers registered by [initDrawTools].

    Conventions of the embedding.
    - A JavaScript string is a list of UTF-16 code units ([N]).
    - A JavaScript Number is an exact rational ([Q]) or [NaN]; binary64
      rounding, infinities and signed zero are not represented.
    - Regular expressions are an abstract syntax tree run by a backtracking
      matcher that enumerates the successes in the priority order of the
      ECMAScript matcher; the first success is the result of [exec]. *)

From Stdlib Require Import Ascii QArith Qabs Lqa.
From stdpp Require Import gmap strings list sorting.

Set Default Proof Using "Type".
#[local] Set Warnings "-clear-no-such-hyp".

(** ** Strings as code units *)

Definition char := N.
Definition str := list char.

Definition chr (a : ascii) : char := N_of_ascii a.

Fixpoint lit (s : string) : str :=
  match s with
  | EmptyString => []
  | String a s' => chr a :: lit s'
  end.

(** U+00B0 DEGREE SIGN and U+0022 QUOTATION MARK. *)
Definition deg : char := 176%N.
Definition dquote : char := 34%N.

Definition is_digit (c : char) : bool := (48 <=? c)%N && (c <=? 57)%N.

(** [\s] and [StrWhiteSpaceChar]: WhiteSpace and LineTerminator code units. *)
Definition is_space (c : char) : bool :=
  ((9 <=? c)%N && (c <=? 13)%N) || (c =? 32)%N || (c =? 160)%N
  || (c =? 5760)%N || ((8192 <=? c)%N && (c <=? 8202)%N)
  || (c =? 8232)%N || (c =? 8233)%N || (c =? 8239)%N || (c =? 8287)%N
  || (c =? 12288)%N || (c =? 65279)%N.

(** Case folding of the [i] flag ([Canonicalize] without the [u] flag) and
    of [toUpperCase], on the ASCII letters.  A code unit of 128 or more
    never folds to an ASCII one, and the only non-ASCII unit the patterns
    below mention, the degree sign, has no case. *)
Definition to_upper (c : char) : char :=
  if (97 <=? c)%N && (c <=? 122)%N then (c - 32)%N else c.

Definition toUpperCase (s : str) : str := to_upper <$> s.

(** ** Regular expressions *)

Inductive regex :=
| Empty
| Char (c : char)
| CharSet (cs : list char)
| Digit
| Space
| Bol
| Eol
| Seq (r1 r2 : regex)
| Alt (r1 r2 : regex)
| Opt (r : regex)
| Star (r : regex)
| Plus (r : regex)
| Group (n : nat) (r : regex).

Record regexp := RegExp { re_body : regex; re_ignoreCase : bool }.

Definition cat (rs : list regex) : regex := foldr Seq Empty rs.

Fixpoint groups (r : regex) : list nat :=
  match r with
  | Seq r1 r2 | Alt r1 r2 => groups r1 ++ groups r2
  | Opt r | Star r | Plus r => groups r
  | Group n r => n :: groups r
  | _ => []
  end.

(** The source text of a pattern, as [RegExp.prototype.toString] gives it
    (without the slashes and flags). *)
Definition is_syntax_char (c : char) : bool :=
  bool_decide (c ∈ lit "^$\.*+?()[]{}|/").

Fixpoint source (r : regex) : str :=
  match r with
  | Empty => []
  | Char c => if is_syntax_char c then lit "\" ++ [c] else [c]
  | CharSet cs => lit "[" ++ cs ++ lit "]"
  | Digit => lit "\d"
  | Space => lit "\s"
  | Bol => lit "^"
  | Eol => lit "$"
  | Seq r1 r2 => source r1 ++ source r2
  | Alt r1 r2 => source r1 ++ lit "|" ++ source r2
  | Opt r => source r ++ lit "?"
  | Star r => source r ++ lit "*"
  | Plus r => source r ++ lit "+"
  | Group _ r => lit "(" ++ source r ++ lit ")"
  end.

(** [String.prototype.includes]. *)
Fixpoint includes (needle hay : str) : bool :=
  match hay with
  | [] => bool_decide (needle = [])
  | _ :: tl => bool_decide (take (length needle) hay = needle) || includes needle tl
  end.

(** *** The backtracking matcher *)

Record mstate := MState { pos : nat; rest : str; caps : list (option str) }.

Definition char_eq (icase : bool) (a b : char) : bool :=
  if icase then (to_upper a =? to_upper b)%N else (a =? b)%N.

Definition clear (gs : list nat) (st : mstate) : mstate :=
  MState (pos st) (rest st) (foldr (λ g c, <[g := None]> c) (caps st) gs).

Definition step_class (p : char → bool) (st : mstate) : list mstate :=
  match rest st with
  | c :: tl => if p c then [MState (S (pos st)) tl (caps st)] else []
  | [] => []
  end.

Definition progress (st st' : mstate) : bool := bool_decide (pos st < pos st').

(** [RepeatMatcher] with [min = 0] and no upper bound, greedy: one more
    iteration that consumes at least one code unit, else stop.  Every
    iteration shortens [rest], so [S (length (rest st))] rounds suffice. *)
Fixpoint repeat_loop (body : mstate → list mstate) (gs : list nat)
    (fuel : nat) (st : mstate) : list mstate :=
  match fuel with
  | O => [st]
  | S f =>
      (body (clear gs st) ≫= λ st1,
         if progress st st1 then repeat_loop body gs f st1 else [])
      ++ [st]
  end.

Definition set_group (n : nat) (st st1 : mstate) : mstate :=
  MState (pos st1) (rest st1)
         (<[n := Some (take (pos st1 - pos st) (rest st))]> (caps st1)).

Fixpoint matcher (icase : bool) (r : regex) (st : mstate) : list mstate :=
  match r with
  | Empty => [st]
  | Char c => step_class (char_eq icase c) st
  | CharSet cs => step_class (λ ch, existsb (char_eq icase ch) cs) st
  | Digit => step_class is_digit st
  | Space => step_class is_space st
  | Bol => if decide (pos st = 0) then [st] else []
  | Eol => match rest st with [] => [st] | _ => [] end
  | Seq r1 r2 => matcher icase r1 st ≫= matcher icase r2
  | Alt r1 r2 => matcher icase r1 st ++ matcher icase r2 st
  | Opt r' =>
      filter (λ st1, progress st st1 = true)
             (matcher icase r' (clear (groups r') st)) ++ [st]
  | Star r' =>
      repeat_loop (matcher icase r') (groups r') (S (length (rest st))) st
  | Plus r' =>
      matcher icase r' (clear (groups r') st) ≫= λ st1,
        repeat_loop (matcher icase r') (groups r') (S (length (rest st1))) st1
  | Group n r' => set_group n st <$> matcher icase r' st
  end.

Definition ngroups (r : regex) : nat := length (groups r).

(** One attempt of the matcher at start index [k]: the first success, with
    element 0 of the result set to the matched substring. *)
Definition match_at (re : regexp) (text : str) (k : nat)
    : option (list (option str)) :=
  let st0 := MState k (drop k text) (replicate (S (ngroups (re_body re))) None) in
  match matcher (re_ignoreCase re) (re_body re) st0 with
  | st1 :: _ => Some (<[0 := Some (take (pos st1 - k) (drop k text))]> (caps st1))
  | [] => None
  end.

Fixpoint search (re : regexp) (text : str) (n k : nat)
    : option (list (option str)) :=
  match match_at re text k with
  | Some m => Some m
  | None => match n with O => None | S n' => search re text n' (S k) end
  end.

(** [text.match(re)] for a regular expression without the [g] flag: start
    indices 0, 1, ..., [length text] are tried in turn. *)
Definition str_match (text : str) (re : regexp) : option (list (option str)) :=
  search re text (length text) 0.

(** [m[i]] of a match array; [None] is [undefined]. *)
Definition group (m : list (option str)) (i : nat) : option str :=
  default None (m !! i).

(** ** The patterns of [parseCoordinates] and [parseDMS] *)

Definition num_re : regex :=
  cat [Opt (Char (chr "-")); Plus Digit; Opt (Char (chr ".")); Star Digit].

(** First element of [patterns]: the decimal pair; its source text is
    checked by [decimal_pattern_source] below. *)
Definition decimal_pattern : regexp :=
  RegExp (cat [Bol; Group 1 num_re; Char (chr ","); Star Space;
               Group 2 num_re; Eol]) false.

Definition dms_token_re (g : nat) (hemi : list char) : regex :=
  cat [Opt (Char (chr "-")); Plus Digit; Char deg; Star Space;
       Plus Digit; Opt (Char (chr "'")); Star Space;
       Plus Digit; Opt (Group g (cat [Char (chr "."); Plus Digit]));
       Opt (Char dquote); Star Space; CharSet hemi].

(** Second element of [patterns]: the DMS pair ([dms_pattern_source]). *)
Definition dms_pattern : regexp :=
  RegExp (cat [Bol; Group 1 (dms_token_re 2 (lit "NS"));
               Star Space; Opt (Char (chr ",")); Star Space;
               Group 3 (dms_token_re 4 (lit "EW")); Eol]) false.

(** The pattern of [parseDMS], with the [i] flag
    ([dms_parts_pattern_source]). *)
Definition dms_parts_pattern : regexp :=
  RegExp (cat [Group 1 (Plus Digit); Char deg; Star Space;
               Opt (Group 2 (Plus Digit)); Opt (Char (chr "'")); Star Space;
               Opt (Group 3 (cat [Plus Digit;
                                  Opt (Group 4 (cat [Char (chr "."); Plus Digit]))]));
               Opt (Char dquote); Star Space;
               Group 5 (Alt (CharSet (lit "NS")) (CharSet (lit "EW")))]) true.

Example decimal_pattern_source :
  source (re_body decimal_pattern) = lit "^(-?\d+\.?\d*),\s*(-?\d+\.?\d*)$".
Proof. reflexivity. Qed.

Example dms_pattern_source :
  source (re_body dms_pattern) =
  lit "^(-?\d+" ++ [deg] ++ lit "\s*\d+'?\s*\d+(\.\d+)?" ++ [dquote]
  ++ lit "?\s*[NS])\s*,?\s*(-?\d+" ++ [deg] ++ lit "\s*\d+'?\s*\d+(\.\d+)?"
  ++ [dquote] ++ lit "?\s*[EW])$".
Proof. reflexivity. Qed.

Example dms_parts_pattern_source :
  source (re_body dms_parts_pattern) =
  lit "(\d+)" ++ [deg] ++ lit "\s*(\d+)?'?\s*(\d+(\.\d+)?)?" ++ [dquote]
  ++ lit "?\s*([NS]|[EW])".
Proof. reflexivity. Qed.

(** ** Numbers *)

Inductive number := NaN | Fin (q : Q).

Definition nadd (a b : number) : number :=
  match a, b with Fin x, Fin y => Fin (x + y) | _, _ => NaN end.

Definition nmul (a b : number) : number :=
  match a, b with Fin x, Fin y => Fin (x * y) | _, _ => NaN end.

(** Division; the divisors of this program are the constants 60 and 3600,
    the quotient by zero (an infinity or NaN in JavaScript) is left as NaN. *)
Definition ndiv (a b : number) : number :=
  match a, b with
  | Fin x, Fin y => if Qeq_bool y 0 then NaN else Fin (x / y)
  | _, _ => NaN
  end.

Definition nneg (a : number) : number :=
  match a with Fin x => Fin (- x) | NaN => NaN end.

(** Equality of numbers as values (two fractions of the same rational). *)
Definition num_eq (a b : number) : Prop :=
  match a, b with
  | NaN, NaN => True
  | Fin x, Fin y => x == y
  | _, _ => False
  end.

(** ** [parseInt] and [parseFloat] *)

Fixpoint take_while (p : char → bool) (s : str) : str :=
  match s with
  | c :: tl => if p c then c :: take_while p tl else []
  | [] => []
  end.

Fixpoint drop_while (p : char → bool) (s : str) : str :=
  match s with
  | c :: tl => if p c then drop_while p tl else s
  | [] => []
  end.

Definition digit_val (c : char) : Z := Z.of_N (c - 48).

Definition digits_val (ds : str) : Z :=
  foldl (λ acc c, 10 * acc + digit_val c)%Z 0%Z ds.

Definition is_hex_digit (c : char) : bool :=
  is_digit c || ((65 <=? c)%N && (c <=? 70)%N) || ((97 <=? c)%N && (c <=? 102)%N).

Definition hex_val (c : char) : Z :=
  if is_digit c then digit_val c
  else if (c <=? 70)%N then Z.of_N (c - 55) else Z.of_N (c - 87).

(** A leading sign: [(negative, remainder)]. *)
Definition read_sign (s : str) : bool * str :=
  match s with
  | c :: tl =>
      if (c =? chr "-")%N then (true, tl)
      else if (c =? chr "+")%N then (false, tl) else (false, s)
  | [] => (false, [])
  end.

Definition signed (neg : bool) (q : Q) : Q := if neg then - q else q.

(** The digits of [parseInt] after the sign: hexadecimal after a [0x]
    prefix, decimal otherwise. *)
Definition read_integer (neg : bool) (s1 : str) : number :=
  let hex :=
    match s1 with
    | z :: x :: tl =>
        if (z =? chr "0")%N && ((x =? chr "x")%N || (x =? chr "X")%N)
        then Some tl else None
    | _ => None
    end in
  match hex with
  | Some tl =>
      match take_while is_hex_digit tl with
      | [] => NaN
      | ds => Fin (signed neg
                (inject_Z (foldl (λ acc c, 16 * acc + hex_val c)%Z 0%Z ds)))
      end
  | None =>
      match take_while is_digit s1 with
      | [] => NaN
      | ds => Fin (signed neg (inject_Z (digits_val ds)))
      end
  end.

(** [parseInt(s)] with no radix argument. *)
Definition parseInt (s : str) : number :=
  let '(neg, s1) := read_sign (drop_while is_space s) in
  read_integer neg s1.

(** The exponent part of a decimal literal, 0 when there is none. *)
Definition read_exponent (s : str) : Z :=
  match s with
  | e :: tl =>
      if (e =? chr "e")%N || (e =? chr "E")%N then
        let '(neg, tl') := read_sign tl in
        match take_while is_digit tl' with
        | [] => 0%Z
        | ds => if neg then (- digits_val ds)%Z else digits_val ds
        end
      else 0%Z
  | [] => 0%Z
  end.

(** The unsigned decimal literal of [parseFloat]: integer digits, an
    optional point with fraction digits, an optional exponent. *)
Definition read_decimal (neg : bool) (s1 : str) : number :=
  let ip := take_while is_digit s1 in
  let s2 := drop_while is_digit s1 in
  let '(fp, s3) :=
    match s2 with
    | c :: tl =>
        if (c =? chr ".")%N
        then (take_while is_digit tl, drop_while is_digit tl)
        else ([], s2)
    | [] => ([], [])
    end in
  match ip ++ fp with
  | [] => NaN
  | ds =>
      Fin (signed neg
             (inject_Z (digits_val ds) / inject_Z (10 ^ Z.of_nat (length fp))
              * 10 ^ read_exponent s3))
  end.

(** [parseFloat(s)]: the longest prefix of the trimmed string that is a
    decimal literal.  The literal [Infinity] has no value in [number] and
    is read as [NaN]; no string matched by the patterns above contains
    it. *)
Definition parseFloat (s : str) : number :=
  let '(neg, s1) := read_sign (drop_while is_space s) in
  read_decimal neg s1.

(** ** [parseDMS] *)

(** [ToString] of a possibly undefined string. *)
Definition to_string (v : option str) : str := default (lit "undefined") v.

(** Truthiness of a possibly undefined string. *)
Definition truthy (v : option str) : bool :=
  match v with Some (_ :: _) => true | _ => false end.

(** The lines of [parseDMS] after the match: the decimal degrees computed
    from the array [parts].  Group 5 of the pattern is not optional, it is
    defined in every match. *)
Definition dms_of_parts (parts : list (option str)) : number :=
  let degrees := parseInt (to_string (group parts 1)) in
  let minutes :=
    if truthy (group parts 2) then parseInt (to_string (group parts 2))
    else Fin 0 in
  let seconds :=
    if truthy (group parts 3) then parseFloat (to_string (group parts 3))
    else Fin 0 in
  let direction := toUpperCase (default [] (group parts 5)) in
  let dd := nadd (nadd degrees (ndiv minutes (Fin 60)))
                 (ndiv seconds (Fin 3600)) in
  if bool_decide (direction = lit "S") || bool_decide (direction = lit "W")
  then nneg dd else dd.

(** [parseDMS(dms)]; [None] is [null]. *)
Definition parseDMS (dms : str) : option number :=
  match str_match dms dms_parts_pattern with
  | None => None
  | Some parts => Some (dms_of_parts parts)
  end.

(** ** [parseCoordinates] *)

(** The object returned by [parseCoordinates]; a field is a number or
    [null] ([None]). *)
Record Coordinates := { lat : option number; lng : option number }.

Definition toString (re : regexp) : str :=
  lit "/" ++ source (re_body re) ++ lit "/"
  ++ (if re_ignoreCase re then lit "i" else []).

Definition patterns : list regexp := [decimal_pattern; dms_pattern].

(** The body of the [for (const pattern of patterns)] loop.  Groups 1 and 3
    of the DMS pattern, and 1 and 2 of the decimal one, are not optional. *)
Fixpoint parseCoordinates_loop (text : str) (ps : list regexp)
    : option Coordinates :=
  match ps with
  | [] => None
  | pattern :: ps' =>
      match str_match text pattern with
      | Some m =>
          if includes (lit "NS") (toString pattern) then
            Some {| lat := group m 1 ≫= parseDMS;
                    lng := group m 3 ≫= parseDMS |}
          else
            Some {| lat := Some (parseFloat (to_string (group m 1)));
                    lng := Some (parseFloat (to_string (group m 2))) |}
      | None => parseCoordinates_loop text ps'
      end
  end.

(** [parseCoordinates(text)]; [None] is [null]. *)
Definition parseCoordinates (text : str) : option Coordinates :=
  parseCoordinates_loop text patterns.

Definition dms_example : str :=
  lit "30" ++ [deg] ++ lit "21'20" ++ [dquote] ++ lit "N, 120"
  ++ [deg] ++ lit "1'26.5" ++ [dquote] ++ lit "E".


(** * Properties of the matcher *)

(** The words a pattern can consume, groups transparent and assertions
    consuming nothing: every success of [matcher] consumes such a word
    ([matcher_sound]); for patterns without groups and assertions the
    successes are exactly these ([matcher_plain]). *)
Fixpoint lang (icase : bool) (r : regex) (w : str) : Prop :=
  match r with
  | Empty | Bol | Eol => w = []
  | Char c => ∃ ch, w = [ch] ∧ char_eq icase c ch = true
  | CharSet cs => ∃ ch, w = [ch] ∧ existsb (char_eq icase ch) cs = true
  | Digit => ∃ ch, w = [ch] ∧ is_digit ch = true
  | Space => ∃ ch, w = [ch] ∧ is_space ch = true
  | Seq r1 r2 => ∃ w1 w2, w = w1 ++ w2 ∧ lang icase r1 w1 ∧ lang icase r2 w2
  | Alt r1 r2 => lang icase r1 w ∨ lang icase r2 w
  | Opt r' => w = [] ∨ lang icase r' w
  | Star r' => ∃ ws, w = concat ws ∧ Forall (lang icase r') ws
  | Plus r' =>
      ∃ w1 ws, w = w1 ++ concat ws ∧ lang icase r' w1 ∧ Forall (lang icase r') ws
  | Group _ r' => lang icase r' w
  end.

(** Patterns without capture groups and without [^] and [$]. *)
Fixpoint plain (r : regex) : bool :=
  match r with
  | Bol | Eol | Group _ _ => false
  | Seq r1 r2 | Alt r1 r2 => plain r1 && plain r2
  | Opt r' | Star r' | Plus r' => plain r'
  | _ => true
  end.

(** [st'] is [st] after consuming the word [w]. *)
Definition consumes (st : mstate) (w : str) (st' : mstate) : Prop :=
  rest st = w ++ rest st' ∧ pos st' = pos st + length w.

Lemma consumes_nil st : consumes st [] st.
Proof. split; simpl; [done | lia]. Qed.

Lemma consumes_app st1 w1 st2 w2 st3 :
  consumes st1 w1 st2 → consumes st2 w2 st3 → consumes st1 (w1 ++ w2) st3.
Proof.
  intros [H1 H2] [H3 H4]. split.
  - by rewrite H1, H3, (assoc_L (++)).
  - rewrite length_app. lia.
Qed.

Lemma consumes_clear gs st w st' :
  consumes (clear gs st) w st' ↔ consumes st w st'.
Proof. done. Qed.

Lemma consumes_progress st w st' :
  consumes st w st' → progress st st' = true ↔ w ≠ [].
Proof.
  intros [_ Hp]. unfold progress. rewrite bool_decide_eq_true, Hp.
  destruct w; simpl; split; intros; try done; lia.
Qed.

Lemma elem_of_step_class p st st' :
  st' ∈ step_class p st ↔
  ∃ c, p c = true ∧ consumes st [c] st' ∧ caps st' = caps st.
Proof.
  unfold step_class, consumes. destruct st as [k [|c tl] cs]; simpl.
  - rewrite elem_of_nil. split; [done | by intros (c & _ & [? _] & _)].
  - destruct (p c) eqn:Hp.
    + rewrite list_elem_of_singleton. split.
      * intros ->. exists c. simpl. repeat split; [done | lia].
      * intros (c' & _ & [Hr Hk] & Hc). destruct st' as [k' r' cs'].
        simpl in *. simplify_eq. f_equal. lia.
    + rewrite elem_of_nil. split; [done |].
      intros (c' & Hp' & [Hr _] & _). simplify_eq. congruence.
Qed.

Section repeat.
Context (body : mstate → list mstate) (gs : list nat) (R : str → Prop).

Lemma repeat_loop_sound :
  (∀ a b, b ∈ body a → ∃ w, R w ∧ consumes a w b) →
  ∀ fuel st st', st' ∈ repeat_loop body gs fuel st →
    ∃ ws, Forall R ws ∧ consumes st (concat ws) st'.
Proof.
  intros Hbody. induction fuel as [|fuel IH]; intros st st'; simpl.
  - rewrite list_elem_of_singleton. intros ->. exists [].
    split; [constructor | apply consumes_nil].
  - rewrite elem_of_app, list_elem_of_bind, list_elem_of_singleton.
    intros [(st1 & Hin & Hst1) | ->].
    + destruct (progress st st1); [| by apply elem_of_nil in Hin].
      apply Hbody in Hst1 as (w & Hw & Hc).
      apply IH in Hin as (ws & Hws & Hc').
      exists (w :: ws). split; [by constructor |].
      simpl. apply consumes_clear in Hc. by eapply consumes_app.
    + exists []. split; [constructor | apply consumes_nil].
Qed.

Lemma repeat_loop_caps :
  (∀ a b, b ∈ body a → caps b = caps a) → gs = [] →
  ∀ fuel st st', st' ∈ repeat_loop body gs fuel st → caps st' = caps st.
Proof.
  intros Hbody ->. induction fuel as [|fuel IH]; intros st st'; simpl.
  - by rewrite list_elem_of_singleton; intros ->.
  - rewrite elem_of_app, list_elem_of_bind, list_elem_of_singleton.
    intros [(st1 & Hin & Hst1) | ->]; [| done].
    destruct (progress st st1); [| by apply elem_of_nil in Hin].
    apply IH in Hin. apply Hbody in Hst1. by rewrite Hin, Hst1.
Qed.

Lemma repeat_loop_complete :
  (∀ st w tl, R w → rest st = w ++ tl →
     MState (pos st + length w) tl (caps st) ∈ body st) →
  gs = [] →
  ∀ ws, Forall (λ w, R w ∧ w ≠ []) ws →
  ∀ fuel st tl, rest st = concat ws ++ tl → length (rest st) < fuel →
    MState (pos st + length (concat ws)) tl (caps st)
    ∈ repeat_loop body gs fuel st.
Proof.
  intros Hbody ->. induction 1 as [|w ws [Hw Hne] Hws IH];
    intros fuel st tl Hrest Hfuel.
  - destruct fuel as [|fuel]; [lia |]. simpl in *.
    rewrite elem_of_app, list_elem_of_singleton. right.
    destruct st; simpl in *. subst. f_equal. lia.
  - destruct fuel as [|fuel]; [lia |]. simpl in *.
    rewrite elem_of_app, list_elem_of_bind. left.
    exists (MState (pos st + length w) (concat ws ++ tl) (caps st)).
    assert (Hst : clear [] st = st) by by destruct st.
    rewrite Hst. split.
    + assert (Hp : progress st (MState (pos st + length w) (concat ws ++ tl) (caps st)) = true).
      { unfold progress. apply bool_decide_eq_true. simpl.
        destruct w; simpl; [done | lia]. }
      rewrite Hp.
      specialize (IH fuel (MState (pos st + length w) (concat ws ++ tl) (caps st)) tl).
      simpl in IH. rewrite length_app, Nat.add_assoc.
      apply IH; [done |]. rewrite Hrest, !length_app in Hfuel.
      rewrite length_app. destruct w; simpl in *; [done | lia].
    + apply Hbody; [done |]. by rewrite Hrest, (assoc_L (++)).
Qed.
End repeat.

Lemma Forall_concat_nonempty {A} (R : list A → Prop) (ws : list (list A)) :
  Forall R ws →
  ∃ ws', Forall (λ w, R w ∧ w ≠ []) ws' ∧ concat ws' = concat ws.
Proof.
  induction 1 as [|w ws Hw _ (ws' & Hws' & Heq)].
  - by exists [].
  - destruct w as [|a w].
    + by exists ws'.
    + exists ((a :: w) :: ws'). split; [by constructor |].
      simpl. by rewrite Heq.
Qed.

Section matcher_theory.
Context (icase : bool).

(** Every success consumes a word of the pattern's language. *)
Lemma matcher_sound r : ∀ st st',
  st' ∈ matcher icase r st → ∃ w, lang icase r w ∧ consumes st w st'.
Proof.
  induction r as [| c | cs | | | | | r1 IH1 r2 IH2 | r1 IH1 r2 IH2
                  | r IH | r IH | r IH | n r IH]; intros st st';
    cbn [matcher lang].
  - rewrite list_elem_of_singleton. intros ->. exists [].
    split; [done | apply consumes_nil].
  - rewrite elem_of_step_class. intros (ch & Hp & Hc & _). exists [ch]. eauto.
  - rewrite elem_of_step_class. intros (ch & Hp & Hc & _). exists [ch]. eauto.
  - rewrite elem_of_step_class. intros (ch & Hp & Hc & _). exists [ch]. eauto.
  - rewrite elem_of_step_class. intros (ch & Hp & Hc & _). exists [ch]. eauto.
  - case_decide; [| by rewrite elem_of_nil].
    rewrite list_elem_of_singleton. intros ->. exists [].
    split; [done | apply consumes_nil].
  - destruct (rest st) eqn:Hr; [| by rewrite elem_of_nil].
    rewrite list_elem_of_singleton. intros ->. exists [].
    split; [done | apply consumes_nil].
  - rewrite list_elem_of_bind. intros (st1 & H2 & H1).
    apply IH1 in H1 as (w1 & Hw1 & Hc1). apply IH2 in H2 as (w2 & Hw2 & Hc2).
    exists (w1 ++ w2). split; [by exists w1, w2 | by eapply consumes_app].
  - rewrite elem_of_app. intros [H | H].
    + apply IH1 in H as (w & Hw & Hc). exists w. auto.
    + apply IH2 in H as (w & Hw & Hc). exists w. auto.
  - rewrite elem_of_app, list_elem_of_filter, list_elem_of_singleton.
    intros [[_ H] | ->].
    + apply IH in H as (w & Hw & Hc). exists w. auto.
    + exists []. split; [by left | apply consumes_nil].
  - intros H. eapply (repeat_loop_sound _ _ (lang icase r)) in H as (ws & Hws & Hc).
    + exists (concat ws). split; [by exists ws | done].
    + apply IH.
  - rewrite list_elem_of_bind. intros (st1 & H2 & H1).
    apply IH in H1 as (w1 & Hw1 & Hc1).
    eapply (repeat_loop_sound _ _ (lang icase r)) in H2 as (ws & Hws & Hc); [| apply IH].
    exists (w1 ++ concat ws). split; [by exists w1, ws |].
    apply consumes_clear in Hc1. by eapply consumes_app.
  - rewrite list_elem_of_fmap. intros (st1 & -> & H).
    apply IH in H as (w & Hw & Hc). exists w. auto.
Qed.

Lemma plain_groups r : plain r = true → groups r = [].
Proof.
  induction r; simpl; try done.
  - intros [H1 H2]%andb_true_iff. by rewrite IHr1, IHr2.
  - intros [H1 H2]%andb_true_iff. by rewrite IHr1, IHr2.
Qed.

Lemma clear_nil st : clear [] st = st.
Proof. by destruct st. Qed.

(** A pattern without groups leaves the captures alone. *)
Lemma matcher_plain_caps r : plain r = true → ∀ st st',
  st' ∈ matcher icase r st → caps st' = caps st.
Proof.
  induction r as [| c | cs | | | | | r1 IH1 r2 IH2 | r1 IH1 r2 IH2
                  | r IH | r IH | r IH | n r IH]; cbn [matcher plain];
    intros Hp st st'; try done.
  - by rewrite list_elem_of_singleton; intros ->.
  - rewrite elem_of_step_class. by intros (ch & _ & _ & ?).
  - rewrite elem_of_step_class. by intros (ch & _ & _ & ?).
  - rewrite elem_of_step_class. by intros (ch & _ & _ & ?).
  - rewrite elem_of_step_class. by intros (ch & _ & _ & ?).
  - apply andb_true_iff in Hp as [Hp1 Hp2].
    rewrite list_elem_of_bind. intros (st1 & H2 & H1).
    rewrite (IH2 Hp2 _ _ H2). by apply IH1.
  - apply andb_true_iff in Hp as [Hp1 Hp2].
    rewrite elem_of_app. intros [H | H]; auto.
  - rewrite (plain_groups _ Hp), clear_nil.
    rewrite elem_of_app, list_elem_of_filter, list_elem_of_singleton.
    intros [[_ H] | ->]; auto.
  - apply repeat_loop_caps; [by apply IH | by apply plain_groups].
  - rewrite (plain_groups _ Hp), clear_nil.
    rewrite list_elem_of_bind. intros (st1 & H2 & H1).
    apply repeat_loop_caps in H2; [| by apply IH | done].
    rewrite H2. by apply IH.
Qed.

(** Every word of the language of a plain pattern is a success. *)
Lemma matcher_plain_complete r : plain r = true → ∀ w st tl,
  lang icase r w → rest st = w ++ tl →
  MState (pos st + length w) tl (caps st) ∈ matcher icase r st.
Proof.
  assert (Hcls : ∀ p st ch tl, p ch = true → rest st = [ch] ++ tl →
            MState (pos st + length [ch]) tl (caps st) ∈ step_class p st).
  { intros p st ch tl Hp Hr. apply elem_of_step_class. exists ch.
    repeat split; simpl; done || lia. }
  induction r as [| c | cs | | | | | r1 IH1 r2 IH2 | r1 IH1 r2 IH2
                  | r IH | r IH | r IH | n r IH]; cbn [matcher plain lang];
    intros Hp w st tl Hw Hr; try done.
  - subst w. apply list_elem_of_singleton. destruct st; simpl in *.
    subst. f_equal. lia.
  - destruct Hw as (ch & -> & Hch). by apply Hcls.
  - destruct Hw as (ch & -> & Hch). by apply Hcls.
  - destruct Hw as (ch & -> & Hch). by apply Hcls.
  - destruct Hw as (ch & -> & Hch). by apply Hcls.
  - apply andb_true_iff in Hp as [Hp1 Hp2].
    destruct Hw as (w1 & w2 & -> & Hw1 & Hw2).
    apply list_elem_of_bind.
    exists (MState (pos st + length w1) (w2 ++ tl) (caps st)). split.
    + specialize (IH2 Hp2 w2 (MState (pos st + length w1) (w2 ++ tl) (caps st)) tl Hw2).
      simpl in IH2. rewrite length_app, Nat.add_assoc. by apply IH2.
    + apply IH1; [done.. |]. by rewrite Hr, (assoc_L (++)).
  - apply andb_true_iff in Hp as [Hp1 Hp2].
    apply elem_of_app. destruct Hw; [left | right]; auto.
  - rewrite (plain_groups _ Hp), clear_nil.
    apply elem_of_app. destruct Hw as [-> | Hw].
    + right. apply list_elem_of_singleton. destruct st; simpl in *.
      subst. f_equal. lia.
    + destruct w as [|a w].
      * right. apply list_elem_of_singleton. destruct st; simpl in *.
        subst. f_equal. lia.
      * left. apply list_elem_of_filter. split; [| by apply IH].
        unfold progress. apply bool_decide_eq_true. simpl. lia.
  - destruct Hw as (ws & -> & Hws).
    apply Forall_concat_nonempty in Hws as (ws' & Hws' & Heq).
    rewrite <- Heq in *.
    eapply (repeat_loop_complete _ _ (lang icase r)); eauto using plain_groups.
  - rewrite (plain_groups _ Hp), clear_nil.
    destruct Hw as (w1 & ws & -> & Hw1 & Hws).
    apply Forall_concat_nonempty in Hws as (ws' & Hws' & Heq).
    rewrite <- Heq in *.
    apply list_elem_of_bind.
    exists (MState (pos st + length w1) (concat ws' ++ tl) (caps st)). split.
    + pose proof (repeat_loop_complete (matcher icase r) [] (lang icase r)
                    (λ st w tl, IH Hp w st tl) eq_refl ws' Hws'
                    (S (length (concat ws' ++ tl)))
                    (MState (pos st + length w1) (concat ws' ++ tl) (caps st)) tl) as H.
      simpl in H. rewrite length_app, Nat.add_assoc. apply H; [done | lia].
    + apply IH; [done.. |]. by rewrite Hr, (assoc_L (++)).
Qed.

(** The successes of a plain pattern, exactly. *)
Lemma matcher_plain r st st' : plain r = true →
  st' ∈ matcher icase r st ↔
  ∃ w, lang icase r w ∧ consumes st w st' ∧ caps st' = caps st.
Proof.
  intros Hp. split.
  - intros H. destruct (matcher_sound _ _ _ H) as (w & Hw & Hc).
    exists w. eauto using matcher_plain_caps.
  - intros (w & Hw & [Hr Hk] & Hc).
    pose proof (matcher_plain_complete r Hp w st (rest st') Hw Hr) as H.
    destruct st' as [k' r' c']; simpl in *. by subst.
Qed.

(** A group around a plain pattern records the word it consumed. *)
Lemma matcher_group_plain n r st st' : plain r = true →
  st' ∈ matcher icase (Group n r) st ↔
  ∃ w, lang icase r w ∧ consumes st w st' ∧
       caps st' = <[n := Some w]> (caps st).
Proof.
  intros Hp. simpl. rewrite list_elem_of_fmap. split.
  - intros (st1 & -> & H). apply matcher_plain in H as (w & Hw & Hc & Hcaps); [| done].
    exists w. split; [done |]. split; [done |]. unfold set_group. simpl.
    destruct Hc as [Hr Hk]. rewrite Hcaps, Hk, Hr.
    replace (pos st + length w - pos st) with (length w) by lia.
    by rewrite take_app_length.
  - intros (w & Hw & [Hr Hk] & Hcaps).
    exists (MState (pos st') (rest st') (caps st)). split.
    + unfold set_group. simpl. destruct st' as [k' r' c']; simpl in *.
      subst. f_equal. replace (pos st + length w - pos st) with (length w) by lia.
      by rewrite Hr, take_app_length.
    + apply matcher_plain; [done |]. exists w. by repeat split.
Qed.
End matcher_theory.

(** ** Languages of the character classes *)

Lemma lang_star_digit i w :
  lang i (Star Digit) w ↔ Forall (λ c, is_digit c = true) w.
Proof.
  simpl. split.
  - intros (ws & -> & Hws). induction Hws as [|w ws (ch & -> & Hch) _ IH]; simpl;
      [constructor | by constructor].
  - intros Hw. exists ((λ c, [c]) <$> w). split.
    + induction w; simpl; [done | f_equal; inversion Hw; auto].
    + induction Hw; simpl; constructor; eauto.
Qed.

Lemma lang_star_space i w :
  lang i (Star Space) w ↔ Forall (λ c, is_space c = true) w.
Proof.
  simpl. split.
  - intros (ws & -> & Hws). induction Hws as [|w ws (ch & -> & Hch) _ IH]; simpl;
      [constructor | by constructor].
  - intros Hw. exists ((λ c, [c]) <$> w). split.
    + induction w; simpl; [done | f_equal; inversion Hw; auto].
    + induction Hw; simpl; constructor; eauto.
Qed.

Lemma lang_plus_digit i w :
  lang i (Plus Digit) w ↔ w ≠ [] ∧ Forall (λ c, is_digit c = true) w.
Proof.
  cbn [lang]. split.
  - intros (w1 & ws & -> & (ch & -> & Hch) & Hws).
    split; [done |]. constructor; [done |].
    apply (lang_star_digit i). by exists ws.
  - intros [Hne Hw]. destruct Hw as [|ch w Hch Hw]; [done |].
    apply (lang_star_digit i) in Hw as (ws & -> & Hws).
    exists [ch], ws. eauto.
Qed.

Lemma lang_opt_char i c w :
  lang i (Opt (Char c)) w ↔ w = [] ∨ ∃ ch, w = [ch] ∧ char_eq i c ch = true.
Proof. done. Qed.

Lemma char_eq_exact a b : char_eq false a b = true ↔ b = a.
Proof. unfold char_eq. rewrite N.eqb_eq. naive_solver. Qed.

(** ** Decimal literals *)

(** A decimal literal of the shape the first pattern accepts: an optional
    minus sign, at least one integer digit, an optional point and fraction
    digits. *)
Record decimal := Decimal {
  d_neg : bool;
  d_int : str;
  d_point : bool;
  d_frac : str
}.

Definition digits (s : str) : Prop := Forall (λ c, is_digit c = true) s.

Definition wf_decimal (d : decimal) : Prop :=
  d_int d ≠ [] ∧ digits (d_int d) ∧ digits (d_frac d)
  ∧ (d_frac d ≠ [] → d_point d = true).

Definition render (d : decimal) : str :=
  (if d_neg d then lit "-" else []) ++ d_int d
  ++ (if d_point d then lit "." else []) ++ d_frac d.

(** The number a decimal literal denotes. *)
Definition dec_value (d : decimal) : Q :=
  signed (d_neg d)
    (inject_Z (digits_val (d_int d))
     + inject_Z (digits_val (d_frac d)) / inject_Z (10 ^ Z.of_nat (length (d_frac d)))).

Definition spaces (s : str) : Prop := Forall (λ c, is_space c = true) s.

(** The code units a decimal literal is made of. *)
Definition num_char (c : char) : bool :=
  is_digit c || (c =? chr "-")%N || (c =? chr ".")%N.

Lemma num_char_not_space c : num_char c = true → is_space c = false.
Proof.
  unfold num_char, is_digit, is_space, chr. simpl.
  rewrite !orb_true_iff, !andb_true_iff, !N.leb_le, !N.eqb_eq.
  rewrite !orb_false_iff, !andb_false_iff, !N.leb_gt, !N.eqb_neq. lia.
Qed.

Lemma digits_num_chars w : digits w → Forall (λ c, num_char c = true) w.
Proof.
  intros H. eapply Forall_impl; [exact H |].
  intros c Hc. unfold num_char. by rewrite Hc.
Qed.

Lemma lang_num_re_chars w :
  lang false num_re w → w ≠ [] ∧ Forall (λ c, num_char c = true) w.
Proof.
  unfold num_re, cat. cbn [foldr]. cbn [lang].
  intros (w1 & ? & -> & Hs & w2 & ? & -> & Hi & w3 & ? & -> & Hp & w4 & ? & -> & Hf & ->).
  change (lang false (Plus Digit) w2) in Hi.
  change (lang false (Star Digit) w4) in Hf.
  apply lang_plus_digit in Hi as [Hne Hi]. apply lang_star_digit in Hf.
  split.
  - destruct w1, w2; done.
  - rewrite app_nil_r, !Forall_app.
    repeat split; auto using digits_num_chars.
    + destruct Hs as [-> | (ch & -> & ->%char_eq_exact)]; by repeat constructor.
    + destruct Hp as [-> | (ch & -> & ->%char_eq_exact)]; by repeat constructor.
Qed.

Lemma lang_num_re_render d : wf_decimal d → lang false num_re (render d).
Proof.
  intros (Hne & Hi & Hf & _). unfold num_re, cat, render. cbn [foldr]. cbn [lang].
  exists (if d_neg d then lit "-" else []), (d_int d ++ (if d_point d then lit "." else []) ++ d_frac d).
  split; [done |]. split.
  { destruct (d_neg d); [right | by left]. by exists (chr "-"). }
  exists (d_int d), ((if d_point d then lit "." else []) ++ d_frac d).
  split; [done |]. split.
  { change (lang false (Plus Digit) (d_int d)). by apply lang_plus_digit. }
  exists (if d_point d then lit "." else []), (d_frac d).
  split; [done |]. split.
  { destruct (d_point d); [right | by left]. by exists (chr "."). }
  exists (d_frac d), []. split; [by rewrite app_nil_r |]. split; [| done].
  change (lang false (Star Digit) (d_frac d)). by apply lang_star_digit.
Qed.

Lemma wf_decimal_render_chars d :
  wf_decimal d → render d ≠ [] ∧ Forall (λ c, num_char c = true) (render d).
Proof. intros H. by apply lang_num_re_chars, lang_num_re_render. Qed.

(** ** Splitting a text at a separator *)

Lemma split_at_first {A} (c : A) (a x b y : list A) :
  c ∉ a → c ∉ b → a ++ c :: x = b ++ c :: y → a = b ∧ x = y.
Proof.
  revert b. induction a as [|a0 a IH]; intros [|b0 b] Ha Hb Heq; simpl in *.
  - by simplify_eq.
  - simplify_eq. set_solver.
  - simplify_eq. set_solver.
  - simplify_eq. destruct (IH b) as [-> ->]; [set_solver.. | done | done].
Qed.

(** A word that is empty or starts outside the class [p]. *)
Definition stops (p : char → bool) (w : str) : Prop :=
  match w with c :: _ => p c = false | [] => True end.

Lemma split_after_class (p : char → bool) (u v w z : str) :
  Forall (λ c, p c = true) u → Forall (λ c, p c = true) v →
  stops p w → stops p z → u ++ w = v ++ z → u = v ∧ w = z.
Proof.
  intros Hu. revert v. induction Hu as [|c u Hc Hu IH]; intros v Hv Hw Hz Heq.
  - destruct Hv as [|c' v Hc' Hv]; [done |].
    simpl in *. subst w. simpl in Hw. congruence.
  - destruct Hv as [|c' v Hc' Hv]; simpl in *.
    + subst z. simpl in Hz. congruence.
    + simplify_eq. destruct (IH v) as [-> ->]; done.
Qed.

Lemma take_while_app (p : char → bool) (u w : str) :
  Forall (λ c, p c = true) u → stops p w → take_while p (u ++ w) = u.
Proof.
  induction 1 as [|c u Hc Hu IH]; intros Hw; simpl.
  - destruct w; simpl in *; [done | by rewrite Hw].
  - rewrite Hc. f_equal. auto.
Qed.

Lemma drop_while_app (p : char → bool) (u w : str) :
  Forall (λ c, p c = true) u → stops p w → drop_while p (u ++ w) = w.
Proof.
  induction 1 as [|c u Hc Hu IH]; intros Hw; simpl.
  - destruct w; simpl in *; [done | by rewrite Hw].
  - rewrite Hc. auto.
Qed.

Lemma drop_while_stops (p : char → bool) (w : str) :
  stops p w → drop_while p w = w.
Proof. intros H. by apply (drop_while_app p [] w). Qed.

Lemma take_while_all (p : char → bool) (u : str) :
  Forall (λ c, p c = true) u → take_while p u = u.
Proof. intros H. rewrite <- (app_nil_r u) at 1. by apply take_while_app. Qed.

Lemma drop_while_all (p : char → bool) (u : str) :
  Forall (λ c, p c = true) u → drop_while p u = [].
Proof. intros H. rewrite <- (app_nil_r u) at 1. by apply drop_while_app. Qed.

Lemma num_chars_stop w :
  w ≠ [] → Forall (λ c, num_char c = true) w → stops is_space w.
Proof.
  intros Hne Hw. destruct Hw; [done |]. simpl. by apply num_char_not_space.
Qed.

(** ** Successes of the decimal pattern *)

Lemma elem_of_matcher_seq i r1 r2 st st' :
  st' ∈ matcher i (Seq r1 r2) st ↔
  ∃ st1, st1 ∈ matcher i r1 st ∧ st' ∈ matcher i r2 st1.
Proof. cbn [matcher]. rewrite list_elem_of_bind. naive_solver. Qed.

Lemma elem_of_matcher_bol i st st' :
  st' ∈ matcher i Bol st ↔ pos st = 0 ∧ st' = st.
Proof.
  cbn [matcher]. case_decide.
  - rewrite list_elem_of_singleton. naive_solver.
  - rewrite elem_of_nil. naive_solver.
Qed.

Lemma elem_of_matcher_eol i st st' :
  st' ∈ matcher i Eol st ↔ rest st = [] ∧ st' = st.
Proof.
  cbn [matcher]. destruct (rest st).
  - rewrite list_elem_of_singleton. naive_solver.
  - rewrite elem_of_nil. naive_solver.
Qed.

Lemma elem_of_matcher_empty i st st' : st' ∈ matcher i Empty st ↔ st' = st.
Proof. cbn [matcher]. apply list_elem_of_singleton. Qed.

Lemma decimal_pattern_successes text st' :
  st' ∈ matcher false (re_body decimal_pattern) (MState 0 text [None; None; None]) ↔
  ∃ w1 ws w2,
    lang false num_re w1 ∧ spaces ws ∧ lang false num_re w2
    ∧ text = w1 ++ lit "," ++ ws ++ w2
    ∧ st' = MState (length text) [] [None; Some w1; Some w2].
Proof.
  unfold decimal_pattern, cat. cbn [re_body foldr]. split.
  - intros (s1 & [_ ->]%elem_of_matcher_bol & H)%elem_of_matcher_seq.
    apply elem_of_matcher_seq in H as (s2 & H2 & H).
    apply matcher_group_plain in H2 as (w1 & Hw1 & [Hr1 Hk1] & Hc1); [| done].
    apply elem_of_matcher_seq in H as (s3 & H3 & H).
    apply matcher_plain in H3 as (wc & (ch & -> & ->%char_eq_exact) & [Hr2 Hk2] & Hc2); [| done].
    apply elem_of_matcher_seq in H as (s4 & H4 & H).
    apply matcher_plain in H4 as (ws & Hws%lang_star_space & [Hr3 Hk3] & Hc3); [| done].
    apply elem_of_matcher_seq in H as (s5 & H5 & H).
    apply matcher_group_plain in H5 as (w2 & Hw2 & [Hr4 Hk4] & Hc4); [| done].
    apply elem_of_matcher_seq in H as (s6 & [Hr5 ->]%elem_of_matcher_eol & ->%elem_of_matcher_empty).
    exists w1, ws, w2. simpl in *.
    assert (Htext : text = w1 ++ chr "," :: ws ++ w2).
    { rewrite Hr1, Hr2. simpl. rewrite Hr3, Hr4, Hr5. by rewrite app_nil_r. }
    repeat split; try done.
    destruct s5 as [k5 r5 c5]; simpl in *. subst r5. f_equal.
    + rewrite Hk4, Hk3, Hk2, Hk1, Htext. simpl.
      rewrite !length_app. simpl. rewrite length_app. lia.
    + by rewrite Hc4, Hc3, Hc2, Hc1.
  - intros (w1 & ws & w2 & Hw1 & Hws & Hw2 & -> & ->).
    apply elem_of_matcher_seq. exists (MState 0 (w1 ++ lit "," ++ ws ++ w2) [None; None; None]).
    split; [by apply elem_of_matcher_bol |].
    apply elem_of_matcher_seq.
    exists (MState (length w1) (lit "," ++ ws ++ w2) [None; Some w1; None]).
    split.
    { apply matcher_group_plain; [done |]. exists w1. by repeat split. }
    apply elem_of_matcher_seq.
    exists (MState (length w1 + 1) (ws ++ w2) [None; Some w1; None]).
    split.
    { apply matcher_plain; [done |]. exists (lit ","). repeat split; try done.
      by exists (chr ","). }
    apply elem_of_matcher_seq.
    exists (MState (length w1 + 1 + length ws) w2 [None; Some w1; None]).
    split.
    { apply matcher_plain; [done |]. exists ws. repeat split; try done.
      by apply lang_star_space. }
    apply elem_of_matcher_seq.
    exists (MState (length w1 + 1 + length ws + length w2) [] [None; Some w1; Some w2]).
    split.
    { apply matcher_group_plain; [done |]. exists w2. repeat split; try done.
      simpl. by rewrite app_nil_r. }
    apply elem_of_matcher_seq.
    exists (MState (length w1 + 1 + length ws + length w2) [] [None; Some w1; Some w2]).
    split; [by apply elem_of_matcher_eol |].
    apply elem_of_matcher_empty. f_equal.
    simpl. rewrite !length_app. simpl. rewrite ?length_app. lia.
Qed.

(** ** [str_match] with an anchored pattern *)

Lemma head_unique {A} (l : list A) (x : A) :
  x ∈ l → (∀ y, y ∈ l → y = x) → ∃ l', l = x :: l'.
Proof.
  destruct l as [|y l]; [by intros ?%elem_of_nil |].
  intros _ H. exists l. f_equal. apply H. by left.
Qed.

Lemma search_bol i r text n k :
  0 < k → search (RegExp (Seq Bol r) i) text n k = None.
Proof.
  revert k. induction n as [|n IH]; intros k Hk; simpl;
    unfold match_at; cbn [re_body re_ignoreCase matcher pos];
    (case_decide; [lia |]); simpl; [done | apply IH; lia].
Qed.

Lemma str_match_bol i r text :
  str_match text (RegExp (Seq Bol r) i) = match_at (RegExp (Seq Bol r) i) text 0.
Proof.
  unfold str_match. destruct (length text) as [|n]; simpl.
  - by destruct (match_at _ _ _).
  - destruct (match_at _ _ _); [done |]. apply search_bol. lia.
Qed.

Lemma str_match_decimal_pattern text m :
  str_match text decimal_pattern = Some m ↔
  ∃ w1 ws w2,
    lang false num_re w1 ∧ spaces ws ∧ lang false num_re w2
    ∧ text = w1 ++ lit "," ++ ws ++ w2
    ∧ m = [Some text; Some w1; Some w2].
Proof.
  unfold decimal_pattern, cat. cbn [foldr]. rewrite str_match_bol.
  unfold match_at. cbn [re_body re_ignoreCase].
  change (replicate _ _) with [@None str; None; None].
  change (drop 0 text) with text.
  pose proof (decimal_pattern_successes text) as Hs.
  unfold decimal_pattern, cat in Hs. cbn [re_body foldr] in Hs.
  destruct (matcher false _ _) as [|st1 l] eqn:Hm.
  - split; [done |]. intros (w1 & ws & w2 & Hw1 & Hws & Hw2 & Ht & _).
    assert (H : MState (length text) [] [None; Some w1; Some w2] ∈ @nil mstate).
    { apply Hs. by exists w1, ws, w2. }
    by apply elem_of_nil in H.
  - destruct (Hs st1) as [(w1 & ws & w2 & Hw1 & Hws & Hw2 & Ht & ->) _]; [by left |].
    simpl. rewrite Nat.sub_0_r, firstn_all. split.
    + intros [= <-]. by exists w1, ws, w2.
    + intros (w1' & ws' & w2' & Hw1' & Hws' & Hw2' & Ht' & ->).
      destruct (lang_num_re_chars _ Hw1) as [_ Hc1].
      destruct (lang_num_re_chars _ Hw1') as [_ Hc1'].
      destruct (split_at_first (chr ",") w1 (ws ++ w2) w1' (ws' ++ w2')) as [-> Heq].
      { intros Hin. rewrite Forall_forall in Hc1. by apply Hc1 in Hin. }
      { intros Hin. rewrite Forall_forall in Hc1'. by apply Hc1' in Hin. }
      { by rewrite Ht in Ht'. }
      destruct (lang_num_re_chars _ Hw2) as [Hn2 Hc2].
      destruct (lang_num_re_chars _ Hw2') as [Hn2' Hc2'].
      destruct (split_after_class is_space ws ws' w2 w2') as [-> ->];
        auto using num_chars_stop.
Qed.

(** ** [parseFloat] on a decimal literal *)

Lemma digits_val_acc (ds : str) (acc : Z) :
  foldl (λ a c, 10 * a + digit_val c)%Z acc ds
  = (acc * 10 ^ Z.of_nat (length ds) + digits_val ds)%Z.
Proof.
  unfold digits_val. revert acc. induction ds as [|c ds IH]; intros acc.
  - simpl. lia.
  - cbn [foldl length]. rewrite IH, (IH (10 * 0 + digit_val c)%Z).
    rewrite Nat2Z.inj_succ, Z.pow_succ_r by lia. lia.
Qed.

Lemma digits_val_app (a b : str) :
  digits_val (a ++ b)
  = (digits_val a * 10 ^ Z.of_nat (length b) + digits_val b)%Z.
Proof.
  unfold digits_val at 1. rewrite foldl_app.
  by rewrite digits_val_acc.
Qed.

Lemma digit_not_sign c :
  is_digit c = true → (c =? chr "-")%N = false ∧ (c =? chr "+")%N = false
                      ∧ (c =? chr ".")%N = false.
Proof.
  unfold is_digit, chr. simpl.
  rewrite andb_true_iff, !N.leb_le, !N.eqb_neq. lia.
Qed.

Lemma digit_not_space c : is_digit c = true → is_space c = false.
Proof.
  intros H. apply num_char_not_space. unfold num_char. by rewrite H.
Qed.

Lemma read_decimal_literal neg ip (pt : bool) fp :
  ip ≠ [] → digits ip → digits fp → (fp ≠ [] → pt = true) →
  read_decimal neg (ip ++ (if pt then lit "." else []) ++ fp)
  = Fin (signed neg (inject_Z (digits_val (ip ++ fp))
                     / inject_Z (10 ^ Z.of_nat (length fp)) * 10 ^ 0%Z)).
Proof.
  intros Hne Hi Hf Hpt. unfold read_decimal.
  assert (Hstop : stops is_digit ((if pt then lit "." else []) ++ fp)).
  { destruct pt; [done |]. destruct fp; [done |]. by specialize (Hpt ltac:(done)). }
  rewrite take_while_app, drop_while_app by done.
  destruct pt; simpl.
  - rewrite take_while_all, drop_while_all by done. simpl.
    destruct (ip ++ fp) eqn:E; [by destruct ip |]. done.
  - destruct fp; [| by specialize (Hpt ltac:(done))]. simpl.
    destruct (ip ++ []) eqn:E; [by destruct ip |]. done.
Qed.

Lemma parseFloat_render d :
  wf_decimal d → num_eq (parseFloat (render d)) (Fin (dec_value d)).
Proof.
  intros (Hne & Hi & Hf & Hpt). unfold parseFloat, render.
  assert (Hsign : read_sign (drop_while is_space
             ((if d_neg d then lit "-" else []) ++ d_int d
              ++ (if d_point d then lit "." else []) ++ d_frac d))
           = (d_neg d, d_int d ++ (if d_point d then lit "." else []) ++ d_frac d)).
  { destruct (d_int d) as [|c ip] eqn:E; [done |].
    apply Forall_cons in Hi as [Hc _].
    destruct (digit_not_sign c Hc) as (Hm & Hp & _).
    destruct (d_neg d).
    - done.
    - cbn [app drop_while]. rewrite (digit_not_space c Hc).
      unfold read_sign. by rewrite Hm, Hp. }
  rewrite Hsign, read_decimal_literal by done.
  unfold num_eq, dec_value. rewrite digits_val_app.
  assert (Hpow : ¬ inject_Z (10 ^ Z.of_nat (length (d_frac d))) == 0).
  { intros H. unfold Qeq in H. cbn [Qnum Qden inject_Z] in H.
    pose proof (Z.pow_pos_nonneg 10 (Z.of_nat (length (d_frac d)))). lia. }
  destruct (d_neg d); unfold signed; rewrite inject_Z_plus, inject_Z_mult;
    simpl (10 ^ 0)%Q; field; done.
Qed.

(** ** [parseCoordinates] on the two patterns *)

Lemma decimal_pattern_not_dms :
  includes (lit "NS") (toString decimal_pattern) = false.
Proof. by vm_compute. Qed.

Lemma dms_pattern_is_dms :
  includes (lit "NS") (toString dms_pattern) = true.
Proof. by vm_compute. Qed.

Lemma parseCoordinates_unfold text :
  parseCoordinates text =
  match str_match text decimal_pattern with
  | Some m => Some {| lat := Some (parseFloat (to_string (group m 1)));
                      lng := Some (parseFloat (to_string (group m 2))) |}
  | None =>
      match str_match text dms_pattern with
      | Some m => Some {| lat := group m 1 ≫= parseDMS;
                          lng := group m 3 ≫= parseDMS |}
      | None => None
      end
  end.
Proof.
  unfold parseCoordinates, patterns. cbn [parseCoordinates_loop].
  by rewrite decimal_pattern_not_dms, dms_pattern_is_dms.
Qed.

Lemma parseCoordinates_decimal_literals d1 d2 ws :
  wf_decimal d1 → wf_decimal d2 → spaces ws →
  parseCoordinates (render d1 ++ lit "," ++ ws ++ render d2)
  = Some {| lat := Some (parseFloat (render d1));
            lng := Some (parseFloat (render d2)) |}.
Proof.
  intros H1 H2 Hws. rewrite parseCoordinates_unfold.
  assert (Hm : str_match (render d1 ++ lit "," ++ ws ++ render d2) decimal_pattern
               = Some [Some (render d1 ++ lit "," ++ ws ++ render d2);
                       Some (render d1); Some (render d2)]).
  { apply str_match_decimal_pattern. exists (render d1), ws, (render d2).
    auto using lang_num_re_render. }
  by rewrite Hm.
Qed.

(** The ranges of the data model. *)
Definition lat_in_range (q : Q) : Prop := (-90 <= q)%Q ∧ (q <= 90)%Q.
Definition lng_in_range (q : Q) : Prop := (-180 <= q)%Q ∧ (q <= 180)%Q.


(** Sample literals. *)
Definition lit_30_355764 : decimal := Decimal false (lit "30") true (lit "355764").
Definition lit_120_024029 : decimal := Decimal false (lit "120") true (lit "024029").
Definition lit_1 : decimal := Decimal false (lit "1") false [].
Definition lit_2 : decimal := Decimal false (lit "2") false [].

Lemma wf_decimal_dec d :
  d_int d ≠ [] → forallb is_digit (d_int d) = true →
  forallb is_digit (d_frac d) = true →
  (d_point d = true ∨ d_frac d = []) → wf_decimal d.
Proof.
  intros Hne Hi Hf Hp. repeat split; [done | | |].
  - apply Forall_forall. intros c Hc%list_elem_of_In.
    by eapply forallb_forall in Hi.
  - apply Forall_forall. intros c Hc%list_elem_of_In.
    by eapply forallb_forall in Hf.
  - intros Hne'. by destruct Hp.
Qed.

Lemma spaces_dec ws : forallb is_space ws = true → spaces ws.
Proof.
  intros H. apply Forall_forall. intros c Hc%list_elem_of_In.
  by eapply forallb_forall in H.
Qed.

(** C1 (as amended).  For every pair of decimal literals -- an optional
    minus sign, integer digits, an optional point and fraction digits --
    written [lat,lng] with any white space after the comma (none before
    it), [parseCoordinates] recognises the text and returns the coordinate
    whose latitude is the number the first literal denotes and whose
    longitude is the number the second denotes, in that order.  This holds
    for every value, in particular for lat in [-90,90] and lng in
    [-180,180]. *)
Theorem parseCoordinates_decimal_pair (d1 d2 : decimal) (ws : str) :
  wf_decimal d1 → wf_decimal d2 → spaces ws →
  ∃ x y,
    parseCoordinates (render d1 ++ lit "," ++ ws ++ render d2)
    = Some {| lat := Some x; lng := Some y |}
    ∧ num_eq x (Fin (dec_value d1)) ∧ num_eq y (Fin (dec_value d2)).
Proof.
  intros H1 H2 Hws. exists (parseFloat (render d1)), (parseFloat (render d2)).
  split; [by apply parseCoordinates_decimal_literals |].
  split; by apply parseFloat_render.
Qed.

Lemma parseCoordinates_decimal_pair_witness :
  ∃ x y,
    parseCoordinates (lit "30.355764, 120.024029")
    = Some {| lat := Some x; lng := Some y |}
    ∧ num_eq x (Fin (30355764 # 1000000)) ∧ num_eq y (Fin (120024029 # 1000000)).
Proof.
  destruct (parseCoordinates_decimal_pair lit_30_355764 lit_120_024029 (lit " "))
    as (x & y & Hp & Hx & Hy).
  - by apply wf_decimal_dec; [| | | left].
  - by apply wf_decimal_dec; [| | | left].
  - by apply spaces_dec.
  - exists x, y. split; [exact Hp |]. split.
    + destruct x; [done |]. simpl in *. rewrite Hx. by vm_compute.
    + destruct y; [done |]. simpl in *. rewrite Hy. by vm_compute.
Defined.

(** C1, counterexample: white space before the comma is not tolerated.
    The literals 1 and 2 are in range, yet the text [1 ,2] is not
    recognised. *)
Lemma parseCoordinates_space_before_comma :
  wf_decimal lit_1 ∧ wf_decimal lit_2
  ∧ lat_in_range (dec_value lit_1) ∧ lng_in_range (dec_value lit_2)
  ∧ spaces (lit " ")
  ∧ parseCoordinates (render lit_1 ++ lit " " ++ lit "," ++ render lit_2) = None.
Proof.
  split; [by apply wf_decimal_dec; [| | | right] |].
  split; [by apply wf_decimal_dec; [| | | right] |].
  split; [by vm_compute |]. split; [by vm_compute |].
  split; [by apply spaces_dec |]. by vm_compute.
Qed.


(** ** Texts the DMS pattern accepts *)

Lemma existsb_char_eq_exact ch cs :
  existsb (char_eq false ch) cs = true → ch ∈ cs.
Proof.
  intros (c & Hin & ->%char_eq_exact)%existsb_exists.
  by apply list_elem_of_In.
Qed.

Lemma lang_dms_token g hemi w :
  lang false (dms_token_re g hemi) w → ∃ x h, w = x ++ [h] ∧ h ∈ hemi.
Proof.
  unfold dms_token_re, cat. cbn [foldr]. cbn [lang].
  intros (w1 & ? & -> & _ & w2 & ? & -> & _ & w3 & ? & -> & _ & w4 & ? & -> & _
          & w5 & ? & -> & _ & w6 & ? & -> & _ & w7 & ? & -> & _ & w8 & ? & -> & _
          & w9 & ? & -> & _ & w10 & ? & -> & _ & w11 & ? & -> & _
          & w12 & ? & -> & (h & -> & Hh) & ->).
  exists (w1 ++ w2 ++ w3 ++ w4 ++ w5 ++ w6 ++ w7 ++ w8 ++ w9 ++ w10 ++ w11), h.
  split; [| by apply existsb_char_eq_exact].
  by rewrite app_nil_r, <- !(assoc_L (++)).
Qed.

Lemma dms_pattern_shape text m :
  str_match text dms_pattern = Some m →
  ∃ x h z e, text = x ++ [h] ++ z ++ [e] ∧ h ∈ lit "NS" ∧ e ∈ lit "EW".
Proof.
  unfold dms_pattern, cat. cbn [foldr]. rewrite str_match_bol.
  unfold match_at. cbn [re_body re_ignoreCase]. change (drop 0 text) with text.
  destruct (matcher false _ _) as [|st1 l] eqn:Hm; [done |]. intros _.
  assert (H : st1 ∈ st1 :: l) by by left. rewrite <- Hm in H. clear Hm.
  apply elem_of_matcher_seq in H as (s1 & [_ ->]%elem_of_matcher_bol & H).
  apply elem_of_matcher_seq in H as (s2 & (w1 & Hw1 & [Hr1 _])%matcher_sound & H).
  apply elem_of_matcher_seq in H as (s3 & (w2 & _ & [Hr2 _])%matcher_sound & H).
  apply elem_of_matcher_seq in H as (s4 & (w3 & _ & [Hr3 _])%matcher_sound & H).
  apply elem_of_matcher_seq in H as (s5 & (w4 & _ & [Hr4 _])%matcher_sound & H).
  apply elem_of_matcher_seq in H as (s6 & (w5 & Hw5 & [Hr5 _])%matcher_sound & H).
  apply elem_of_matcher_seq in H as (s7 & [Hr6 ->]%elem_of_matcher_eol & _).
  cbn [lang] in Hw1, Hw5.
  apply lang_dms_token in Hw1 as (x & h & -> & Hh).
  apply lang_dms_token in Hw5 as (y & e & -> & He).
  exists x, h, (w2 ++ w3 ++ w4 ++ y), e. split; [| done].
  simpl in Hr1. rewrite Hr1, Hr2, Hr3, Hr4, Hr5, Hr6.
  by rewrite app_nil_r, <- !(assoc_L (++)).
Qed.

(** ** DMS-like texts *)

(** The code units of a DMS token other than the hemisphere letter. *)
Definition dms_body_char (c : char) : bool :=
  is_digit c || is_space c
  || bool_decide (c ∈ [deg; chr "'"; dquote; chr "."; chr "-"]).

(** A token without its hemisphere letter: digits, marks and white space
    around a degree sign. *)
Definition dms_body (b : str) : Prop :=
  Forall (λ c, dms_body_char c = true) b ∧ deg ∈ b.

Definition separator (s : str) : Prop :=
  Forall (λ c, is_space c || (c =? chr ",")%N = true) s.

(** The hemisphere letter of a token, if it is there. *)
Definition hemisphere (h : option char) : Prop :=
  match h with Some c => c ∈ lit "NSEW" | None => True end.

Definition opt_char (h : option char) : str :=
  match h with Some c => [c] | None => [] end.

Lemma hemisphere_not_body c :
  c ∈ lit "NSEW" → dms_body_char c = false ∧ is_space c || (c =? chr ",")%N = false.
Proof.
  intros H. repeat (apply elem_of_cons in H as [-> | H]); try by vm_compute.
  by apply elem_of_nil in H.
Qed.

Lemma deg_not_decimal c :
  c = deg → num_char c = false ∧ is_space c = false ∧ c ≠ chr ",".
Proof. intros ->. by vm_compute. Qed.

Lemma dms_like_not_decimal text : deg ∈ text → str_match text decimal_pattern = None.
Proof.
  intros Hdeg. destruct (str_match _ _) as [m|] eqn:Hm; [| done].
  apply str_match_decimal_pattern in Hm as (w1 & ws & w2 & Hw1 & Hws & Hw2 & -> & _).
  destruct (deg_not_decimal deg eq_refl) as (Hn & Hs & Hc).
  apply lang_num_re_chars in Hw1 as [_ Hw1]. apply lang_num_re_chars in Hw2 as [_ Hw2].
  rewrite Forall_forall in Hw1, Hw2. unfold spaces in Hws. rewrite Forall_forall in Hws.
  change (lit ",") with [chr ","] in Hdeg.
  rewrite !elem_of_app, list_elem_of_singleton in Hdeg.
  destruct Hdeg as [H | [H | [H | H]]]; [| done | |].
  - apply Hw1 in H. congruence.
  - apply Hws in H. congruence.
  - apply Hw2 in H. congruence.
Qed.

Lemma dms_like_missing_hemisphere b1 h1 sep b2 h2 :
  dms_body b1 → dms_body b2 → hemisphere h1 → hemisphere h2 → separator sep →
  h1 = None ∨ h2 = None →
  str_match (b1 ++ opt_char h1 ++ sep ++ b2 ++ opt_char h2) dms_pattern = None.
Proof.
  intros [Hb1 Hd1] [Hb2 Hd2] Hh1 Hh2 Hsep Hnone.
  destruct (str_match _ _) as [m|] eqn:Hm; [exfalso | done].
  apply dms_pattern_shape in Hm as (x & h & z & e & Heq & Hh & He).
  assert (HhN : h ∈ lit "NSEW").
  { change (lit "NSEW") with (lit "NS" ++ lit "EW"). apply elem_of_app. by left. }
  assert (HeN : e ∈ lit "NSEW").
  { change (lit "NSEW") with (lit "NS" ++ lit "EW"). apply elem_of_app. by right. }
  apply hemisphere_not_body in HhN as [HhB HhS], HeN as [HeB HeS].
  rewrite Forall_forall in Hb1, Hb2. unfold separator in Hsep.
  rewrite Forall_forall in Hsep.
  assert (Hinner : ∀ c, c ∈ b1 ++ sep ++ b2 →
            dms_body_char c = true ∨ is_space c || (c =? chr ",")%N = true).
  { intros c. rewrite !elem_of_app. intros [H | [H | H]]; auto. }
  destruct h2 as [l|]; [destruct Hnone as [-> | ?]; [| done] |].
  - (* the first token has no letter *)
    simpl in Heq.
    replace (b1 ++ sep ++ b2 ++ [l]) with ((b1 ++ sep ++ b2) ++ [l]) in Heq
      by by rewrite <- !(assoc_L (++)).
    replace (x ++ h :: z ++ [e]) with ((x ++ h :: z) ++ [e]) in Heq
      by by rewrite <- !(assoc_L (++)).
    apply app_inj_tail in Heq as [Heq _].
    destruct (Hinner h) as [H | H]; [| congruence..].
    rewrite Heq. apply elem_of_app. right. by left.
  - (* the second token has no letter *)
    simpl in Heq. rewrite app_nil_r in Heq.
    destruct (exists_last (l:=b2)) as (b2' & c & ->);
      [intros ->; by apply elem_of_nil in Hd2 |].
    replace (b1 ++ opt_char h1 ++ sep ++ b2' ++ [c])
      with ((b1 ++ opt_char h1 ++ sep ++ b2') ++ [c]) in Heq
      by by rewrite <- !(assoc_L (++)).
    replace (x ++ h :: z ++ [e]) with ((x ++ h :: z) ++ [e]) in Heq
      by by rewrite <- !(assoc_L (++)).
    apply app_inj_tail in Heq as [_ ->].
    assert (dms_body_char e = true).
    { apply Hb2, elem_of_app. right. by left. }
    congruence.
Qed.

(** C3.  A text matched by neither pattern is not recognised:
    [parseCoordinates] returns [null].  In particular a DMS-like text --
    two token bodies (digits, marks and white space around a degree sign),
    each followed or not by a hemisphere letter, separated by white space
    and commas -- in which a token lacks its hemisphere letter is not
    recognised; no hemisphere is assumed. *)
Theorem parseCoordinates_not_recognized :
  (∀ text,
     str_match text decimal_pattern = None →
     str_match text dms_pattern = None →
     parseCoordinates text = None)
  ∧ (∀ b1 h1 sep b2 h2,
       dms_body b1 → dms_body b2 → hemisphere h1 → hemisphere h2 →
       separator sep → h1 = None ∨ h2 = None →
       parseCoordinates (b1 ++ opt_char h1 ++ sep ++ b2 ++ opt_char h2) = None).
Proof.
  split.
  - intros text H1 H2. by rewrite parseCoordinates_unfold, H1, H2.
  - intros b1 h1 sep b2 h2 Hb1 Hb2 Hh1 Hh2 Hsep Hnone.
    rewrite parseCoordinates_unfold.
    rewrite dms_like_not_decimal, dms_like_missing_hemisphere; try done.
    rewrite elem_of_app. left. apply Hb1.
Qed.

(** ** Captures of optional groups *)

Lemma elem_of_matcher_opt i r st st' :
  st' ∈ matcher i (Opt r) st ↔
  (st' ∈ matcher i r (clear (groups r) st) ∧ progress st st' = true) ∨ st' = st.
Proof.
  cbn [matcher]. rewrite elem_of_app, list_elem_of_filter, list_elem_of_singleton.
  naive_solver.
Qed.

Lemma elem_of_matcher_group i n r st st' :
  st' ∈ matcher i (Group n r) st ↔
  ∃ s1, s1 ∈ matcher i r st ∧ st' = set_group n st s1.
Proof. cbn [matcher]. rewrite list_elem_of_fmap. naive_solver. Qed.

Lemma consumes_take st w st' :
  consumes st w st' → take (pos st' - pos st) (rest st) = w.
Proof.
  intros [Hr Hk]. rewrite Hr, Hk.
  replace (pos st + length w - pos st) with (length w) by lia.
  by rewrite take_app_length.
Qed.

Lemma matcher_opt_group_plain i n r st st' :
  plain r = true → st' ∈ matcher i (Opt (Group n r)) st →
  st' = st
  ∨ ∃ w, w ≠ [] ∧ lang i r w ∧ consumes st w st'
         ∧ caps st' = <[n := Some w]> (<[n := None]> (caps st)).
Proof.
  intros Hp [[H Hprog] | ->]%elem_of_matcher_opt; [right | by left].
  cbn [groups] in H. rewrite (plain_groups r Hp) in H.
  apply matcher_group_plain in H as (w & Hw & Hc & Hcaps); [| done].
  apply consumes_clear in Hc. exists w. split; [| done].
  by apply (consumes_progress st w st').
Qed.

(** ** Marks and letters under the [i] flag *)

Lemma char_eq_mark i c ch :
  (c < 65 ∨ 122 < c)%N → char_eq i c ch = true ↔ ch = c.
Proof.
  intros Hc. unfold char_eq, to_upper. destruct i; [| rewrite N.eqb_eq; naive_solver].
  rewrite N.eqb_eq.
  destruct (N.leb_spec 97 c), (N.leb_spec c 122), (N.leb_spec 97 ch),
    (N.leb_spec ch 122); simpl; lia.
Qed.

Lemma lang_opt_mark i c w :
  (c < 65 ∨ 122 < c)%N → lang i (Opt (Char c)) w → w = [] ∨ w = [c].
Proof.
  intros Hc [-> | (ch & -> & Hch)]; [by left | right].
  apply char_eq_mark in Hch; [by subst | done].
Qed.

Lemma lang_fraction i w :
  lang i (cat [Char (chr "."); Plus Digit]) w →
  ∃ fd, w = chr "." :: fd ∧ fd ≠ [] ∧ digits fd.
Proof.
  unfold cat. cbn [foldr]. cbn [lang].
  intros (w1 & ? & -> & (ch & -> & Hch) & w2 & ? & -> & Hd & ->).
  change (lang i (Plus Digit) w2) in Hd. apply lang_plus_digit in Hd as [Hne Hd].
  apply char_eq_mark in Hch as ->; [| by vm_compute; left].
  exists w2. by rewrite app_nil_r.
Qed.

(** The hemisphere letter matched with the [i] flag, upper-cased. *)
Lemma lang_direction w :
  lang true (Alt (CharSet (lit "NS")) (CharSet (lit "EW"))) w →
  ∃ h, w = [h] ∧ to_upper h ∈ lit "NSEW".
Proof.
  cbn [lang]. intros [(h & -> & Hh) | (h & -> & Hh)]; exists h; (split; [done |]);
    apply existsb_exists in Hh as (c & Hc & Heq);
    apply list_elem_of_In in Hc; unfold char_eq in Heq; apply N.eqb_eq in Heq;
    rewrite Heq; repeat (apply elem_of_cons in Hc as [-> | Hc]);
    try (by apply elem_of_nil in Hc); apply list_elem_of_In; vm_compute;
    auto 10.
Qed.

(** ** DMS tokens *)

(** A seconds literal: digits with an optional fraction, no sign. *)
Definition sec_literal (d : decimal) : Prop :=
  wf_decimal d ∧ d_neg d = false ∧ (d_point d = true → d_frac d ≠ []).

(** A DMS token as [parseDMS] reads it: degree digits, the degree sign,
    minute digits (maybe none), an optional minute mark, a seconds literal
    (maybe none), an optional second mark, the hemisphere letter, with
    white space allowed after the degree sign, the minute mark and the
    second mark. *)
Record dms_token := DmsToken {
  t_deg : str;
  t_ws1 : str;
  t_min : str;
  t_quote : bool;
  t_ws2 : str;
  t_sec : option decimal;
  t_dquote : bool;
  t_ws3 : str;
  t_hemi : char
}.

Definition wf_dms (t : dms_token) : Prop :=
  t_deg t ≠ [] ∧ digits (t_deg t) ∧ spaces (t_ws1 t) ∧ digits (t_min t)
  ∧ spaces (t_ws2 t) ∧ (∀ d, t_sec t = Some d → sec_literal d)
  ∧ spaces (t_ws3 t) ∧ to_upper (t_hemi t) ∈ lit "NSEW".

Definition render_dms (t : dms_token) : str :=
  t_deg t ++ [deg] ++ t_ws1 t ++ t_min t
  ++ (if t_quote t then lit "'" else []) ++ t_ws2 t
  ++ from_option render [] (t_sec t)
  ++ (if t_dquote t then [dquote] else []) ++ t_ws3 t ++ [t_hemi t].

Definition south_or_west (h : char) : bool :=
  bool_decide (to_upper h = chr "S") || bool_decide (to_upper h = chr "W").

(** degrees + minutes/60 + seconds/3600, negated for S and W; a component
    that is not there counts 0. *)
Definition dms_value (t : dms_token) : Q :=
  let degrees := inject_Z (digits_val (t_deg t)) in
  let minutes := match t_min t with [] => 0%Q | m => inject_Z (digits_val m) end in
  let seconds := match t_sec t with None => 0%Q | Some d => dec_value d end in
  let dd := (degrees + minutes / 60 + seconds / 3600)%Q in
  if south_or_west (t_hemi t) then (- dd)%Q else dd.

(** [Some w] for a captured word, [None] for a group that took no part. *)
Definition opt_str (w : str) : option str :=
  match w with [] => None | _ => Some w end.

Lemma matcher_opt_group_capture i n r st st' :
  plain r = true → caps st !! n = Some None →
  st' ∈ matcher i (Opt (Group n r)) st →
  ∃ w, (w = [] ∨ lang i r w) ∧ consumes st w st'
       ∧ caps st' = <[n := opt_str w]> (caps st).
Proof.
  intros Hp Hn [-> | (w & Hne & Hw & Hc & Hcaps)]%matcher_opt_group_plain; [| | done].
  - exists []. split; [by left |]. split; [apply consumes_nil |].
    simpl. by rewrite list_insert_id.
  - exists w. split; [by right |]. split; [done |].
    rewrite Hcaps, list_insert_insert_eq. by destruct w.
Qed.

Lemma matcher_opt_seconds i st st' :
  caps st !! 3 = Some None → caps st !! 4 = Some None →
  st' ∈ matcher i
    (Opt (Group 3 (cat [Plus Digit;
                        Opt (Group 4 (cat [Char (chr "."); Plus Digit]))]))) st →
  ∃ (o : option decimal) y,
    (∀ d, o = Some d → sec_literal d)
    ∧ consumes st (from_option render [] o) st'
    ∧ caps st' = <[3 := render <$> o]> (<[4 := y]> (caps st)).
Proof.
  intros H3 H4 [[H Hprog] | ->]%elem_of_matcher_opt.
  - apply elem_of_matcher_group in H as (s1 & H & ->).
    unfold cat in H. cbn [foldr groups app] in H.
    apply elem_of_matcher_seq in H as (sI & HI & H).
    apply matcher_plain in HI as (I & [Hne HI]%lang_plus_digit & HcI & HcapsI); [| done].
    apply elem_of_matcher_seq in H as (sF & HF & ->%elem_of_matcher_empty).
    apply consumes_clear in HcI.
    apply matcher_opt_group_plain in HF as [-> | (F & HneF & HF & HcF & HcapsF)]; [| | done].
    + exists (Some (Decimal false I false [])), None. split; [| split].
      * intros d [= <-]. repeat split; simpl; try done. constructor.
      * unfold render. simpl. by rewrite app_nil_r.
      * unfold set_group. simpl. rewrite (consumes_take st I sI HcI), HcapsI.
        unfold render. simpl. rewrite app_nil_r.
        by rewrite list_insert_insert_eq.
    + apply lang_fraction in HF as (fd & -> & Hnefd & Hfd).
      pose proof (consumes_app _ _ _ _ _ HcI HcF) as Hc.
      exists (Some (Decimal false I true fd)), (Some (chr "." :: fd)).
      split; [| split].
      * intros d [= <-]. repeat split; simpl; done.
      * exact Hc.
      * unfold set_group. simpl. rewrite (consumes_take st _ sF Hc), HcapsF, HcapsI.
        simpl. rewrite list_insert_insert_eq.
        rewrite (list_insert_insert_ne _ 4 3) by done.
        by rewrite !list_insert_insert_eq.
  - exists None, None. split; [done |]. split; [apply consumes_nil |].
    simpl. rewrite (list_insert_id _ 4) by done. by rewrite list_insert_id.
Qed.

(** ** Successes of the pattern of [parseDMS] *)

Lemma dms_parts_successes k text0 st' :
  st' ∈ matcher true (re_body dms_parts_pattern) (MState k text0 (replicate 6 None)) →
  ∃ t y,
    wf_dms t ∧ text0 = render_dms t ++ rest st'
    ∧ pos st' = k + length (render_dms t)
    ∧ caps st' = [None; Some (t_deg t); opt_str (t_min t);
                  render <$> t_sec t; y; Some [t_hemi t]].
Proof.
  unfold dms_parts_pattern, cat. cbn [re_body foldr replicate]. intros H.
  apply elem_of_matcher_seq in H as (s1 & H1 & H).
  apply matcher_group_plain in H1 as (D & [HneD HD]%lang_plus_digit & C1 & K1); [| done].
  apply elem_of_matcher_seq in H as (s2 & H2 & H).
  apply matcher_plain in H2 as (? & (ch & -> & Hch) & C2 & K2); [| done].
  apply char_eq_mark in Hch as ->; [| by vm_compute; right].
  apply elem_of_matcher_seq in H as (s3 & H3 & H).
  apply matcher_plain in H3 as (ws1 & Hws1%lang_star_space & C3 & K3); [| done].
  apply elem_of_matcher_seq in H as (s4 & H4 & H).
  apply matcher_opt_group_capture in H4 as (M & HM & C4 & K4);
    [| done | by rewrite K3, K2, K1].
  apply elem_of_matcher_seq in H as (s5 & H5 & H).
  apply matcher_plain in H5 as (q1 & Hq1 & C5 & K5); [| done].
  apply lang_opt_mark in Hq1; [| by vm_compute; left].
  apply elem_of_matcher_seq in H as (s6 & H6 & H).
  apply matcher_plain in H6 as (ws2 & Hws2%lang_star_space & C6 & K6); [| done].
  apply elem_of_matcher_seq in H as (s7 & H7 & H).
  apply matcher_opt_seconds in H7 as (o & y & Ho & C7 & K7);
    [| by rewrite K6, K5, K4, K3, K2, K1 ..].
  apply elem_of_matcher_seq in H as (s8 & H8 & H).
  apply matcher_plain in H8 as (q2 & Hq2 & C8 & K8); [| done].
  apply lang_opt_mark in Hq2; [| by vm_compute; left].
  apply elem_of_matcher_seq in H as (s9 & H9 & H).
  apply matcher_plain in H9 as (ws3 & Hws3%lang_star_space & C9 & K9); [| done].
  apply elem_of_matcher_seq in H as (s10 & H10 & ->%elem_of_matcher_empty).
  apply matcher_group_plain in H10 as (? & (h & -> & Hh)%lang_direction & C10 & K10);
    [| done].
  assert (HM' : digits M).
  { destruct HM as [-> | [_ HM]%lang_plus_digit]; [constructor | done]. }
  pose proof (consumes_app _ _ _ _ _ C1 (consumes_app _ _ _ _ _ C2
    (consumes_app _ _ _ _ _ C3 (consumes_app _ _ _ _ _ C4
    (consumes_app _ _ _ _ _ C5 (consumes_app _ _ _ _ _ C6
    (consumes_app _ _ _ _ _ C7 (consumes_app _ _ _ _ _ C8
    (consumes_app _ _ _ _ _ C9 C10))))))))) as [Hr Hk].
  assert (Hcaps : caps s10 = [None; Some D; opt_str M; render <$> o; y; Some [h]]).
  { by rewrite K10, K9, K8, K7, K6, K5, K4, K3, K2, K1. }
  simpl in Hr, Hk.
  destruct Hq1 as [-> | ->], Hq2 as [-> | ->].
  - exists (DmsToken D ws1 M false ws2 o false ws3 h), y.
    split; [by split_and! |]. unfold render_dms. simpl.
    by rewrite Hr, Hk, <- !(assoc_L (++)).
  - exists (DmsToken D ws1 M false ws2 o true ws3 h), y.
    split; [by split_and! |]. unfold render_dms. simpl.
    by rewrite Hr, Hk, <- !(assoc_L (++)).
  - exists (DmsToken D ws1 M true ws2 o false ws3 h), y.
    split; [by split_and! |]. unfold render_dms. simpl.
    by rewrite Hr, Hk, <- !(assoc_L (++)).
  - exists (DmsToken D ws1 M true ws2 o true ws3 h), y.
    split; [by split_and! |]. unfold render_dms. simpl.
    by rewrite Hr, Hk, <- !(assoc_L (++)).
Qed.

Lemma search_Some re text n k m :
  search re text n k = Some m → ∃ j, match_at re text j = Some m.
Proof.
  revert k. induction n as [|n IH]; intros k; simpl;
    destruct (match_at re text k) eqn:E; try done.
  - intros [= <-]. eauto.
  - intros [= <-]. eauto.
  - apply IH.
Qed.

Lemma match_at_Some re text k m :
  match_at re text k = Some m →
  ∃ st', st' ∈ matcher (re_ignoreCase re) (re_body re)
                 (MState k (drop k text) (replicate (S (ngroups (re_body re))) None))
         ∧ m = <[0 := Some (take (pos st' - k) (drop k text))]> (caps st').
Proof.
  unfold match_at. destruct (matcher _ _ _) as [|st1 l]; [done |].
  intros [= <-]. exists st1. split; [by left | done].
Qed.

(** ** [parseInt] on a run of digits *)

Lemma parseInt_digits D :
  D ≠ [] → digits D → parseInt D = Fin (inject_Z (digits_val D)).
Proof.
  intros Hne HD. unfold parseInt.
  destruct D as [|c D]; [done |]. apply Forall_cons in HD as [Hc HD].
  destruct (digit_not_sign c Hc) as (Hm & Hp & _).
  cbn [drop_while]. rewrite (digit_not_space c Hc).
  unfold read_sign. rewrite Hm, Hp. unfold read_integer.
  assert (Hhex : match c :: D with
                 | z :: x :: tl =>
                     if (z =? chr "0")%N && ((x =? chr "x")%N || (x =? chr "X")%N)
                     then Some tl else None
                 | _ => None
                 end = None).
  { destruct D as [|x D]; [done |]. apply Forall_cons in HD as [Hx _].
    assert ((x =? chr "x")%N = false ∧ (x =? chr "X")%N = false) as [-> ->].
    { revert Hx. unfold is_digit, chr. simpl.
      rewrite andb_true_iff, !N.leb_le, !N.eqb_neq. lia. }
    by rewrite andb_false_r. }
  rewrite Hhex. rewrite take_while_all by by constructor. done.
Qed.

(** ** The value [parseDMS] computes from the captures of a token *)

Lemma dms_of_parts_token t whole y :
  wf_dms t →
  num_eq (dms_of_parts [Some whole; Some (t_deg t); opt_str (t_min t);
                        render <$> t_sec t; y; Some [t_hemi t]])
         (Fin (dms_value t)).
Proof.
  intros (HneD & HD & _ & HM & _ & HS & _ & Hh).
  unfold dms_of_parts, dms_value, group, to_string.
  cbn [lookup list_lookup from_option id].
  rewrite parseInt_digits by done.
  (* minutes *)
  assert (Hmin : (if truthy (opt_str (t_min t))
                  then parseInt (default (lit "undefined") (opt_str (t_min t)))
                  else Fin 0)
                 = Fin (match t_min t with [] => 0%Q | m => inject_Z (digits_val m) end)).
  { destruct (t_min t) as [|c M] eqn:E; [done |]. simpl.
    by rewrite parseInt_digits. }
  rewrite Hmin. clear Hmin.
  (* seconds *)
  assert (Hsec : num_eq (if truthy (render <$> t_sec t)
                  then parseFloat (default (lit "undefined") (render <$> t_sec t))
                  else Fin 0)
                 (Fin (match t_sec t with None => 0%Q | Some d => dec_value d end))).
  { destruct (t_sec t) as [d|] eqn:E; [| done]. simpl.
    destruct (HS d eq_refl) as (Hwf & _ & _).
    destruct (wf_decimal_render_chars d Hwf) as [Hne _].
    destruct (render d) eqn:Er; [done |]. rewrite <- Er.
    by apply parseFloat_render. }
  destruct (if truthy (render <$> t_sec t) then _ else _) as [|sec]; [done |].
  simpl in Hsec.
  (* direction *)
  assert (Hdir : bool_decide (toUpperCase [t_hemi t] = lit "S")
                 || bool_decide (toUpperCase [t_hemi t] = lit "W")
                 = south_or_west (t_hemi t)).
  { unfold south_or_west, toUpperCase. simpl.
    f_equal; apply bool_decide_ext; (split; [by intros [= ->] | by intros ->]). }
  rewrite Hdir. unfold ndiv, nadd. simpl Qeq_bool. cbv iota.
  destruct (south_or_west (t_hemi t)); simpl; rewrite Hsec; reflexivity.
Qed.

(** Whenever [parseDMS] returns a number, the text contains a DMS token
    -- degree digits, degree sign, optional minute digits, optional
    seconds literal, hemisphere letter -- with that value. *)
Lemma parseDMS_sound (dms : str) (v : number) :
  parseDMS dms = Some v →
  ∃ pre t post,
    dms = pre ++ render_dms t ++ post ∧ wf_dms t ∧ num_eq v (Fin (dms_value t)).
Proof.
  unfold parseDMS. destruct (str_match dms dms_parts_pattern) as [parts|] eqn:Hm; [| done].
  intros [= <-]. unfold str_match in Hm.
  apply search_Some in Hm as (j & Hm).
  apply match_at_Some in Hm as (st' & Hin & ->).
  change (replicate _ _) with (replicate 6 (@None str)) in Hin.
  apply dms_parts_successes in Hin as (t & y & Hwf & Hr & Hk & Hcaps).
  exists (take j dms), t, (rest st'). split; [| split; [done |]].
  - by rewrite <- Hr, take_drop.
  - rewrite Hcaps. cbn [insert list_insert]. by apply dms_of_parts_token.
Qed.

Lemma dms_body_dec b :
  forallb dms_body_char b = true → existsb (N.eqb deg) b = true → dms_body b.
Proof.
  intros Hb Hd. split.
  - apply Forall_forall. intros c Hc%list_elem_of_In.
    by eapply forallb_forall in Hb.
  - apply existsb_exists in Hd as (c & Hc & ->%N.eqb_eq).
    by apply list_elem_of_In.
Qed.

Lemma separator_dec sep :
  forallb (λ c, is_space c || (c =? chr ",")%N) sep = true → separator sep.
Proof.
  intros H. apply Forall_forall. intros c Hc%list_elem_of_In.
  by eapply forallb_forall in H.
Qed.

(** A DMS pair whose first token has no hemisphere letter. *)
Definition body_30_21_20 : str := lit "30" ++ [deg] ++ lit "21'20" ++ [dquote].
Definition body_120_1_26 : str := lit "120" ++ [deg] ++ lit "1'26.5" ++ [dquote].

Lemma parseCoordinates_not_recognized_witness :
  parseCoordinates (lit "not a coordinate") = None
  ∧ parseCoordinates (body_30_21_20 ++ opt_char None ++ lit ", "
                      ++ body_120_1_26 ++ opt_char (Some (chr "E"))) = None.
Proof.
  destruct parseCoordinates_not_recognized as [H1 H2]. split.
  - apply H1; by vm_compute.
  - apply H2.
    + by apply dms_body_dec.
    + by apply dms_body_dec.
    + done.
    + apply list_elem_of_In. vm_compute. auto 10.
    + by apply separator_dec.
    + by left.
Defined.




(** * Measurement and the draw tools *)

(** ** Leaflet objects *)

Record LatLng := L_latLng { ll_lat : number; ll_lng : number }.

Record LatLngBounds := L_latLngBounds { getSouthWest : LatLng; getNorthEast : LatLng }.

(** The two geometry routines of Leaflet the component calls:
    [LatLng.distanceTo] and [L.GeometryUtil.geodesicArea]. *)
Class LeafletGeometry := {
  distanceTo : LatLng → LatLng → number;
  geodesicArea : list LatLng → number
}.

(** The layers the draw tool creates.  A polygon always has its outer ring,
    [getLatLngs()[0]]; a rectangle is given by its bounds. *)
Inductive layer :=
| Polyline (latlngs : list LatLng)
| Polygon (ring : list LatLng) (holes : list (list LatLng))
| Circle (center : LatLng) (radius : number)
| Marker (latlng : LatLng)
| Rectangle (bounds : LatLngBounds).

(** [event.layerType] as Leaflet.draw sets it for a layer it created. *)
Definition type_of (l : layer) : string :=
  match l with
  | Polyline _ => "polyline"
  | Polygon _ _ => "polygon"
  | Circle _ _ => "circle"
  | Marker _ => "marker"
  | Rectangle _ => "rectangle"
  end.

(** Errors.  [TypeError] is the JavaScript error of a call on a layer of
    the wrong class (where Leaflet would carry on with a malformed
    argument instead, the model stops with [TypeError] as well; the draw
    tool creates no such event).  [InvalidShape] and [ShapeKindDisabled]
    are the conditions the specification names; nothing below raises
    them. *)
Inductive error := TypeError | InvalidShape | ShapeKindDisabled.

Inductive outcome (A : Type) :=
| Returns (a : A)
| Throws (e : error).
Arguments Returns {A} a.
Arguments Throws {A} e.

(** [Math.PI], the binary64 number nearest to pi. *)
Definition Math_PI : number := Fin (884279719003555 # 281474976710656).

(** ** [calculateDistance] *)

(** The [for] loop of [calculateDistance], from index [i] with the running
    total [distance]; [fuel] bounds the number of rounds. *)
Fixpoint calculateDistance_loop `{LeafletGeometry} (latlngs : list LatLng)
    (fuel i : nat) (distance : number) : outcome number :=
  match fuel with
  | O => Returns distance
  | S fuel' =>
      if decide (i < length latlngs) then
        match latlngs !! (i - 1), latlngs !! i with
        | Some a, Some b =>
            calculateDistance_loop latlngs fuel' (S i)
              (nadd distance (distanceTo a b))
        | _, _ => Throws TypeError
        end
      else Returns distance
  end.

Definition calculateDistance `{LeafletGeometry} (l : layer) : outcome number :=
  match l with
  | Polyline latlngs =>
      calculateDistance_loop latlngs (length latlngs) 1 (Fin 0)
  | _ => Throws TypeError
  end.

(** ** [calculateArea] *)

Definition calculatePolygonArea `{LeafletGeometry} (l : layer) : outcome number :=
  match l with
  | Polygon latlngs _ => Returns (geodesicArea latlngs)
  | _ => Throws TypeError
  end.

Definition calculateCircleArea (circle : layer) : outcome number :=
  match circle with
  | Circle _ radius => Returns (nmul (nmul Math_PI radius) radius)
  | _ => Throws TypeError
  end.

Definition calculateRectangleArea `{LeafletGeometry} (rectangle : layer)
    : outcome number :=
  match rectangle with
  | Rectangle bounds =>
      let northEast := getNorthEast bounds in
      let southWest := getSouthWest bounds in
      Returns (geodesicArea
                 [northEast;
                  L_latLng (ll_lat northEast) (ll_lng southWest);
                  southWest;
                  L_latLng (ll_lat southWest) (ll_lng northEast)])
  | _ => Throws TypeError
  end.

Definition calculateArea `{LeafletGeometry} (l : layer) (layerType : string)
    : outcome number :=
  if String.eqb layerType "polygon" then calculatePolygonArea l
  else if String.eqb layerType "circle" then calculateCircleArea l
  else if String.eqb layerType "rectangle" then calculateRectangleArea l
  else Returns (Fin 0).

(** ** Component properties and draw options *)

Record Props := { enableDraw : bool; enableMeasure : bool }.

(** The option objects handed to [L.Control.Draw], by name; their
    contents (colours, [showLength], [metric], ...) play no part in which
    tools exist. *)
Inductive tool_options :=
| polyline_options | polygon_options | circle_options | rectangle_options
| default_options.

(** A draw tool is off ([false]) or on with options. *)
Inductive tool := Off | On (o : tool_options).

Record DrawOptions := {
  draw_polyline : tool;
  draw_polygon : tool;
  draw_circle : tool;
  draw_marker : tool;
  draw_circlemarker : tool;
  draw_rectangle : tool
}.

Definition drawOptions (props : Props) : DrawOptions :=
  {| draw_polyline := if enableMeasure props then On polyline_options else Off;
     draw_polygon := if enableMeasure props then On polygon_options else Off;
     draw_circle := if enableDraw props then On circle_options else Off;
     draw_marker := if enableDraw props then On default_options else Off;
     draw_circlemarker := Off;
     draw_rectangle := if enableDraw props then On rectangle_options else Off |}.

Definition is_on (t : tool) : bool := match t with On _ => true | Off => false end.

(** The tool of a shape kind in the options, [None] for an unknown kind. *)
Definition tool_of (o : DrawOptions) (kind : string) : option tool :=
  if String.eqb kind "polyline" then Some (draw_polyline o)
  else if String.eqb kind "polygon" then Some (draw_polygon o)
  else if String.eqb kind "circle" then Some (draw_circle o)
  else if String.eqb kind "marker" then Some (draw_marker o)
  else if String.eqb kind "circlemarker" then Some (draw_circlemarker o)
  else if String.eqb kind "rectangle" then Some (draw_rectangle o)
  else None.

(** ** The map and its layers *)

(** The text of a measurement popup: a distance in metres or an area in
    square metres (the formatting with [toFixed(2)] is left out). *)
Inductive measurement :=
| Distance (meters : number)
| Area (squareMeters : number).

(** A layer object: its geometry and its [_popup] field ([None] is no
    popup bound). *)
Record layer_object := LayerObject {
  geometry : layer;
  _popup : option measurement
}.

(** Calls into Leaflet made by the handlers, in order. *)
Inductive call :=
| AddLayer (id : nat)
| BindPopup (id : nat)
| OpenPopup (id : nat)
| PopupClose (id : nat)
| PopupRemove (id : nat)
| MapRemoveLayer (id : nat)
| LayerOff (id : nat).

(** The state the handlers act on: the layer objects by their Leaflet id,
    the feature group [drawnItems], the layers on the map, the popup open
    on the map (by the id of its layer), the next fresh id and the calls
    made so far. *)
Record map_state := MapState {
  objects : gmap nat layer_object;
  drawnItems : gset nat;
  on_map : gset nat;
  open_popup : option nat;
  next_id : nat;
  calls : list call
}.

Definition initial_state : map_state := MapState ∅ ∅ ∅ None 0 [].

(** A [created] event of the draw tool. *)
Record draw_event := DrawEvent { ev_layer : layer; ev_layerType : string }.

(** Events as Leaflet.draw fires them. *)
Definition well_typed (e : draw_event) : Prop :=
  ev_layerType e = type_of (ev_layer e).

(** *** State and exceptions *)

Definition action (A : Type) : Type := map_state → outcome A * map_state.

Definition ret {A} (a : A) : action A := λ st, (Returns a, st).

Definition bind {A B} (m : action A) (k : A → action B) : action B :=
  λ st, match m st with
        | (Returns a, st') => k a st'
        | (Throws e, st') => (Throws e, st')
        end.

Definition lift {A} (o : outcome A) : action A := λ st, (o, st).

Notation "'let*' x ':=' m 'in' k" := (bind m (λ x, k))
  (at level 10, x name, m at level 100, k at level 200).
Notation "m '>>>' k" := (bind m (λ _, k))
  (at level 90, right associativity).

(** [drawnItems.addLayer(layer)]: the layer gets its id, joins the group
    and, the group being on the map, the map. *)
Definition drawnItems_addLayer (l : layer) : action nat :=
  λ st,
    let id := next_id st in
    (Returns id,
     MapState (<[id := LayerObject l None]> (objects st))
              ({[id]} ∪ drawnItems st) ({[id]} ∪ on_map st)
              (open_popup st) (S id) (calls st ++ [AddLayer id])).

(** [layer.bindPopup(text)]: the layer's single [_popup] field is set. *)
Definition bindPopup (id : nat) (text : measurement) : action unit :=
  λ st,
    (Returns (),
     MapState (alter (λ o, LayerObject (geometry o) (Some text)) id (objects st))
              (drawnItems st) (on_map st) (open_popup st) (next_id st)
              (calls st ++ [BindPopup id])).

(** [layer.openPopup()]: the map shows this popup (and closes the one it
    showed before). *)
Definition openPopup (id : nat) : action unit :=
  λ st,
    (Returns (),
     MapState (objects st) (drawnItems st) (on_map st)
              (match objects st !! id with
               | Some (LayerObject _ (Some _)) => Some id
               | _ => open_popup st
               end)
              (next_id st) (calls st ++ [OpenPopup id])).

(** [popup.close()] and [popup.remove()]: the popup leaves the map. *)
Definition popup_leave (c : call) (id : nat) : action unit :=
  λ st,
    (Returns (),
     MapState (objects st) (drawnItems st) (on_map st)
              (if decide (open_popup st = Some id) then None else open_popup st)
              (next_id st) (calls st ++ [c])).

Definition popup_close (id : nat) : action unit := popup_leave (PopupClose id) id.
Definition popup_remove (id : nat) : action unit := popup_leave (PopupRemove id) id.

(** [layer._popup = null]. *)
Definition popup_null (id : nat) : action unit :=
  λ st,
    (Returns (),
     MapState (alter (λ o, LayerObject (geometry o) None) id (objects st))
              (drawnItems st) (on_map st) (open_popup st) (next_id st)
              (calls st)).

(** [map.removeLayer(layer)]. *)
Definition map_removeLayer (id : nat) : action unit :=
  λ st,
    (Returns (),
     MapState (objects st) (drawnItems st) (on_map st ∖ {[id]})
              (open_popup st) (next_id st) (calls st ++ [MapRemoveLayer id])).

(** [layer.off()]. *)
Definition layer_off (id : nat) : action unit :=
  λ st,
    (Returns (),
     MapState (objects st) (drawnItems st) (on_map st) (open_popup st)
              (next_id st) (calls st ++ [LayerOff id])).

Definition get {A} (f : map_state → A) : action A := λ st, (Returns (f st), st).

(** The result of running an action from a state, and the state it
    leaves. *)
Definition result_of {A} (m : action A) (st : map_state) : outcome A := (m st).1.
Definition state_after {A} (m : action A) (st : map_state) : map_state := (m st).2.

(** ** The handlers of [initDrawTools] *)

(** The text computed inside the [CREATED] handler: [None] is the empty
    string the variable [measurementText] starts with. *)
Definition measurement_text `{LeafletGeometry} (layer : layer) (layerType : string)
    : outcome (option measurement) :=
  if String.eqb layerType "polyline" then
    match calculateDistance layer with
    | Returns distance => Returns (Some (Distance distance))
    | Throws e => Throws e
    end
  else if String.eqb layerType "polygon" || String.eqb layerType "rectangle" then
    match calculateArea layer layerType with
    | Returns area => Returns (Some (Area area))
    | Throws e => Throws e
    end
  else if String.eqb layerType "circle" then
    match calculateArea layer layerType with
    | Returns area => Returns (Some (Area area))
    | Throws e => Throws e
    end
  else Returns None.

(** The handler of [L.Draw.Event.CREATED]. *)
Definition on_created `{LeafletGeometry} (props : Props) (event : draw_event)
    : action unit :=
  let layer := ev_layer event in
  let layerType := ev_layerType event in
  let* id := drawnItems_addLayer layer in
  if enableMeasure props || String.eqb layerType "circle"
     || String.eqb layerType "rectangle"
  then
    let* measurementText := lift (measurement_text layer layerType) in
    match measurementText with
    | Some text => bindPopup id text >>> openPopup id
    | None => ret ()
    end
  else ret ().

(** The handler of [layerremove] on [drawnItems]. *)
Definition on_layerremove (id : nat) : action unit :=
  let* popup := get (λ st, (objects st !! id) ≫= _popup) in
  (match popup with
   | Some _ => popup_close id >>> popup_remove id >>> popup_null id
   | None => ret ()
   end) >>>
  let* shown := get (λ st, bool_decide (id ∈ on_map st)) in
  (if shown then map_removeLayer id else ret ()) >>>
  layer_off id.

(** [drawnItems.removeLayer(layer)], as the delete tool calls it: the layer
    leaves the group and the map the group is on, then [layerremove] is
    fired. *)
Definition drawnItems_removeLayer (id : nat) : action unit :=
  λ st,
    if decide (id ∈ drawnItems st) then
      on_layerremove id
        (MapState (objects st) (drawnItems st ∖ {[id]}) (on_map st ∖ {[id]})
                  (open_popup st) (next_id st) (calls st))
    else (Returns (), st).

(** [initDrawTools]: nothing is set up when both properties are off;
    otherwise the draw control gets [drawOptions] and the handlers are
    registered. *)
Definition initDrawTools (props : Props) : option DrawOptions :=
  if negb (enableDraw props) && negb (enableMeasure props) then None
  else Some (drawOptions props).

(** The map fires [created]: the handler runs if [initDrawTools] registered
    it. *)
Definition fire_created `{LeafletGeometry} (props : Props) (event : draw_event)
    : action unit :=
  match initDrawTools props with
  | Some _ => on_created props event
  | None => ret ()
  end.

(** ** Specification-side definitions for measurement *)

(** The distances between consecutive points, in point order. *)
Definition consecutive_distances `{LeafletGeometry} (pts : list LatLng)
    : list number :=
  zip_with distanceTo pts (drop 1 pts).

(** Their sum, accumulated from 0 in point order. *)
Definition path_length `{LeafletGeometry} (pts : list LatLng) : number :=
  foldl nadd (Fin 0) (consecutive_distances pts).

(** [m] is half way between [p1] and [p3] for the distance of Leaflet:
    it lies at half their distance from each. *)
Definition midpoint `{LeafletGeometry} (m p1 p3 : LatLng) : Prop :=
  num_eq (distanceTo p1 m) (ndiv (distanceTo p1 p3) (Fin 2))
  ∧ num_eq (distanceTo m p3) (ndiv (distanceTo p1 p3) (Fin 2)).

(** The four-point ring of a rectangle, in the words of the
    specification: the two corners and the two corners that mix their
    latitude and longitude. *)
Definition rectangle_ring (b : LatLngBounds) : list LatLng :=
  [getNorthEast b;
   L_latLng (ll_lat (getNorthEast b)) (ll_lng (getSouthWest b));
   getSouthWest b;
   L_latLng (ll_lat (getSouthWest b)) (ll_lng (getNorthEast b))].

(** Rectangle measurement as the specification words it: the polygon
    measurement of the derived quadrilateral. *)
Definition spec_rectangle_area `{LeafletGeometry} (b : LatLngBounds)
    : outcome number :=
  calculateArea (Polygon (rectangle_ring b) []) "polygon".

(** The created events that get a measurement popup. *)
Definition measured (props : Props) (layerType : string) : bool :=
  String.eqb layerType "circle" || String.eqb layerType "rectangle"
  || (enableMeasure props
      && (String.eqb layerType "polyline" || String.eqb layerType "polygon")).

(** A planar stand-in for Leaflet's geometry, to run the handlers on
    examples: taxicab distance and shoelace area in degrees. *)
Definition planar_distance (a b : LatLng) : number :=
  match ll_lat a, ll_lng a, ll_lat b, ll_lng b with
  | Fin x1, Fin y1, Fin x2, Fin y2 => Fin (Qabs (x2 - x1) + Qabs (y2 - y1))
  | _, _, _, _ => NaN
  end.

Definition cross (a b : LatLng) : number :=
  match ll_lat a, ll_lng a, ll_lat b, ll_lng b with
  | Fin x1, Fin y1, Fin x2, Fin y2 => Fin (x1 * y2 - x2 * y1)
  | _, _, _, _ => NaN
  end.

Definition planar_area (ring : list LatLng) : number :=
  match foldl nadd (Fin 0) (zip_with cross ring (drop 1 ring ++ take 1 ring)) with
  | Fin s => Fin (Qabs s / 2)
  | NaN => NaN
  end.

Definition planar_geometry : LeafletGeometry :=
  {| distanceTo := planar_distance; geodesicArea := planar_area |}.

Definition point (x y : Q) : LatLng := L_latLng (Fin x) (Fin y).

(** ** [calculateDistance] sums the consecutive distances *)

Lemma calculateDistance_loop_sum `{LeafletGeometry} (pts : list LatLng) :
  ∀ fuel i acc, 1 ≤ i → length pts ≤ fuel + i →
    calculateDistance_loop pts fuel i acc
    = Returns (foldl nadd acc (zip_with distanceTo (drop (i - 1) pts) (drop i pts))).
Proof.
  induction fuel as [|fuel IH]; intros i acc Hi Hfuel; simpl.
  - rewrite (drop_ge pts i) by lia. by rewrite zip_with_nil_r.
  - case_decide as Hlt.
    + destruct (lookup_lt_is_Some_2 pts (i - 1)) as [a Ha]; [lia |].
      destruct (lookup_lt_is_Some_2 pts i) as [b Hb]; [lia |].
      rewrite Ha, Hb, IH by lia.
      rewrite (drop_S pts a (i - 1)) by done.
      replace (S (i - 1)) with i by lia.
      rewrite (drop_S pts b i) at 2 by done. simpl.
      by replace (i - 0) with i by lia.
    + rewrite (drop_ge pts i) by lia. by rewrite zip_with_nil_r.
Qed.

Lemma calculateDistance_path_length `{LeafletGeometry} (pts : list LatLng) :
  calculateDistance (Polyline pts) = Returns (path_length pts).
Proof.
  unfold calculateDistance, path_length, consecutive_distances.
  rewrite calculateDistance_loop_sum by lia. done.
Qed.

(** C4.  For a polyline of n >= 2 points [calculateDistance] returns the
    sum of the distances between consecutive points, accumulated from 0 in
    point order.  Consequently, for three points whose middle one is half
    way between the ends (at half their distance from each), the measured
    distance is the distance between the ends. *)
Theorem calculateDistance_sum `{LeafletGeometry} :
  (∀ pts, 2 ≤ length pts →
     calculateDistance (Polyline pts) = Returns (path_length pts))
  ∧ (∀ p1 m p3, midpoint m p1 p3 →
       ∃ v, calculateDistance (Polyline [p1; m; p3]) = Returns v
            ∧ num_eq v (distanceTo p1 p3)).
Proof.
  split.
  - intros pts _. apply calculateDistance_path_length.
  - intros p1 m p3 [H1 H2]. rewrite calculateDistance_path_length.
    eexists. split; [done |].
    unfold path_length, consecutive_distances. simpl.
    destruct (distanceTo p1 p3) as [|c]; simpl in *.
    + destruct (distanceTo p1 m); [| done]. done.
    + destruct (distanceTo p1 m) as [|a]; [done |].
      destruct (distanceTo m p3) as [|b]; [done |].
      simpl in *. rewrite H1, H2. field.
Qed.

Lemma calculateDistance_sum_witness :
  @calculateDistance planar_geometry
    (Polyline [point 0 0; point 1 1; point 2 2; point 2 5])
  = Returns (@path_length planar_geometry [point 0 0; point 1 1; point 2 2; point 2 5])
  ∧ ∃ v, @calculateDistance planar_geometry
           (Polyline [point 0 0; point 1 1; point 2 2]) = Returns v
         ∧ num_eq v (@distanceTo planar_geometry (point 0 0) (point 2 2)).
Proof.
  destruct (@calculateDistance_sum planar_geometry) as [H1 H2]. split.
  - apply H1. simpl. lia.
  - apply H2. by vm_compute.
Defined.

(** C5.  The area measured for a rectangle is the result of the polygon
    algorithm ([geodesicArea] through [calculatePolygonArea]) on the
    four-point ring made of its north-east corner, the corner with the
    north-east latitude and the south-west longitude, its south-west
    corner, and the corner with the south-west latitude and the north-east
    longitude. *)
Theorem calculateRectangleArea_refines_polygon `{LeafletGeometry}
    (b : LatLngBounds) :
  calculateArea (Rectangle b) "rectangle" = spec_rectangle_area b
  ∧ calculateRectangleArea (Rectangle b) = Returns (geodesicArea (rectangle_ring b))
  ∧ ∀ holes, calculatePolygonArea (Polygon (rectangle_ring b) holes)
             = calculateRectangleArea (Rectangle b).
Proof. done. Qed.

(** C6 (as amended).  The measurement functions do not validate the
    number of points and raise no [InvalidShape]: for a polyline with
    fewer than 2 points the measured distance is 0, and for a polygon with
    any number of points, fewer than 3 included, the measured area is what
    [geodesicArea] returns for its outer ring. *)
Theorem measurement_without_validation `{LeafletGeometry} :
  (∀ pts, length pts < 2 → calculateDistance (Polyline pts) = Returns (Fin 0))
  ∧ (∀ ring holes,
       calculateArea (Polygon ring holes) "polygon" = Returns (geodesicArea ring)).
Proof.
  split; [| done]. intros pts Hlen. rewrite calculateDistance_path_length.
  destruct pts as [|p [|q pts]]; [done | done | simpl in Hlen; lia].
Qed.

Lemma measurement_without_validation_witness :
  @calculateDistance planar_geometry (Polyline [point 30 120]) = Returns (Fin 0).
Proof.
  destruct (@measurement_without_validation planar_geometry) as [H _].
  apply H. simpl. lia.
Defined.

(** C6, counterexample: a polyline of one point, and a polygon of two,
    are measured without an error. *)
Lemma degenerate_shapes_measured :
  length [point 30 120] < 2
  ∧ @calculateDistance planar_geometry (Polyline [point 30 120]) = Returns (Fin 0)
  ∧ @calculateDistance planar_geometry (Polyline [point 30 120]) ≠ Throws InvalidShape
  ∧ length [point 0 0; point 1 1] < 3
  ∧ @calculateArea planar_geometry (Polygon [point 0 0; point 1 1] []) "polygon"
    = Returns (planar_area [point 0 0; point 1 1])
  ∧ @calculateArea planar_geometry (Polygon [point 0 0; point 1 1] []) "polygon"
    ≠ Throws InvalidShape.
Proof.
  split; [simpl; lia |]. split; [done |]. split; [done |].
  split; [simpl; lia |]. split; done.
Qed.

(** ** The [created] handler *)

Lemma measurement_text_error `{LeafletGeometry} l layerType e :
  measurement_text l layerType = Throws e → e = TypeError.
Proof.
  unfold measurement_text, calculateArea, calculateDistance, calculatePolygonArea,
    calculateCircleArea, calculateRectangleArea.
  destruct l; repeat case_match; intros; simplify_eq; try done.
  all: match goal with
       | E : calculateDistance_loop _ _ _ _ = Throws _ |- _ =>
           rewrite calculateDistance_loop_sum in E by lia; done
       end.
Qed.

Lemma on_created_adds `{LeafletGeometry} props event st :
  next_id st ∈ drawnItems (state_after (on_created props event) st)
  ∧ (result_of (on_created props event) st) ≠ Throws ShapeKindDisabled
  ∧ (result_of (on_created props event) st) ≠ Throws InvalidShape.
Proof.
  unfold result_of, state_after, on_created, bind, lift, ret, drawnItems_addLayer,
    bindPopup, openPopup.
  simpl.
  destruct (enableMeasure props || _ || _); [| simpl; split; [set_solver | done]].
  destruct (measurement_text _ _) as [[text|]|e] eqn:E; simpl;
    (split; [set_solver |]); try done.
  apply measurement_text_error in E as ->. done.
Qed.

Lemma measurement_text_well_typed `{LeafletGeometry} l :
  ∃ mt, measurement_text l (type_of l) = Returns mt
        ∧ (is_Some mt ↔ type_of l ≠ "marker").
Proof.
  destruct l as [pts | ring holes | c r | p | b].
  - exists (Some (Distance (path_length pts))). unfold measurement_text.
    simpl. rewrite calculateDistance_loop_sum by lia. split; [done |].
    split; [done | by eexists].
  - exists (Some (Area (geodesicArea ring))). split; [done |].
    split; [done | by eexists].
  - exists (Some (Area (nmul (nmul Math_PI r) r))). split; [done |].
    split; [done | by eexists].
  - exists None. split; [done |].
    split; [by intros [? ?] | by intros []].
  - exists (Some (Area (geodesicArea (rectangle_ring b)))). split; [done |].
    split; [done | by eexists].
Qed.

(** C7 (as amended).  At the [created] event of a layer the handler puts
    the layer into [drawnItems] and attaches a measurement popup exactly
    when the layer is a circle or a rectangle, or [enableMeasure] is set
    and the layer is a polyline or a polygon; a marker never gets one, and
    a circle or rectangle gets one also when [enableMeasure] is off.  The
    popup holds the text computed from the layer; the [_popup] field holds
    at most one popup, and no other layer is touched. *)
Theorem on_created_measurement `{LeafletGeometry} props event st :
  well_typed event →
  ∃ mt,
    (result_of (on_created props event) st) = Returns ()
    ∧ next_id st ∈ drawnItems (state_after (on_created props event) st)
    ∧ objects (state_after (on_created props event) st) !! next_id st
      = Some (LayerObject (ev_layer event) mt)
    ∧ (is_Some mt ↔ measured props (ev_layerType event) = true)
    ∧ (is_Some mt →
       measurement_text (ev_layer event) (ev_layerType event) = Returns mt)
    ∧ (∀ j, j ≠ next_id st →
       objects (state_after (on_created props event) st) !! j = objects st !! j).
Proof.
  destruct event as [l ty]. unfold well_typed. simpl. intros ->.
  destruct (measurement_text_well_typed l) as (mt & Hmt & Hsome).
  unfold result_of, state_after, on_created, bind, lift, ret, drawnItems_addLayer,
    bindPopup, openPopup, measured.
  cbn [ev_layer ev_layerType].
  exists (if enableMeasure props || String.eqb (type_of l) "circle"
             || String.eqb (type_of l) "rectangle" then mt else None).
  rewrite Hmt. clear Hmt.
  assert (Hmarker : mt = None → type_of l = "marker").
  { intros ->. destruct (decide (type_of l = "marker")) as [|Hne]; [done |].
    apply Hsome in Hne. by destruct Hne. }
  destruct (enableMeasure props);
    destruct l; simpl in *;
    (destruct mt as [text|];
     [| try (by specialize (Hmarker eq_refl))]); simpl.
  all: try (destruct Hsome as [Hs _]; by specialize (Hs ltac:(by eexists))).
  all: split_and!; try done; try set_solver;
    try (by simplify_map_eq); try (by intros [? ?]);
    try (intros j Hj; by simplify_map_eq);
    try (split; [done | by eexists]);
    try (split; [by intros [? ?] | done]).
Qed.

Definition props_draw_only : Props := {| enableDraw := true; enableMeasure := false |}.
Definition props_all : Props := {| enableDraw := true; enableMeasure := true |}.
Definition props_none : Props := {| enableDraw := false; enableMeasure := false |}.

Definition circle_event : draw_event :=
  DrawEvent (Circle (point 0 0) (Fin 1000)) "circle".
Definition marker_event : draw_event := DrawEvent (Marker (point 0 0)) "marker".
Definition triangle_event : draw_event :=
  DrawEvent (Polygon [point 0 0; point 0 1; point 1 0] []) "polygon".
Definition rectangle_event : draw_event :=
  DrawEvent (Rectangle (L_latLngBounds (point 0 0) (point 1 1))) "rectangle".

Lemma on_created_measurement_witness :
  ∃ mt,
    (result_of (@on_created planar_geometry props_all rectangle_event) initial_state) = Returns ()
    ∧ 0 ∈ drawnItems (state_after (@on_created planar_geometry props_all rectangle_event) initial_state)
    ∧ objects (state_after (@on_created planar_geometry props_all rectangle_event) initial_state) !! 0
      = Some (LayerObject (ev_layer rectangle_event) mt)
    ∧ (is_Some mt ↔ measured props_all "rectangle" = true)
    ∧ (is_Some mt →
       @measurement_text planar_geometry (ev_layer rectangle_event) "rectangle"
       = Returns mt)
    ∧ (∀ j, j ≠ 0 →
       objects (state_after (@on_created planar_geometry props_all rectangle_event) initial_state) !! j
       = objects initial_state !! j).
Proof.
  apply (@on_created_measurement planar_geometry props_all rectangle_event initial_state).
  reflexivity.
Defined.

(** C7, counterexample: with [enableMeasure] off a created circle still
    gets its measurement popup, and with [enableMeasure] on a created
    marker gets none. *)
Lemma measurement_not_tied_to_measure_mode :
  enableMeasure props_draw_only = false
  ∧ well_typed circle_event
  ∧ is_Some (objects (state_after (@on_created planar_geometry props_draw_only circle_event) initial_state) !! 0 ≫= _popup)
  ∧ enableMeasure props_all = true
  ∧ well_typed marker_event
  ∧ (objects (state_after (@on_created planar_geometry props_all marker_event) initial_state) !! 0
     ≫= _popup) = None.
Proof.
  split; [done |]. split; [done |]. split; [by eexists |]. done.
Qed.

(** ** Removal *)

(** The popup the map shows belongs to a layer that has it bound. *)
Definition popup_invariant (st : map_state) : Prop :=
  ∀ id, open_popup st = Some id → is_Some (objects st !! id ≫= _popup).

Lemma popup_invariant_initial : popup_invariant initial_state.
Proof. by intros id. Qed.

Lemma popup_invariant_created `{LeafletGeometry} props event st :
  (∀ id, is_Some (objects st !! id) → id < next_id st) →
  popup_invariant st → popup_invariant (state_after (on_created props event) st).
Proof.
  intros Hfresh Hinv. unfold state_after, on_created, bind, lift, ret,
    drawnItems_addLayer, bindPopup, openPopup. simpl.
  assert (Hold : ∀ id, open_popup st = Some id → id ≠ next_id st).
  { intros id Hid ->. apply Hinv in Hid as [m Hm].
    destruct (objects st !! next_id st) eqn:E; [| done].
    specialize (Hfresh (next_id st) ltac:(by eexists)). lia. }
  destruct (enableMeasure props || _ || _);
    [destruct (measurement_text _ _) as [[text|]|e] |]; simpl; intros id; simpl.
  - rewrite lookup_alter_eq, lookup_insert_eq. simpl. intros [= <-].
    rewrite lookup_alter_eq, lookup_insert_eq. by eexists.
  - intros Hid. specialize (Hold id Hid). apply Hinv in Hid.
    by rewrite lookup_insert_ne.
  - intros Hid. specialize (Hold id Hid). apply Hinv in Hid.
    by rewrite lookup_insert_ne.
  - intros Hid. specialize (Hold id Hid). apply Hinv in Hid.
    by rewrite lookup_insert_ne.
Qed.

Lemma on_layerremove_spec id st :
  popup_invariant st →
  (result_of (on_layerremove id) st) = Returns ()
  ∧ (objects (state_after (on_layerremove id) st) !! id ≫= _popup) = None
  ∧ (id ∉ on_map (state_after (on_layerremove id) st))
  ∧ open_popup (state_after (on_layerremove id) st) ≠ Some id
  ∧ drawnItems (state_after (on_layerremove id) st) = drawnItems st
  ∧ calls (state_after (on_layerremove id) st)
    = calls st
      ++ match (objects st !! id) ≫= _popup with
         | Some _ => [PopupClose id; PopupRemove id]
         | None => []
         end
      ++ (if bool_decide (id ∈ on_map st) then [MapRemoveLayer id] else [])
      ++ [LayerOff id]
  ∧ (∀ j, j ≠ id → objects (state_after (on_layerremove id) st) !! j = objects st !! j)
  ∧ popup_invariant (state_after (on_layerremove id) st).
Proof.
  intros Hinv. unfold result_of, state_after, on_layerremove, bind, get, ret,
    popup_close, popup_remove,
    popup_leave, popup_null, map_removeLayer, layer_off. simpl.
  destruct (objects st !! id ≫= _popup) as [m|] eqn:Hp; simpl.
  - assert (Hnull : alter (λ o, LayerObject (geometry o) None) id (objects st) !! id
                    ≫= _popup = None).
    { rewrite lookup_alter_eq. by destruct (objects st !! id). }
    assert (Hopen : (if decide ((if decide (open_popup st = Some id) then None
                                 else open_popup st) = Some id)
                     then None
                     else if decide (open_popup st = Some id) then None
                          else open_popup st) ≠ Some id).
    { repeat case_decide; congruence. }
    assert (Hinv' : ∀ j,
              (if decide ((if decide (open_popup st = Some id) then None
                           else open_popup st) = Some id)
               then None
               else if decide (open_popup st = Some id) then None
                    else open_popup st) = Some j →
              is_Some (alter (λ o, LayerObject (geometry o) None) id (objects st) !! j
                       ≫= _popup)).
    { intros j Hj. assert (j ≠ id) by (intros ->; by apply Hopen).
      rewrite lookup_alter_ne by done. apply Hinv.
      repeat case_decide; congruence. }
    case_bool_decide; simpl; split_and!; try done.
    + set_solver.
    + by rewrite <- !(assoc_L (++)).
    + intros j Hj. by rewrite lookup_alter_ne.
    + by rewrite <- !(assoc_L (++)).
    + intros j Hj. by rewrite lookup_alter_ne.
  - assert (Hopen : open_popup st ≠ Some id).
    { intros Ho. apply Hinv in Ho as [? Ho]. congruence. }
    case_bool_decide; simpl; split_and!; try done.
    + set_solver.
    + by rewrite <- !(assoc_L (++)).
Qed.

(** C8.  Removing a layer from [drawnItems] runs to completion and leaves
    nothing of it: the layer is out of the group and off the map, its
    [_popup] field is [null] and the map no longer shows its popup.  A
    bound popup is closed and removed explicitly, before the handler
    finishes with [layer.off()]; the other layers are untouched. *)
Theorem removeLayer_removes_measurement id st :
  popup_invariant st → id ∈ drawnItems st →
  (result_of (drawnItems_removeLayer id) st) = Returns ()
  ∧ (id ∉ drawnItems (state_after (drawnItems_removeLayer id) st))
  ∧ (id ∉ on_map (state_after (drawnItems_removeLayer id) st))
  ∧ (objects (state_after (drawnItems_removeLayer id) st) !! id ≫= _popup) = None
  ∧ open_popup (state_after (drawnItems_removeLayer id) st) ≠ Some id
  ∧ calls (state_after (drawnItems_removeLayer id) st)
    = calls st
      ++ match (objects st !! id) ≫= _popup with
         | Some _ => [PopupClose id; PopupRemove id]
         | None => []
         end
      ++ [LayerOff id]
  ∧ (∀ j, j ≠ id →
       objects (state_after (drawnItems_removeLayer id) st) !! j = objects st !! j
       ∧ (j ∈ drawnItems (state_after (drawnItems_removeLayer id) st) ↔ j ∈ drawnItems st))
  ∧ popup_invariant (state_after (drawnItems_removeLayer id) st).
Proof.
  intros Hinv Hin. unfold result_of, state_after, drawnItems_removeLayer.
  rewrite decide_True by done.
  set (st1 := MapState (objects st) (drawnItems st ∖ {[id]}) (on_map st ∖ {[id]})
                       (open_popup st) (next_id st) (calls st)).
  destruct (on_layerremove_spec id st1) as (H1 & H2 & H3 & H4 & H5 & H6 & H7 & H8);
    [done |].
  unfold result_of, state_after in *.
  split_and!; try done.
  - rewrite H5. set_solver.
  - rewrite H6. simpl. rewrite bool_decide_false by set_solver. done.
  - intros j Hj. split; [by apply H7 |]. rewrite H5. set_solver.
Qed.

(** The state after a rectangle with corners (1,1) and (0,0) was created
    with measurement on. *)
Definition state_with_rectangle : map_state :=
  (state_after (@on_created planar_geometry props_all rectangle_event) initial_state).

Lemma removeLayer_removes_measurement_witness :
  (result_of (drawnItems_removeLayer 0) state_with_rectangle) = Returns ()
  ∧ (0 ∉ drawnItems (state_after (drawnItems_removeLayer 0) state_with_rectangle))
  ∧ (0 ∉ on_map (state_after (drawnItems_removeLayer 0) state_with_rectangle))
  ∧ (objects (state_after (drawnItems_removeLayer 0) state_with_rectangle) !! 0 ≫= _popup) = None
  ∧ open_popup (state_after (drawnItems_removeLayer 0) state_with_rectangle) ≠ Some 0
  ∧ calls (state_after (drawnItems_removeLayer 0) state_with_rectangle)
    = [AddLayer 0; BindPopup 0; OpenPopup 0; PopupClose 0; PopupRemove 0; LayerOff 0].
Proof.
  destruct (removeLayer_removes_measurement 0 state_with_rectangle)
    as (H1 & H2 & H3 & H4 & H5 & H6 & _).
  - intros id. vm_compute. intros [= <-]. by eexists.
  - vm_compute. set_solver.
  - by split_and!.
Defined.

(** ** Which tools exist, and what the handler checks *)

(** C9 (as amended).  The draw tools are switched in two groups by the two
    properties of the component, not one flag per kind: polyline and
    polygon exist exactly when [enableMeasure] is set, circle, marker and
    rectangle exactly when [enableDraw] is set, and the circle marker
    never.  The [created] handler checks no kind: it adds every layer to
    [drawnItems] and raises no [ShapeKindDisabled].  Only when both
    properties are off no handler is registered and a [created] event
    changes nothing. *)
Theorem draw_tools_by_two_flags `{LeafletGeometry} (props : Props) :
  (is_on (draw_polyline (drawOptions props)) = enableMeasure props
   ∧ is_on (draw_polygon (drawOptions props)) = enableMeasure props
   ∧ is_on (draw_circle (drawOptions props)) = enableDraw props
   ∧ is_on (draw_marker (drawOptions props)) = enableDraw props
   ∧ is_on (draw_rectangle (drawOptions props)) = enableDraw props
   ∧ is_on (draw_circlemarker (drawOptions props)) = false)
  ∧ (∀ event st,
       next_id st ∈ drawnItems (state_after (on_created props event) st)
       ∧ (result_of (on_created props event) st) ≠ Throws ShapeKindDisabled)
  ∧ (enableDraw props = false → enableMeasure props = false →
     ∀ event st, fire_created props event st = (Returns (), st)).
Proof.
  split; [| split].
  - unfold drawOptions. simpl.
    by destruct (enableMeasure props), (enableDraw props).
  - intros event st. destruct (on_created_adds props event st) as (H1 & H2 & _).
    done.
  - intros Hd Hm event st. unfold fire_created, initDrawTools.
    by rewrite Hd, Hm.
Qed.

Lemma draw_tools_by_two_flags_witness :
  @fire_created planar_geometry props_none triangle_event initial_state
  = (Returns (), initial_state).
Proof.
  destruct (@draw_tools_by_two_flags planar_geometry props_none) as (_ & _ & H).
  by apply H.
Defined.

(** C9, counterexample: with [enableMeasure] off the polygon tool is off,
    yet a [created] event of a triangle is accepted: the handler returns
    normally and the triangle is in the shape set. *)
Lemma disabled_kind_not_rejected :
  tool_of (drawOptions props_draw_only) "polygon" = Some Off
  ∧ well_typed triangle_event
  ∧ drawnItems initial_state = ∅
  ∧ (result_of (@fire_created planar_geometry props_draw_only triangle_event)
       initial_state) = Returns ()
  ∧ 0 ∈ drawnItems (state_after (@fire_created planar_geometry props_draw_only
                                    triangle_event) initial_state).
Proof.
  by split_and!.
Qed.

(** * Every success of [parseCoordinates] *)

(** ** Captures a pattern leaves alone *)

Lemma repeat_loop_preserves body gs (P : mstate → mstate → Prop) :
  (∀ st, P st st) → (∀ a b c, P a b → P b c → P a c) →
  (∀ st, P st (clear gs st)) → (∀ a b, b ∈ body a → P a b) →
  ∀ fuel st st', st' ∈ repeat_loop body gs fuel st → P st st'.
Proof.
  intros Hrefl Htrans Hclear Hbody. induction fuel as [|fuel IH]; intros st st'; simpl.
  - by rewrite list_elem_of_singleton; intros ->.
  - rewrite elem_of_app, list_elem_of_bind, list_elem_of_singleton.
    intros [(st1 & Hin & Hst1) | ->]; [| done].
    destruct (progress st st1); [| by apply elem_of_nil in Hin].
    eapply Htrans; [apply Hclear |]. eapply Htrans; [by apply Hbody |]. by apply IH.
Qed.

Lemma clear_caps_length gs st : length (caps (clear gs st)) = length (caps st).
Proof.
  unfold clear. simpl. induction gs as [|g gs IH]; simpl; [done |].
  by rewrite length_insert.
Qed.

Lemma clear_caps_other gs st n :
  n ∉ gs → caps (clear gs st) !! n = caps st !! n.
Proof.
  unfold clear. simpl. induction gs as [|g gs IH]; simpl; [done |].
  intros Hn. apply not_elem_of_cons in Hn as [Hng Hn].
  rewrite list_lookup_insert_ne by done. auto.
Qed.

Lemma matcher_caps_length i r : ∀ st st',
  st' ∈ matcher i r st → length (caps st') = length (caps st).
Proof.
  induction r as [| c | cs | | | | | r1 IH1 r2 IH2 | r1 IH1 r2 IH2
                  | r IH | r IH | r IH | n r IH]; intros st st'; cbn [matcher].
  - by rewrite list_elem_of_singleton; intros ->.
  - rewrite elem_of_step_class. by intros (ch & _ & _ & ->).
  - rewrite elem_of_step_class. by intros (ch & _ & _ & ->).
  - rewrite elem_of_step_class. by intros (ch & _ & _ & ->).
  - rewrite elem_of_step_class. by intros (ch & _ & _ & ->).
  - case_decide; [| by rewrite elem_of_nil].
    by rewrite list_elem_of_singleton; intros ->.
  - destruct (rest st); [| by rewrite elem_of_nil].
    by rewrite list_elem_of_singleton; intros ->.
  - rewrite list_elem_of_bind. intros (st1 & H2 & H1).
    rewrite (IH2 _ _ H2). by apply IH1.
  - rewrite elem_of_app. intros [H | H]; auto.
  - rewrite elem_of_app, list_elem_of_filter, list_elem_of_singleton.
    intros [[_ H] | ->]; [| done]. rewrite (IH _ _ H). apply clear_caps_length.
  - intros H. symmetry.
    apply (repeat_loop_preserves _ _ (λ a b, length (caps a) = length (caps b))) in H;
      try done.
    + intros a b c. congruence.
    + intros s. by rewrite clear_caps_length.
    + intros a b Hb. symmetry. by apply IH.
  - rewrite list_elem_of_bind. intros (st1 & H2 & H1).
    apply (repeat_loop_preserves _ _ (λ a b, length (caps a) = length (caps b))) in H2.
    + rewrite <- H2, (IH _ _ H1). apply clear_caps_length.
    + done.
    + intros a b c. congruence.
    + intros s. by rewrite clear_caps_length.
    + intros a b Hb. symmetry. by apply IH.
  - rewrite list_elem_of_fmap. intros (s1 & -> & H). unfold set_group. simpl.
    rewrite length_insert. by apply IH.
Qed.

Lemma matcher_caps_other i r n : n ∉ groups r → ∀ st st',
  st' ∈ matcher i r st → caps st' !! n = caps st !! n.
Proof.
  induction r as [| c | cs | | | | | r1 IH1 r2 IH2 | r1 IH1 r2 IH2
                  | r IH | r IH | r IH | k r IH]; cbn [matcher groups];
    intros Hn st st'.
  - by rewrite list_elem_of_singleton; intros ->.
  - rewrite elem_of_step_class. by intros (ch & _ & _ & ->).
  - rewrite elem_of_step_class. by intros (ch & _ & _ & ->).
  - rewrite elem_of_step_class. by intros (ch & _ & _ & ->).
  - rewrite elem_of_step_class. by intros (ch & _ & _ & ->).
  - case_decide; [| by rewrite elem_of_nil].
    by rewrite list_elem_of_singleton; intros ->.
  - destruct (rest st); [| by rewrite elem_of_nil].
    by rewrite list_elem_of_singleton; intros ->.
  - rewrite not_elem_of_app in Hn. destruct Hn as [Hn1 Hn2].
    rewrite list_elem_of_bind. intros (st1 & H2 & H1).
    rewrite (IH2 Hn2 _ _ H2). by apply IH1.
  - rewrite not_elem_of_app in Hn. destruct Hn as [Hn1 Hn2].
    rewrite elem_of_app. intros [H | H]; auto.
  - rewrite elem_of_app, list_elem_of_filter, list_elem_of_singleton.
    intros [[_ H] | ->]; [| done]. rewrite (IH Hn _ _ H). by apply clear_caps_other.
  - intros H. symmetry.
    apply (repeat_loop_preserves _ _ (λ a b, caps a !! n = caps b !! n)) in H;
      try done.
    + intros a b c. congruence.
    + intros s. by rewrite clear_caps_other.
    + intros a b Hb. symmetry. by apply IH.
  - rewrite list_elem_of_bind. intros (st1 & H2 & H1).
    apply (repeat_loop_preserves _ _ (λ a b, caps a !! n = caps b !! n)) in H2.
    + rewrite <- H2, (IH Hn _ _ H1). by apply clear_caps_other.
    + done.
    + intros a b c. congruence.
    + intros s. by rewrite clear_caps_other.
    + intros a b Hb. symmetry. by apply IH.
  - apply not_elem_of_cons in Hn as [Hnk Hn].
    rewrite list_elem_of_fmap. intros (s1 & -> & H). unfold set_group. simpl.
    rewrite list_lookup_insert_ne by done. by apply IH.
Qed.

(** ** Existence of a success *)

(** Patterns without [^] and [$]. *)
Fixpoint anchor_free (r : regex) : bool :=
  match r with
  | Bol | Eol => false
  | Seq r1 r2 | Alt r1 r2 => anchor_free r1 && anchor_free r2
  | Opt r' | Star r' | Plus r' | Group _ r' => anchor_free r'
  | _ => true
  end.

Lemma repeat_loop_reaches body gs (R : str → Prop) :
  (∀ st w tl, R w → rest st = w ++ tl →
     ∃ st', st' ∈ body st ∧ rest st' = tl ∧ pos st' = pos st + length w) →
  ∀ ws, Forall (λ w, R w ∧ w ≠ []) ws →
  ∀ fuel st tl, rest st = concat ws ++ tl → length (rest st) < fuel →
    ∃ st', st' ∈ repeat_loop body gs fuel st ∧ rest st' = tl
           ∧ pos st' = pos st + length (concat ws).
Proof.
  intros Hbody. induction 1 as [|w ws [Hw Hne] Hws IH];
    intros fuel st tl Hrest Hfuel.
  - destruct fuel as [|fuel]; [lia |]. exists st. simpl in *.
    rewrite elem_of_app, list_elem_of_singleton. split; [by right |].
    split; [done | lia].
  - destruct fuel as [|fuel]; [lia |]. simpl in *.
    destruct (Hbody (clear gs st) w (concat ws ++ tl) Hw) as (s1 & Hs1 & Hr1 & Hk1).
    { simpl. by rewrite Hrest, (assoc_L (++)). }
    simpl in Hk1.
    destruct (IH fuel s1 tl Hr1) as (st' & Hst' & Hr' & Hk').
    { rewrite Hr1. rewrite Hrest, !length_app in Hfuel. rewrite length_app.
      destruct w; simpl in *; [done | lia]. }
    exists st'. split; [| split; [done |]].
    + rewrite elem_of_app, list_elem_of_bind. left. exists s1. split; [| done].
      assert (Hp : progress st s1 = true).
      { unfold progress. apply bool_decide_eq_true. rewrite Hk1.
        destruct w; simpl; [done | lia]. }
      by rewrite Hp.
    + rewrite Hk', Hk1, length_app. lia.
Qed.

Lemma matcher_reaches i r : anchor_free r = true → ∀ w st tl,
  lang i r w → rest st = w ++ tl →
  ∃ st', st' ∈ matcher i r st ∧ rest st' = tl ∧ pos st' = pos st + length w.
Proof.
  assert (Hcls : ∀ p st ch tl, p ch = true → rest st = [ch] ++ tl →
            ∃ st', st' ∈ step_class p st ∧ rest st' = tl
                   ∧ pos st' = pos st + length [ch]).
  { intros p st ch tl Hp Hr. exists (MState (S (pos st)) tl (caps st)).
    split; [| split; [done | simpl; lia]].
    apply elem_of_step_class. exists ch. repeat split; simpl; done || lia. }
  induction r as [| c | cs | | | | | r1 IH1 r2 IH2 | r1 IH1 r2 IH2
                  | r IH | r IH | r IH | n r IH]; cbn [matcher anchor_free lang];
    intros Ha w st tl Hw Hr; try done.
  - subst w. exists st. rewrite list_elem_of_singleton. simpl in *.
    split; [done |]. split; [done | lia].
  - destruct Hw as (ch & -> & Hch). by apply Hcls.
  - destruct Hw as (ch & -> & Hch). by apply Hcls.
  - destruct Hw as (ch & -> & Hch). by apply Hcls.
  - destruct Hw as (ch & -> & Hch). by apply Hcls.
  - apply andb_true_iff in Ha as [Ha1 Ha2].
    destruct Hw as (w1 & w2 & -> & Hw1 & Hw2).
    destruct (IH1 Ha1 w1 st (w2 ++ tl) Hw1) as (s1 & Hs1 & Hr1 & Hk1).
    { by rewrite Hr, (assoc_L (++)). }
    destruct (IH2 Ha2 w2 s1 tl Hw2 Hr1) as (s2 & Hs2 & Hr2 & Hk2).
    exists s2. rewrite list_elem_of_bind. split; [by exists s1 |].
    split; [done |]. rewrite Hk2, Hk1, length_app. lia.
  - apply andb_true_iff in Ha as [Ha1 Ha2]. destruct Hw as [Hw | Hw].
    + destruct (IH1 Ha1 w st tl Hw Hr) as (s1 & Hs1 & H1).
      exists s1. rewrite elem_of_app. auto.
    + destruct (IH2 Ha2 w st tl Hw Hr) as (s1 & Hs1 & H1).
      exists s1. rewrite elem_of_app. auto.
  - assert (Hskip : ∀ tl', rest st = tl' → ∃ st',
              st' ∈ filter (λ st1, progress st st1 = true)
                      (matcher i r (clear (groups r) st)) ++ [st]
              ∧ rest st' = tl' ∧ pos st' = pos st + 0).
    { intros tl' Htl. exists st. rewrite elem_of_app, list_elem_of_singleton.
      split; [by right |]. split; [done | lia]. }
    destruct Hw as [-> | Hw]; [by apply Hskip |].
    destruct w as [|a w]; [by apply Hskip |].
    destruct (IH Ha (a :: w) (clear (groups r) st) tl Hw Hr) as (s1 & Hs1 & Hr1 & Hk1).
    exists s1. rewrite elem_of_app, list_elem_of_filter. split; [| done].
    left. split; [| done]. unfold progress. apply bool_decide_eq_true.
    rewrite Hk1. simpl. lia.
  - destruct Hw as (ws & -> & Hws).
    apply Forall_concat_nonempty in Hws as (ws' & Hws' & Heq).
    rewrite <- Heq in *.
    eapply (repeat_loop_reaches _ _ (lang i r)); eauto.
  - destruct Hw as (w1 & ws & -> & Hw1 & Hws).
    apply Forall_concat_nonempty in Hws as (ws' & Hws' & Heq).
    rewrite <- Heq in *.
    destruct (IH Ha w1 (clear (groups r) st) (concat ws' ++ tl) Hw1)
      as (s1 & Hs1 & Hr1 & Hk1).
    { simpl. by rewrite Hr, (assoc_L (++)). }
    destruct (repeat_loop_reaches (matcher i r) (groups r) (lang i r)
                (λ st w tl, IH Ha w st tl) ws' Hws'
                (S (length (rest s1))) s1 tl Hr1) as (s2 & Hs2 & Hr2 & Hk2); [lia |].
    exists s2. rewrite list_elem_of_bind. split; [by exists s1 |].
    split; [done |]. rewrite Hk2, Hk1, length_app. simpl. lia.
  - destruct (IH Ha w st tl Hw Hr) as (s1 & Hs1 & Hr1 & Hk1).
    exists (set_group n st s1). rewrite list_elem_of_fmap.
    split; [by exists s1 |]. done.
Qed.

(** The [i] flag only adds matches. *)
Lemma char_eq_ignoreCase a b : char_eq false a b = true → char_eq true a b = true.
Proof. unfold char_eq. rewrite !N.eqb_eq. by intros ->. Qed.

Lemma lang_ignoreCase r : ∀ w, lang false r w → lang true r w.
Proof.
  induction r as [| c | cs | | | | | r1 IH1 r2 IH2 | r1 IH1 r2 IH2
                  | r IH | r IH | r IH | n r IH]; cbn [lang]; intros w; try done.
  - intros (ch & -> & Hch). exists ch. auto using char_eq_ignoreCase.
  - intros (ch & -> & Hch). exists ch. split; [done |].
    apply existsb_exists in Hch as (c & Hc & Heq). apply existsb_exists.
    exists c. auto using char_eq_ignoreCase.
  - intros (w1 & w2 & -> & H1 & H2). exists w1, w2. auto.
  - intros [H | H]; auto.
  - intros [H | H]; auto.
  - intros (ws & -> & Hws). exists ws. split; [done |].
    eapply Forall_impl; [exact Hws | done].
  - intros (w1 & ws & -> & H1 & Hws). exists w1, ws. split; [done |].
    split; [auto |]. eapply Forall_impl; [exact Hws | done].
  - auto.
Qed.

(** ** [parseDMS] accepts every token of the DMS pattern *)

Lemma search_finds re text k :
  k ≤ length text → is_Some (match_at re text k) →
  ∀ n j, j + n = length text → j ≤ k → is_Some (search re text n j).
Proof.
  intros Hk Hsome. induction n as [|n IH]; intros j Hj Hjk; simpl.
  - assert (j = k) as -> by lia. by destruct (match_at re text k).
  - destruct (match_at re text j) eqn:E; [done |].
    apply IH; [lia |]. destruct (decide (j = k)) as [-> |]; [| lia].
    rewrite E in Hsome. by destruct Hsome.
Qed.

Lemma str_match_finds re text k :
  k ≤ length text → is_Some (match_at re text k) → is_Some (str_match text re).
Proof.
  intros Hk Hsome. unfold str_match.
  apply (search_finds re text k Hk Hsome); lia.
Qed.

Lemma match_at_reaches re text k w tl :
  anchor_free (re_body re) = true →
  drop k text = w ++ tl → lang (re_ignoreCase re) (re_body re) w →
  is_Some (match_at re text k).
Proof.
  intros Ha Hdrop Hw. unfold match_at.
  destruct (matcher_reaches (re_ignoreCase re) (re_body re) Ha w
              (MState k (drop k text) (replicate (S (ngroups (re_body re))) None))
              tl Hw Hdrop) as (st' & Hin & _).
  destruct (matcher _ _ _); [by apply elem_of_nil in Hin | done].
Qed.

(** The hemisphere sets of the DMS pattern. *)
Definition hemisphere_set (hemi : list char) : Prop :=
  hemi = lit "NS" ∨ hemi = lit "EW".

(** A token of the DMS pattern is, after its optional minus sign, a word
    of the pattern of [parseDMS]. *)
Lemma lang_dms_token_parts g hemi w :
  hemisphere_set hemi → lang false (dms_token_re g hemi) w →
  ∃ sgn w', w = sgn ++ w' ∧ (sgn = [] ∨ sgn = lit "-")
            ∧ lang true (re_body dms_parts_pattern) w'.
Proof.
  intros Hhemi Hw. apply lang_ignoreCase in Hw. revert Hw.
  unfold dms_token_re, dms_parts_pattern, cat. cbn [re_body foldr]. cbn [lang].
  intros (w1 & ? & -> & Hs & w2 & ? & -> & H2 & w3 & ? & -> & H3 & w4 & ? & -> & H4
          & w5 & ? & -> & H5 & w6 & ? & -> & H6 & w7 & ? & -> & H7 & w8 & ? & -> & H8
          & w9 & ? & -> & H9 & w10 & ? & -> & H10 & w11 & ? & -> & H11
          & w12 & ? & -> & H12 & ->).
  exists w1, (w2 ++ w3 ++ w4 ++ w5 ++ w6 ++ w7 ++ (w8 ++ w9) ++ w10 ++ w11 ++ w12 ++ []).
  split; [by rewrite <- !(assoc_L (++)) |]. split.
  { destruct Hs as [-> | (ch & -> & Hch)]; [by left | right].
    apply char_eq_mark in Hch as ->; [done | by vm_compute; left]. }
  exists w2, (w3 ++ w4 ++ w5 ++ w6 ++ w7 ++ (w8 ++ w9) ++ w10 ++ w11 ++ w12 ++ []).
  split; [done |]. split; [done |].
  exists w3, (w4 ++ w5 ++ w6 ++ w7 ++ (w8 ++ w9) ++ w10 ++ w11 ++ w12 ++ []).
  split; [done |]. split; [done |].
  exists w4, (w5 ++ w6 ++ w7 ++ (w8 ++ w9) ++ w10 ++ w11 ++ w12 ++ []).
  split; [done |]. split; [done |].
  exists w5, (w6 ++ w7 ++ (w8 ++ w9) ++ w10 ++ w11 ++ w12 ++ []).
  split; [done |]. split; [by right |].
  exists w6, (w7 ++ (w8 ++ w9) ++ w10 ++ w11 ++ w12 ++ []).
  split; [done |]. split; [done |].
  exists w7, ((w8 ++ w9) ++ w10 ++ w11 ++ w12 ++ []).
  split; [done |]. split; [done |].
  exists (w8 ++ w9), (w10 ++ w11 ++ w12 ++ []).
  split; [done |]. split.
  { right. exists w8, (w9 ++ []). split; [by rewrite app_nil_r |]. split; [done |].
    exists w9, []. done. }
  exists w10, (w11 ++ w12 ++ []). split; [done |]. split; [done |].
  exists w11, (w12 ++ []). split; [done |]. split; [done |].
  exists w12, []. split; [done |]. split; [| done].
  destruct Hhemi as [-> | ->]; [by left | by right].
Qed.

Lemma parseDMS_accepts_token g hemi w :
  hemisphere_set hemi → lang false (dms_token_re g hemi) w →
  is_Some (parseDMS w).
Proof.
  intros Hhemi Hw.
  destruct (lang_dms_token_parts g hemi w Hhemi Hw) as (sgn & w' & -> & Hsgn & Hw').
  assert (Hm : is_Some (str_match (sgn ++ w') dms_parts_pattern)).
  { apply (str_match_finds _ _ (length sgn)).
    - rewrite length_app. lia.
    - apply (match_at_reaches _ _ _ w' []); [done | | done].
      by rewrite drop_app_length, app_nil_r. }
  unfold parseDMS. destruct Hm as [parts ->]. by eexists.
Qed.

(** ** Captures of the DMS pattern *)

Lemma str_match_dms_pattern text m :
  str_match text dms_pattern = Some m →
  ∃ tok1 sep tok2,
    text = tok1 ++ sep ++ tok2
    ∧ lang false (dms_token_re 2 (lit "NS")) tok1
    ∧ lang false (dms_token_re 4 (lit "EW")) tok2
    ∧ separator sep
    ∧ group m 1 = Some tok1 ∧ group m 3 = Some tok2.
Proof.
  unfold dms_pattern, cat. cbn [foldr]. rewrite str_match_bol.
  intros (st' & H & ->)%match_at_Some. revert H.
  cbn [re_body re_ignoreCase]. change (drop 0 text) with text.
  change (replicate _ _) with (replicate 5 (@None str)).
  set (st0 := MState 0 text (replicate 5 None)).
  assert (L0 : length (caps st0) = 5) by done.
  assert (R0 : rest st0 = text) by done.
  clearbody st0. intros H.
  apply elem_of_matcher_seq in H as (s1 & [_ ->]%elem_of_matcher_bol & H).
  apply elem_of_matcher_seq in H as (s2 & H2 & H).
  apply elem_of_matcher_group in H2 as (u1 & Hu1 & ->).
  pose proof (matcher_caps_length _ _ _ _ Hu1) as L1.
  apply matcher_sound in Hu1 as (tok1 & Htok1 & C1).
  apply elem_of_matcher_seq in H as (s3 & H3 & H).
  apply matcher_plain in H3 as (w2 & Hw2%lang_star_space & C2 & K2); [| done].
  apply elem_of_matcher_seq in H as (s4 & H4 & H).
  apply matcher_plain in H4 as (w3 & Hw3 & C3 & K3); [| done].
  apply lang_opt_mark in Hw3; [| by vm_compute; left].
  apply elem_of_matcher_seq in H as (s5 & H5 & H).
  apply matcher_plain in H5 as (w4 & Hw4%lang_star_space & C4 & K4); [| done].
  apply elem_of_matcher_seq in H as (s6 & H6 & H).
  apply elem_of_matcher_group in H6 as (u2 & Hu2 & ->).
  pose proof (matcher_caps_length _ _ _ _ Hu2) as L2.
  assert (Hn1 : 1 ∉ groups (dms_token_re 4 (lit "EW"))).
  { change (groups (dms_token_re 4 (lit "EW"))) with [4].
    by intros [=]%list_elem_of_singleton. }
  pose proof (matcher_caps_other false _ 1 Hn1 _ _ Hu2) as O2.
  apply matcher_sound in Hu2 as (tok2 & Htok2 & C5).
  apply elem_of_matcher_seq in H as (s7 & [Hr ->]%elem_of_matcher_eol & ->%elem_of_matcher_empty).
  assert (Hc12 : consumes st0 tok1 (set_group 1 st0 u1)) by done.
  assert (Hc56 : consumes s5 tok2 (set_group 3 s5 u2)) by done.
  pose proof (consumes_app _ _ _ _ _ Hc12 (consumes_app _ _ _ _ _ C2
    (consumes_app _ _ _ _ _ C3 (consumes_app _ _ _ _ _ C4 Hc56)))) as [Hrest Hpos].
  cbn [rest set_group] in Hrest, Hr. rewrite Hr, app_nil_r, R0 in Hrest.
  exists tok1, (w2 ++ w3 ++ w4), tok2. split; [by rewrite Hrest, <- !(assoc_L (++)) |].
  split; [done |]. split; [done |]. split.
  { unfold separator. rewrite !Forall_app. split_and!.
    - eapply Forall_impl; [exact Hw2 |]. by intros c ->.
    - destruct Hw3 as [-> | ->]; by repeat constructor.
    - eapply Forall_impl; [exact Hw4 |]. by intros c ->. }
  assert (T1 : caps (set_group 1 st0 u1) = <[1 := Some tok1]> (caps u1)).
  { unfold set_group. cbn [caps]. by rewrite (consumes_take _ _ _ C1). }
  assert (T5 : caps (set_group 3 s5 u2) = <[3 := Some tok2]> (caps u2)).
  { unfold set_group. cbn [caps]. by rewrite (consumes_take _ _ _ C5). }
  unfold group. rewrite T5.
  rewrite !list_lookup_insert_ne by done. split.
  - rewrite O2, K4, K3, K2, T1. rewrite list_lookup_insert_eq; [done |].
    rewrite L1, L0. lia.
  - rewrite list_lookup_insert_eq; [done |].
    rewrite L2, K4, K3, K2, T1. rewrite length_insert, L1, L0. lia.
Qed.

(** A coordinate whose latitude and longitude are the numbers [x] and
    [y]. *)
Definition coord_is (c : Coordinates) (x y : Q) : Prop :=
  ∃ a b, lat c = Some a ∧ lng c = Some b
         ∧ num_eq a (Fin x) ∧ num_eq b (Fin y).

Lemma lang_num_re_decimal w :
  lang false num_re w → ∃ d, wf_decimal d ∧ w = render d.
Proof.
  unfold num_re, cat. cbn [foldr]. cbn [lang].
  intros (w1 & ? & -> & Hs & w2 & ? & -> & Hi & w3 & ? & -> & Hp & w4 & ? & -> & Hf & ->).
  change (lang false (Plus Digit) w2) in Hi.
  change (lang false (Star Digit) w4) in Hf.
  apply lang_plus_digit in Hi as [Hne Hi]. apply lang_star_digit in Hf.
  rewrite app_nil_r.
  destruct Hp as [-> | (ch & -> & ->%char_eq_exact)].
  - exists (Decimal (bool_decide (w1 ≠ [])) (w2 ++ w4) false []). split.
    + split_and!; simpl; [by destruct w2 | by apply Forall_app | constructor | done].
    + unfold render. simpl. rewrite app_nil_r.
      by destruct Hs as [-> | (ch & -> & ->%char_eq_exact)].
  - exists (Decimal (bool_decide (w1 ≠ [])) w2 true w4). split.
    + by split_and!.
    + unfold render. simpl.
      by destruct Hs as [-> | (ch & -> & ->%char_eq_exact)].
Qed.

(** ** The first start index of an unanchored match *)

Lemma search_first re text m :
  ∀ n k, search re text n k = Some m →
    ∃ j, k ≤ j ∧ match_at re text j = Some m
         ∧ ∀ i, k ≤ i < j → match_at re text i = None.
Proof.
  induction n as [|n IH]; intros k; simpl;
    destruct (match_at re text k) eqn:E; try done.
  - intros [= <-]. exists k. split_and!; [done | done | intros; lia].
  - intros [= <-]. exists k. split_and!; [done | done | intros; lia].
  - intros (j & Hj & Hm & Hmin)%IH. exists j. split_and!; [lia | done |].
    intros i Hi. destruct (decide (i = k)) as [-> |]; [done |]. apply Hmin. lia.
Qed.

Lemma match_at_parts_token dms j parts :
  match_at dms_parts_pattern dms j = Some parts →
  ∃ t post,
    drop j dms = render_dms t ++ post ∧ wf_dms t
    ∧ num_eq (dms_of_parts parts) (Fin (dms_value t)).
Proof.
  intros (st' & Hin & ->)%match_at_Some.
  change (replicate _ _) with (replicate 6 (@None str)) in Hin.
  apply dms_parts_successes in Hin as (t & y & Hwf & Hr & Hk & Hcaps).
  exists t, (rest st'). split; [done |]. split; [done |].
  rewrite Hcaps. cbn [insert list_insert]. by apply dms_of_parts_token.
Qed.

(** The characters of a token before its hemisphere letter. *)
Lemma digits_body w : digits w → Forall (λ c, dms_body_char c = true) w.
Proof.
  intros H. eapply Forall_impl; [exact H |].
  intros c Hc. unfold dms_body_char. by rewrite Hc.
Qed.

Lemma spaces_body w : spaces w → Forall (λ c, dms_body_char c = true) w.
Proof.
  intros H. eapply Forall_impl; [exact H |].
  intros c Hc. unfold dms_body_char. by rewrite Hc, orb_true_r.
Qed.

Lemma lang_dms_token_body g hemi w :
  lang false (dms_token_re g hemi) w →
  ∃ sgn D x h,
    w = sgn ++ D ++ [deg] ++ x ++ [h] ∧ (sgn = [] ∨ sgn = lit "-")
    ∧ D ≠ [] ∧ digits D ∧ Forall (λ c, dms_body_char c = true) x ∧ h ∈ hemi.
Proof.
  unfold dms_token_re, cat. cbn [foldr]. cbn [lang].
  intros (w1 & ? & -> & Hs & w2 & ? & -> & H2 & w3 & ? & -> & H3 & w4 & ? & -> & H4
          & w5 & ? & -> & H5 & w6 & ? & -> & H6 & w7 & ? & -> & H7 & w8 & ? & -> & H8
          & w9 & ? & -> & H9 & w10 & ? & -> & H10 & w11 & ? & -> & H11
          & w12 & ? & -> & (h & -> & Hh) & ->).
  change (lang false (Plus Digit) w2) in H2. apply lang_plus_digit in H2 as [Hne2 H2].
  destruct H3 as (ch & -> & ->%char_eq_exact).
  change (lang false (Star Space) w4) in H4. apply lang_star_space in H4.
  change (lang false (Plus Digit) w5) in H5. apply lang_plus_digit in H5 as [_ H5].
  apply lang_opt_mark in H6; [| by vm_compute; left].
  change (lang false (Star Space) w7) in H7. apply lang_star_space in H7.
  change (lang false (Plus Digit) w8) in H8. apply lang_plus_digit in H8 as [_ H8].
  assert (H9' : Forall (λ c, dms_body_char c = true) w9).
  { destruct H9 as [-> | H9]; [constructor |].
    apply lang_fraction in H9 as (fd & -> & _ & Hfd).
    constructor; [done | by apply digits_body]. }
  apply lang_opt_mark in H10; [| by vm_compute; left].
  change (lang false (Star Space) w11) in H11. apply lang_star_space in H11.
  exists w1, w2, (w4 ++ w5 ++ w6 ++ w7 ++ w8 ++ w9 ++ w10 ++ w11), h.
  split; [by rewrite app_nil_r, <- !(assoc_L (++)) |].
  split.
  { destruct Hs as [-> | (ch & -> & ->%char_eq_exact)]; auto. }
  split; [done |]. split; [done |]. split; [| by apply existsb_char_eq_exact].
  rewrite !Forall_app. split_and!; auto using digits_body, spaces_body.
  - destruct H6 as [-> | ->]; by repeat constructor.
  - destruct H10 as [-> | ->]; by repeat constructor.
Qed.

Lemma hemisphere_letter_not_body c :
  to_upper c ∈ lit "NSEW" → dms_body_char c = false ∧ is_digit c = false.
Proof.
  intros H.
  assert (Hc : (c = 78 ∨ c = 110 ∨ c = 83 ∨ c = 115
                ∨ c = 69 ∨ c = 101 ∨ c = 87 ∨ c = 119)%N).
  { revert H. unfold to_upper, lit, chr. simpl.
    rewrite !elem_of_cons, elem_of_nil.
    destruct (N.leb_spec 97 c), (N.leb_spec c 122); simpl; lia. }
  destruct Hc as [-> | [-> | [-> | [-> | [-> | [-> | [-> | ->]]]]]]]; by vm_compute.
Qed.

(** ** [parseDMS] on a token of the DMS pattern *)

Lemma render_dms_head t :
  wf_dms t → ∃ c tl, render_dms t = c :: tl ∧ is_digit c = true.
Proof.
  intros (Hne & HD & _). unfold render_dms.
  destruct (t_deg t) as [|c D]; [done |]. apply Forall_cons in HD as [Hc _].
  by exists c, (D ++ [deg] ++ t_ws1 t ++ t_min t
               ++ (if t_quote t then lit "'" else []) ++ t_ws2 t
               ++ from_option render [] (t_sec t)
               ++ (if t_dquote t then [dquote] else []) ++ t_ws3 t ++ [t_hemi t]).
Qed.

Lemma render_dms_last t :
  ∃ body, render_dms t = body ++ [t_hemi t].
Proof.
  unfold render_dms.
  exists (t_deg t ++ [deg] ++ t_ws1 t ++ t_min t
          ++ (if t_quote t then lit "'" else []) ++ t_ws2 t
          ++ from_option render [] (t_sec t)
          ++ (if t_dquote t then [dquote] else []) ++ t_ws3 t).
  by rewrite <- !(assoc_L (++)).
Qed.

Lemma parseDMS_token g hemi w :
  hemisphere_set hemi → lang false (dms_token_re g hemi) w →
  ∃ sgn t v,
    w = sgn ++ render_dms t ∧ (sgn = [] ∨ sgn = lit "-")
    ∧ wf_dms t ∧ t_hemi t ∈ hemi
    ∧ parseDMS w = Some v ∧ num_eq v (Fin (dms_value t)).
Proof.
  intros Hhemi Hw.
  destruct (lang_dms_token_body g hemi w Hw) as (sgn & D & x & h & Hweq & Hsgn & HneD & HD & Hx & Hh).
  destruct (lang_dms_token_parts g hemi w Hhemi Hw) as (sgn' & w' & Hweq' & Hsgn' & Hw').
  assert (Hk0 : is_Some (match_at dms_parts_pattern w (length sgn'))).
  { apply (match_at_reaches _ _ _ w' []); [done | | done].
    by rewrite Hweq', drop_app_length, app_nil_r. }
  destruct (parseDMS_accepts_token g hemi w Hhemi Hw) as [v Hv].
  unfold parseDMS in Hv.
  destruct (str_match w dms_parts_pattern) as [parts|] eqn:Hm; [| done].
  injection Hv as <-. pose proof Hm as Hm0. unfold str_match in Hm.
  apply search_first in Hm as (j & _ & Hj & Hmin).
  assert (Hjk : j ≤ length sgn').
  { destruct (decide (j ≤ length sgn')) as [|Hgt]; [done |].
    rewrite Hmin in Hk0 by lia. by destruct Hk0. }
  destruct (match_at_parts_token w j parts Hj) as (t & post & Hdrop & Hwf & Hval).
  destruct (render_dms_last t) as (body & Hbody).
  destruct (render_dms_head t Hwf) as (c0 & tl0 & Hhead & Hc0).
  assert (Hletter : dms_body_char (t_hemi t) = false).
  { apply hemisphere_letter_not_body. apply Hwf. }
  assert (Hall : Forall (λ c, dms_body_char c = true) (sgn ++ D ++ [deg] ++ x)).
  { rewrite !Forall_app. split_and!; auto using digits_body.
    all: try (destruct Hsgn as [-> | ->]); by repeat constructor. }
  remember (take j w) as pre eqn:Hpre.
  assert (Hsplit : w = pre ++ render_dms t ++ post).
  { by rewrite Hpre, <- Hdrop, take_drop. }
  (* nothing follows the hemisphere letter *)
  assert (Hpost : post = []).
  { destruct post as [|p0 post] using rev_ind; [done |]. exfalso.
    rewrite Hweq, Hbody in Hsplit.
    replace (sgn ++ D ++ [deg] ++ x ++ [h]) with ((sgn ++ D ++ [deg] ++ x) ++ [h])
      in Hsplit by by rewrite <- !(assoc_L (++)).
    replace (pre ++ (body ++ [t_hemi t]) ++ post ++ [p0])
      with ((pre ++ body ++ [t_hemi t] ++ post) ++ [p0])
      in Hsplit by by rewrite <- !(assoc_L (++)).
    apply app_inj_tail in Hsplit as [Hsplit _].
    rewrite Hsplit in Hall. rewrite !Forall_app in Hall.
    destruct Hall as (_ & _ & Hall & _). apply Forall_cons in Hall as [Hall _].
    congruence. }
  subst post. rewrite app_nil_r in Hsplit.
  assert (Hhemi_eq : t_hemi t = h).
  { rewrite Hweq, Hbody in Hsplit.
    replace (sgn ++ D ++ [deg] ++ x ++ [h]) with ((sgn ++ D ++ [deg] ++ x) ++ [h])
      in Hsplit by by rewrite <- !(assoc_L (++)).
    replace (pre ++ body ++ [t_hemi t]) with ((pre ++ body) ++ [t_hemi t])
      in Hsplit by by rewrite <- !(assoc_L (++)).
    by apply app_inj_tail in Hsplit as [_ ->]. }
  (* the match starts right after the sign *)
  assert (Htake : pre = sgn').
  { rewrite Hpre. destruct Hsgn' as [-> | ->]; simpl in *.
    - by replace j with 0 by lia.
    - destruct j as [|[|j]]; [| | lia].
      + exfalso. simpl in Hpre. subst pre. simpl in Hsplit.
        rewrite Hsplit, Hhead in Hweq'.
        injection Hweq' as -> _. by vm_compute in Hc0.
      + by rewrite Hweq'. }
  exists sgn', t, (dms_of_parts parts).
  rewrite Htake in Hsplit. split_and!; try done.
  - by rewrite Hhemi_eq.
  - unfold parseDMS. by rewrite Hm0.
Qed.

(** ** What [parseCoordinates] accepts, and what it returns *)

Definition sign_prefix (s : str) : Prop := s = [] ∨ s = lit "-".

(** The two shapes of a recognised text, with the numbers returned. *)
Lemma parseCoordinates_success_cases (text : str) (c : Coordinates) :
  parseCoordinates text = Some c →
  (∃ d1 ws d2,
     wf_decimal d1 ∧ wf_decimal d2 ∧ spaces ws
     ∧ text = render d1 ++ lit "," ++ ws ++ render d2
     ∧ coord_is c (dec_value d1) (dec_value d2))
  ∨ (∃ s1 t1 sep s2 t2,
       sign_prefix s1 ∧ sign_prefix s2 ∧ wf_dms t1 ∧ wf_dms t2 ∧ separator sep
       ∧ t_hemi t1 ∈ lit "NS" ∧ t_hemi t2 ∈ lit "EW"
       ∧ text = s1 ++ render_dms t1 ++ sep ++ s2 ++ render_dms t2
       ∧ coord_is c (dms_value t1) (dms_value t2)).
Proof.
  rewrite parseCoordinates_unfold.
  destruct (str_match text decimal_pattern) as [m|] eqn:Hdec.
  - intros [= <-]. left.
    apply str_match_decimal_pattern in Hdec as (w1 & ws & w2 & Hw1 & Hws & Hw2 & -> & ->).
    apply lang_num_re_decimal in Hw1 as (d1 & Hd1 & ->).
    apply lang_num_re_decimal in Hw2 as (d2 & Hd2 & ->).
    exists d1, ws, d2. split_and!; try done.
    exists (parseFloat (render d1)), (parseFloat (render d2)).
    split_and!; try done; by apply parseFloat_render.
  - destruct (str_match text dms_pattern) as [m|] eqn:Hdms; [| done].
    intros [= <-]. right.
    apply str_match_dms_pattern in Hdms
      as (tok1 & sep & tok2 & -> & Htok1 & Htok2 & Hsep & -> & ->).
    destruct (parseDMS_token 2 _ tok1 (or_introl eq_refl) Htok1)
      as (s1 & t1 & v1 & -> & Hs1 & Hwf1 & Hh1 & Hp1 & Hv1).
    destruct (parseDMS_token 4 _ tok2 (or_intror eq_refl) Htok2)
      as (s2 & t2 & v2 & -> & Hs2 & Hwf2 & Hh2 & Hp2 & Hv2).
    exists s1, t1, sep, s2, t2. split_and!; try done.
    + by rewrite <- !(assoc_L (++)).
    + exists v1, v2. simpl. by rewrite Hp1, Hp2.
Qed.

(** Every text [parseCoordinates] recognises is a decimal pair or a DMS
    pair, and the coordinate returned holds two numbers (never [null] or
    [NaN]): the values of the two literals, or the DMS values of the two
    tokens, the first with hemisphere N or S and the second with E or W.  A
    minus sign in front of a DMS token is accepted and ignored. *)
Theorem parseCoordinates_success (text : str) (c : Coordinates) :
  parseCoordinates text = Some c →
  (∃ d1 ws d2,
     wf_decimal d1 ∧ wf_decimal d2 ∧ spaces ws
     ∧ text = render d1 ++ lit "," ++ ws ++ render d2
     ∧ coord_is c (dec_value d1) (dec_value d2))
  ∨ (∃ s1 t1 sep s2 t2,
       sign_prefix s1 ∧ sign_prefix s2 ∧ wf_dms t1 ∧ wf_dms t2 ∧ separator sep
       ∧ t_hemi t1 ∈ lit "NS" ∧ t_hemi t2 ∈ lit "EW"
       ∧ text = s1 ++ render_dms t1 ++ sep ++ s2 ++ render_dms t2
       ∧ coord_is c (dms_value t1) (dms_value t2)).
Proof.
  rewrite parseCoordinates_unfold.
  destruct (str_match text decimal_pattern) as [m|] eqn:Hdec.
  - intros [= <-]. left.
    apply str_match_decimal_pattern in Hdec as (w1 & ws & w2 & Hw1 & Hws & Hw2 & -> & ->).
    apply lang_num_re_decimal in Hw1 as (d1 & Hd1 & ->).
    apply lang_num_re_decimal in Hw2 as (d2 & Hd2 & ->).
    exists d1, ws, d2. split_and!; try done.
    exists (parseFloat (render d1)), (parseFloat (render d2)).
    split_and!; try done; by apply parseFloat_render.
  - destruct (str_match text dms_pattern) as [m|] eqn:Hdms; [| done].
    intros [= <-]. right.
    apply str_match_dms_pattern in Hdms
      as (tok1 & sep & tok2 & -> & Htok1 & Htok2 & Hsep & -> & ->).
    destruct (parseDMS_token 2 _ tok1 (or_introl eq_refl) Htok1)
      as (s1 & t1 & v1 & -> & Hs1 & Hwf1 & Hh1 & Hp1 & Hv1).
    destruct (parseDMS_token 4 _ tok2 (or_intror eq_refl) Htok2)
      as (s2 & t2 & v2 & -> & Hs2 & Hwf2 & Hh2 & Hp2 & Hv2).
    exists s1, t1, sep, s2, t2. split_and!; try done.
    + by rewrite <- !(assoc_L (++)).
    + exists v1, v2. simpl. by rewrite Hp1, Hp2.
Qed.

Lemma parseCoordinates_success_witness :
  (∃ d1 ws d2,
     wf_decimal d1 ∧ wf_decimal d2 ∧ spaces ws
     ∧ dms_example = render d1 ++ lit "," ++ ws ++ render d2
     ∧ coord_is {| lat := Some (Fin (6556800 # 216000));
                   lng := Some (Fin (259251900 # 2160000)) |}
         (dec_value d1) (dec_value d2))
  ∨ (∃ s1 t1 sep s2 t2,
       sign_prefix s1 ∧ sign_prefix s2 ∧ wf_dms t1 ∧ wf_dms t2 ∧ separator sep
       ∧ t_hemi t1 ∈ lit "NS" ∧ t_hemi t2 ∈ lit "EW"
       ∧ dms_example = s1 ++ render_dms t1 ++ sep ++ s2 ++ render_dms t2
       ∧ coord_is {| lat := Some (Fin (6556800 # 216000));
                     lng := Some (Fin (259251900 # 2160000)) |}
           (dms_value t1) (dms_value t2)).
Proof. apply (parseCoordinates_success dms_example). by vm_compute. Defined.

(** ** The sign of a DMS value *)

Lemma digits_val_nonneg ds : (0 ≤ digits_val ds)%Z.
Proof.
  unfold digits_val.
  assert (H : ∀ acc, (0 ≤ acc)%Z →
            (0 ≤ foldl (λ a c, 10 * a + digit_val c) acc ds)%Z).
  { induction ds as [|c ds IH]; intros acc Hacc; simpl; [done |].
    apply IH. unfold digit_val. lia. }
  by apply H.
Qed.

Lemma Qplus_nonneg (a b : Q) : (0 <= a)%Q → (0 <= b)%Q → (0 <= a + b)%Q.
Proof. intros Ha Hb. lra. Qed.

Lemma inject_Z_nonneg z : (0 ≤ z)%Z → (0 <= inject_Z z)%Q.
Proof. intros H. unfold Qle. simpl. lia. Qed.

Lemma dec_value_nonneg d : d_neg d = false → (0 <= dec_value d)%Q.
Proof.
  intros Hneg. unfold dec_value, signed. rewrite Hneg.
  apply Qplus_nonneg; [apply inject_Z_nonneg, digits_val_nonneg |].
  apply Qle_shift_div_l.
  - unfold Qlt. simpl.
    pose proof (Z.pow_pos_nonneg 10 (Z.of_nat (length (d_frac d)))). lia.
  - rewrite Qmult_0_l. apply inject_Z_nonneg, digits_val_nonneg.
Qed.

Lemma dms_value_sign t :
  wf_dms t →
  (south_or_west (t_hemi t) = false → (0 <= dms_value t)%Q)
  ∧ (south_or_west (t_hemi t) = true → (dms_value t <= 0)%Q).
Proof.
  intros (_ & _ & _ & _ & _ & HS & _ & _).
  assert (Hdeg : (0 <= inject_Z (digits_val (t_deg t)))%Q)
    by apply inject_Z_nonneg, digits_val_nonneg.
  assert (Hmin : (0 <= match t_min t with
                       | [] => 0%Q
                       | m => inject_Z (digits_val m)
                       end / 60)%Q).
  { apply Qle_shift_div_l; [done |]. rewrite Qmult_0_l.
    destruct (t_min t); [done | apply inject_Z_nonneg, digits_val_nonneg]. }
  assert (Hsec : (0 <= match t_sec t with
                       | None => 0%Q
                       | Some d => dec_value d
                       end / 3600)%Q).
  { apply Qle_shift_div_l; [done |]. rewrite Qmult_0_l.
    destruct (t_sec t) as [d|] eqn:E; [| done].
    apply dec_value_nonneg. by destruct (HS d eq_refl) as (_ & ? & _). }
  unfold dms_value. cbv zeta. split; intros ->; lra.
Qed.

Lemma render_dms_body t :
  wf_dms t →
  ∃ body, render_dms t = body ++ [t_hemi t]
          ∧ Forall (λ c, dms_body_char c = true) body.
Proof.
  intros (_ & HD & Hw1 & HM & Hw2 & HS & Hw3 & _). unfold render_dms.
  exists (t_deg t ++ [deg] ++ t_ws1 t ++ t_min t
          ++ (if t_quote t then lit "'" else []) ++ t_ws2 t
          ++ from_option render [] (t_sec t)
          ++ (if t_dquote t then [dquote] else []) ++ t_ws3 t).
  split; [by rewrite <- !(assoc_L (++)) |].
  assert (Hsec : Forall (λ c, dms_body_char c = true)
                   (from_option render [] (t_sec t))).
  { destruct (t_sec t) as [d|]; [| constructor]. simpl.
    destruct (HS d eq_refl) as ((_ & Hi & Hf & _) & Hneg & _).
    unfold render. rewrite Hneg. simpl. rewrite !Forall_app.
    split_and!; auto using digits_body.
    destruct (d_point d); by repeat constructor. }
  rewrite !Forall_app. split_and!; auto using digits_body, spaces_body.
  all: repeat match goal with
         | |- context [if ?b then _ else _] => destruct b
         end; by repeat constructor.
Qed.

(** For every DMS pair [parseCoordinates] accepts, the sign of each
    number comes from the hemisphere letter alone: the latitude is at
    least 0 for N and at most 0 for S, the longitude at least 0 for E and
    at most 0 for W, whether or not a minus sign stands before the
    degrees. *)
Theorem parseCoordinates_dms_sign (text : str) (c : Coordinates) :
  parseCoordinates text = Some c → deg ∈ text →
  ∃ a b,
    lat c = Some (Fin a) ∧ lng c = Some (Fin b)
    ∧ (chr "N" ∈ text → (0 <= a)%Q) ∧ (chr "S" ∈ text → (a <= 0)%Q)
    ∧ (chr "E" ∈ text → (0 <= b)%Q) ∧ (chr "W" ∈ text → (b <= 0)%Q).
Proof.
  intros Hparse Hdeg.
  destruct (parseCoordinates_success_cases text c Hparse)
    as [(d1 & ws & d2 & Hd1 & Hd2 & Hws & Htext & _)
       | (s1 & t1 & sep & s2 & t2 & Hs1 & Hs2 & Hwf1 & Hwf2 & Hsep & Hh1 & Hh2
          & Htext & a0 & b0 & Hlat & Hlng & Ha & Hb)].
  { apply dms_like_not_decimal in Hdeg.
    assert (H : str_match text decimal_pattern
                = Some [Some text; Some (render d1); Some (render d2)]).
    { apply str_match_decimal_pattern. exists (render d1), ws, (render d2).
      auto using lang_num_re_render. }
    congruence. }
  destruct a0 as [|a]; [done |]. destruct b0 as [|b]; [done |].
  simpl in Ha, Hb. exists a, b. split; [done |]. split; [done |].
  destruct (render_dms_body t1 Hwf1) as (body1 & Hr1 & Hbody1).
  destruct (render_dms_body t2 Hwf2) as (body2 & Hr2 & Hbody2).
  destruct (dms_value_sign t1 Hwf1) as [Hpos1 Hneg1].
  destruct (dms_value_sign t2 Hwf2) as [Hpos2 Hneg2].
  assert (Hletter : ∀ l, l ∈ lit "NSEW" → l ∈ text → l = t_hemi t1 ∨ l = t_hemi t2).
  { intros l Hl. destruct (hemisphere_not_body l Hl) as [Hlb Hls].
    rewrite Htext, Hr1, Hr2, !elem_of_app, !list_elem_of_singleton.
    rewrite Forall_forall in Hbody1, Hbody2. unfold separator in Hsep.
    rewrite Forall_forall in Hsep.
    intros [H | [[H | H] | [H | [H | [H | H]]]]]; auto.
    - destruct Hs1 as [-> | ->]; [by apply elem_of_nil in H |].
      apply list_elem_of_singleton in H as ->. by vm_compute in Hlb.
    - apply Hbody1 in H. congruence.
    - apply Hsep in H. congruence.
    - destruct Hs2 as [-> | ->]; [by apply elem_of_nil in H |].
      apply list_elem_of_singleton in H as ->. by vm_compute in Hlb.
    - apply Hbody2 in H. congruence. }
  assert (Hcases1 : t_hemi t1 = chr "N" ∨ t_hemi t1 = chr "S").
  { revert Hh1. unfold lit. rewrite !elem_of_cons, elem_of_nil. tauto. }
  assert (Hcases2 : t_hemi t2 = chr "E" ∨ t_hemi t2 = chr "W").
  { revert Hh2. unfold lit. rewrite !elem_of_cons, elem_of_nil. tauto. }
  split_and!; intros Hin; apply Hletter in Hin;
    try (apply list_elem_of_In; vm_compute; tauto).
  - rewrite Ha. apply Hpos1.
    destruct Hin as [<- | Hin]; [done |].
    destruct Hcases2 as [E | E]; rewrite E in Hin; done.
  - rewrite Ha. apply Hneg1.
    destruct Hin as [<- | Hin]; [done |].
    destruct Hcases2 as [E | E]; rewrite E in Hin; done.
  - rewrite Hb. apply Hpos2.
    destruct Hin as [Hin | <-]; [| done].
    destruct Hcases1 as [E | E]; rewrite E in Hin; done.
  - rewrite Hb. apply Hneg2.
    destruct Hin as [Hin | <-]; [| done].
    destruct Hcases1 as [E | E]; rewrite E in Hin; done.
Qed.

Definition dms_example_signed : str :=
  lit "-30" ++ [deg] ++ lit "21'20" ++ [dquote] ++ lit "N, 120"
  ++ [deg] ++ lit "1'26.5" ++ [dquote] ++ lit "W".

Lemma parseCoordinates_dms_sign_witness :
  ∃ a b,
    Some (Fin (6556800 # 216000)) = Some (Fin a)
    ∧ Some (Fin (-259251900 # 2160000)) = Some (Fin b)
    ∧ (chr "N" ∈ dms_example_signed → (0 <= a)%Q)
    ∧ (chr "S" ∈ dms_example_signed → (a <= 0)%Q)
    ∧ (chr "E" ∈ dms_example_signed → (0 <= b)%Q)
    ∧ (chr "W" ∈ dms_example_signed → (b <= 0)%Q).
Proof.
  apply (parseCoordinates_dms_sign dms_example_signed
           {| lat := Some (Fin (6556800 # 216000));
              lng := Some (Fin (-259251900 # 2160000)) |}).
  - by vm_compute.
  - apply list_elem_of_In. vm_compute. auto 10.
Defined.

(** ** Text that is not trimmed *)

Lemma num_chars_ends w :
  w ≠ [] → Forall (λ c, num_char c = true) w →
  (∃ a tl, w = a :: tl ∧ is_space a = false)
  ∧ (∃ z tl, w = tl ++ [z] ∧ is_space z = false).
Proof.
  intros Hne Hw. split.
  - destruct Hw as [|a w Ha _]; [done |]. exists a, w.
    auto using num_char_not_space.
  - destruct w as [|z w _] using rev_ind; [done |]. exists z, w.
    apply Forall_app in Hw as [_ Hz]. apply Forall_cons in Hz as [Hz _].
    auto using num_char_not_space.
Qed.

(** [parseCoordinates] does not trim: a text it recognises neither
    starts nor ends with white space. *)
Theorem parseCoordinates_untrimmed (text : str) (c : Coordinates) :
  parseCoordinates text = Some c →
  (∃ a tl, text = a :: tl ∧ is_space a = false)
  ∧ (∃ z tl, text = tl ++ [z] ∧ is_space z = false).
Proof.
  intros Hparse.
  destruct (parseCoordinates_success_cases text c Hparse)
    as [(d1 & ws & d2 & Hd1 & Hd2 & Hws & -> & _)
       | (s1 & t1 & sep & s2 & t2 & Hs1 & Hs2 & Hwf1 & Hwf2 & Hsep & Hh1 & Hh2
          & -> & _)].
  - destruct (wf_decimal_render_chars d1 Hd1) as [Hne1 Hc1].
    destruct (wf_decimal_render_chars d2 Hd2) as [Hne2 Hc2].
    destruct (num_chars_ends _ Hne1 Hc1) as [(a & tl & -> & Ha) _].
    destruct (num_chars_ends _ Hne2 Hc2) as [_ (z & tl' & -> & Hz)].
    split; [by exists a, (tl ++ lit "," ++ ws ++ tl' ++ [z]) |].
    exists z, ((a :: tl) ++ lit "," ++ ws ++ tl'). split; [| done].
    by rewrite <- !(assoc_L (++)).
  - destruct (render_dms_head t1 Hwf1) as (c1 & tl1 & -> & Hc1).
    destruct (render_dms_last t2) as (body2 & ->).
    split.
    + destruct Hs1 as [-> | ->].
      * exists c1, (tl1 ++ sep ++ s2 ++ body2 ++ [t_hemi t2]).
        split; [done | by apply digit_not_space].
      * by exists (chr "-"), ((c1 :: tl1) ++ sep ++ s2 ++ body2 ++ [t_hemi t2]).
    + exists (t_hemi t2), (s1 ++ (c1 :: tl1) ++ sep ++ s2 ++ body2).
      split; [by rewrite <- !(assoc_L (++)) |].
      revert Hh2. unfold lit. rewrite !elem_of_cons, elem_of_nil.
      by intros [-> | [-> | []]].
Qed.

Lemma parseCoordinates_untrimmed_witness :
  (∃ a tl, lit "30.5,120" = a :: tl ∧ is_space a = false)
  ∧ (∃ z tl, lit "30.5,120" = tl ++ [z] ∧ is_space z = false).
Proof.
  apply (parseCoordinates_untrimmed (lit "30.5,120")
           {| lat := Some (Fin 30.5); lng := Some (Fin 120) |}).
  by vm_compute.
Defined.

(** ** Degrees without minutes and seconds *)

Lemma digits_no_deg D : digits D → deg ∉ D.
Proof.
  intros HD Hin. unfold digits in HD. rewrite Forall_forall in HD.
  apply HD in Hin. by vm_compute in Hin.
Qed.

Lemma lang_dms_token_after_deg g hemi w :
  lang false (dms_token_re g hemi) w →
  ∃ pre ws d tl,
    w = pre ++ [deg] ++ ws ++ d :: tl ∧ (deg ∉ pre) ∧ spaces ws
    ∧ is_digit d = true.
Proof.
  unfold dms_token_re, cat. cbn [foldr]. cbn [lang].
  intros (w1 & ? & -> & Hs & w2 & ? & -> & H2 & w3 & ? & -> & H3 & w4 & ? & -> & H4
          & w5 & rest5 & -> & H5 & _).
  change (lang false (Plus Digit) w2) in H2. apply lang_plus_digit in H2 as [_ H2].
  destruct H3 as (ch & -> & ->%char_eq_exact).
  change (lang false (Star Space) w4) in H4. apply lang_star_space in H4.
  change (lang false (Plus Digit) w5) in H5. apply lang_plus_digit in H5 as [Hne5 H5].
  destruct H5 as [|d w5 Hd _]; [done |].
  exists (w1 ++ w2), w4, d, (w5 ++ rest5). split; [| split; [| done]].
  - by rewrite <- !(assoc_L (++)).
  - rewrite not_elem_of_app. split; [| by apply digits_no_deg].
    destruct Hs as [-> | (ch & -> & ->%char_eq_exact)];
      [apply not_elem_of_nil | by intros [=]%list_elem_of_singleton].
Qed.

(** A DMS pair needs digits after its first degree sign: a text whose
    first degree sign is followed by anything but white space or a digit
    -- a hemisphere letter, as in degrees without minutes and seconds -- is
    not recognised by [parseCoordinates]. *)
Theorem parseCoordinates_needs_minutes (pre rest : str) (l : char) :
  deg ∉ pre → is_digit l = false → is_space l = false →
  parseCoordinates (pre ++ [deg] ++ [l] ++ rest) = None.
Proof.
  intros Hpre Hd Hs. rewrite parseCoordinates_unfold.
  rewrite dms_like_not_decimal
    by (rewrite !elem_of_app, list_elem_of_singleton; auto).
  destruct (str_match _ dms_pattern) as [m|] eqn:Hm; [exfalso | done].
  apply str_match_dms_pattern in Hm as (tok1 & sep & tok2 & Htext & Htok1 & _).
  apply lang_dms_token_after_deg in Htok1 as (p & ws & d & tl & -> & Hp & Hws & Hdig).
  assert (Heq : pre ++ deg :: (l :: rest) = p ++ deg :: (ws ++ d :: tl ++ sep ++ tok2)).
  { simpl in Htext. rewrite Htext. rewrite <- !(assoc_L (++)). simpl.
    by rewrite <- !(assoc_L (++)). }
  destruct (split_at_first deg _ _ _ _ Hpre Hp Heq) as [_ Heq'].
  destruct Hws as [|s ws Hsp _]; simpl in Heq'; injection Heq' as -> _; congruence.
Qed.

Lemma parseCoordinates_needs_minutes_witness :
  parseCoordinates (lit "30" ++ [deg] ++ [chr "N"] ++ lit ", 120" ++ [deg] ++ lit "E")
  = None.
Proof.
  apply (parseCoordinates_needs_minutes (lit "30")).
  - apply digits_no_deg. by repeat constructor.
  - done.
  - done.
Defined.

Lemma lang_parts_degrees_only D h :
  D ≠ [] → digits D → to_upper h ∈ lit "NSEW" →
  lang true (re_body dms_parts_pattern) (D ++ [deg; h]).
Proof.
  intros Hne HD Hh. unfold dms_parts_pattern, cat. cbn [re_body foldr]. cbn [lang].
  exists D, [deg; h]. split; [done |]. split.
  { change (lang true (Plus Digit) D). by apply lang_plus_digit. }
  exists [deg], [h]. split; [done |]. split; [by exists deg |].
  exists [], [h]. split; [done |]. split; [by exists [] |].
  exists [], [h]. split; [done |]. split; [by left |].
  exists [], [h]. split; [done |]. split; [by left |].
  exists [], [h]. split; [done |]. split; [by exists [] |].
  exists [], [h]. split; [done |]. split; [by left |].
  exists [], [h]. split; [done |]. split; [by left |].
  exists [], [h]. split; [done |]. split; [by exists [] |].
  exists [h], []. split; [done |]. split; [| done].
  assert (Hc : (to_upper h = 78 ∨ to_upper h = 83 ∨ to_upper h = 69 ∨ to_upper h = 87)%N).
  { revert Hh. unfold lit, chr. simpl. rewrite !elem_of_cons, elem_of_nil. tauto. }
  destruct Hc as [Hc | [Hc | [Hc | Hc]]]; [left | left | right | right];
    exists h; (split; [done |]); simpl; unfold char_eq; rewrite Hc; done.
Qed.

(** [parseDMS] itself reads degrees without minutes and seconds: for
    degree digits, the degree sign and a hemisphere letter in either case
    it returns the degrees, negated for S and W. *)
Theorem parseDMS_degrees_only (D : str) (h : char) :
  D ≠ [] → digits D → to_upper h ∈ lit "NSEW" →
  ∃ v, parseDMS (D ++ [deg; h]) = Some v
       ∧ num_eq v (Fin (if south_or_west h then - inject_Z (digits_val D)
                        else inject_Z (digits_val D))).
Proof.
  intros Hne HD Hh.
  pose proof (lang_parts_degrees_only D h Hne HD Hh) as Hlang.
  assert (H0 : is_Some (match_at dms_parts_pattern (D ++ [deg; h]) 0)).
  { apply (match_at_reaches _ _ _ (D ++ [deg; h]) []); [done | | done].
    by rewrite app_nil_r. }
  destruct (str_match_finds _ _ 0 ltac:(lia) H0) as [parts Hm].
  exists (dms_of_parts parts). unfold parseDMS. rewrite Hm. split; [done |].
  unfold str_match in Hm. apply search_first in Hm as (j & _ & Hj & Hmin).
  assert (j = 0) as ->.
  { destruct j as [|j]; [done |]. rewrite Hmin in H0 by lia. by destruct H0. }
  destruct (match_at_parts_token _ _ _ Hj) as (t & post & Hdrop & Hwf & Hval).
  rewrite drop_0 in Hdrop.
  assert (Heq : D ++ deg :: [h]
                = t_deg t ++ deg :: (t_ws1 t ++ t_min t
                    ++ (if t_quote t then lit "'" else []) ++ t_ws2 t
                    ++ from_option render [] (t_sec t)
                    ++ (if t_dquote t then [dquote] else []) ++ t_ws3 t
                    ++ [t_hemi t] ++ post)).
  { change (D ++ deg :: [h]) with (D ++ [deg; h]). rewrite Hdrop.
    unfold render_dms. by rewrite <- !(assoc_L (++)). }
  destruct Hwf as (HneD & HDt & Hw1 & HM & Hw2 & HS & Hw3 & Hht).
  destruct (split_at_first deg _ _ _ _ (digits_no_deg D HD) (digits_no_deg _ HDt) Heq)
    as [HDeq Hrest].
  assert (Hlen : length [h] = length (t_ws1 t ++ t_min t
                    ++ (if t_quote t then lit "'" else []) ++ t_ws2 t
                    ++ from_option render [] (t_sec t)
                    ++ (if t_dquote t then [dquote] else []) ++ t_ws3 t
                    ++ [t_hemi t] ++ post)) by by rewrite <- Hrest.
  rewrite !length_app in Hlen. simpl in Hlen.
  assert (Hmin0 : t_min t = []) by (destruct (t_min t); [done | simpl in Hlen; lia]).
  assert (Hsec0 : t_sec t = None).
  { destruct (t_sec t) as [d|] eqn:E; [| done]. exfalso.
    destruct (HS d eq_refl) as (Hwfd & _).
    destruct (wf_decimal_render_chars d Hwfd) as [Hned _].
    simpl in Hlen. destruct (render d); [done | simpl in Hlen; lia]. }
  assert (Hhemi : t_hemi t = h).
  { rewrite Hmin0, Hsec0 in Hrest.
    destruct (t_ws1 t); [| simpl in Hlen; lia].
    destruct (t_quote t); [simpl in Hlen; lia |].
    destruct (t_ws2 t); [| simpl in Hlen; lia].
    destruct (t_dquote t); [simpl in Hlen; lia |].
    destruct (t_ws3 t); [| simpl in Hlen; lia].
    simpl in Hrest. by injection Hrest as ->. }
  destruct (dms_of_parts parts) as [|q]; [done |]. simpl in Hval |- *.
  rewrite Hval. unfold dms_value. rewrite Hmin0, Hsec0, Hhemi, <- HDeq.
  cbv zeta. destruct (south_or_west h); field.
Qed.

Lemma parseDMS_degrees_only_witness :
  ∃ v, parseDMS (lit "30" ++ [deg; chr "s"]) = Some v
       ∧ num_eq v (Fin (if south_or_west (chr "s")
                        then - inject_Z (digits_val (lit "30"))
                        else inject_Z (digits_val (lit "30")))).
Proof.
  apply (parseDMS_degrees_only (lit "30") (chr "s")).
  - done.
  - by repeat constructor.
  - apply list_elem_of_In. vm_compute. auto 10.
Defined.

(** ** Existence of a match of an anchored pattern *)

(** A chain of anchor-free patterns closed by [$]. *)
Lemma cat_reaches_eol i (rs : list regex) :
  forallb anchor_free rs = true → ∀ w st,
  lang i (cat rs) w → rest st = w →
  ∃ st', st' ∈ matcher i (cat (rs ++ [Eol])) st.
Proof.
  unfold cat. induction rs as [|r rs IH]; intros Hrs w st Hw Hst.
  - simpl in Hw. subst w. exists st. cbn [app foldr matcher].
    rewrite Hst. simpl. set_solver.
  - simpl in Hrs. apply andb_true_iff in Hrs as [Hr Hrs].
    cbn [foldr lang] in Hw. destruct Hw as (w1 & w2 & -> & H1 & H2).
    destruct (matcher_reaches i r Hr w1 st w2 H1 Hst) as (st1 & Hin1 & Hrest1 & _).
    destruct (IH Hrs w2 st1 H2 Hrest1) as (st' & Hin').
    exists st'. cbn [app foldr matcher]. apply list_elem_of_bind. by exists st1.
Qed.

Lemma lang_opt_char_render i (c : char) (b : bool) :
  lang i (Opt (Char c)) (if b then [c] else []).
Proof.
  destruct b; [right | by left]. exists c. split; [done |].
  unfold char_eq. destruct i; by rewrite N.eqb_refl.
Qed.

Lemma sec_literal_parts i g d :
  sec_literal d →
  ∃ fr, render d = d_int d ++ fr
        ∧ lang i (Plus Digit) (d_int d)
        ∧ lang i (Opt (Group g (cat [Char (chr "."); Plus Digit]))) fr.
Proof.
  intros ((Hne & Hi & Hf & Hpt) & Hneg & Hfr).
  exists ((if d_point d then lit "." else []) ++ d_frac d).
  unfold render. rewrite Hneg. split; [done |].
  split; [by apply lang_plus_digit |].
  destruct (d_point d) eqn:Hp.
  - right. unfold cat. cbn [foldr lang].
    exists (lit "."), (d_frac d). split; [done |]. split.
    { exists (chr "."). split; [done |]. unfold char_eq. destruct i; by rewrite N.eqb_refl. }
    exists (d_frac d), []. split; [by rewrite app_nil_r |]. split; [| done].
    change (lang i (Plus Digit) (d_frac d)). apply lang_plus_digit. auto.
  - left. destruct (d_frac d) as [|c fr]; [done |].
    by specialize (Hpt ltac:(done)).
Qed.

(** A token with minute digits and a seconds literal, the parts the DMS
    pattern of [parseCoordinates] insists on. *)
Definition full_token (t : dms_token) : Prop :=
  t_min t ≠ [] ∧ is_Some (t_sec t).

Lemma lang_dms_token_render g hemi s t :
  sign_prefix s → wf_dms t → full_token t → t_hemi t ∈ hemi →
  lang false (dms_token_re g hemi) (s ++ render_dms t).
Proof.
  intros Hs (HneD & HD & Hw1 & HM & Hw2 & HS & Hw3 & _) [HneM [d Hd]] Hh.
  destruct (sec_literal_parts false g d (HS d Hd)) as (fr & Hr & Hint & Hfr).
  unfold render_dms. rewrite Hd. cbn [from_option]. rewrite Hr.
  unfold dms_token_re, cat. cbn [foldr]. cbn [lang].
  eexists s, _. split; [done |]. split.
  { destruct Hs as [-> | ->]; [by left | right]. by exists (chr "-"). }
  eexists (t_deg t), _. split; [done |]. split.
  { change (lang false (Plus Digit) (t_deg t)). by apply lang_plus_digit. }
  eexists [deg], _. split; [done |]. split; [by exists deg |].
  eexists (t_ws1 t), _. split; [done |]. split.
  { change (lang false (Star Space) (t_ws1 t)). by apply lang_star_space. }
  eexists (t_min t), _. split; [done |]. split.
  { change (lang false (Plus Digit) (t_min t)). by apply lang_plus_digit. }
  eexists (if t_quote t then lit "'" else []), _. split; [done |]. split.
  { apply (lang_opt_char_render false (chr "'")). }
  eexists (t_ws2 t), _. split; [done |]. split.
  { change (lang false (Star Space) (t_ws2 t)). by apply lang_star_space. }
  eexists (d_int d), _. split; [by rewrite <- !(assoc_L (++)) |]. split; [done |].
  eexists fr, _. split; [done |]. split; [done |].
  eexists (if t_dquote t then [dquote] else []), _. split; [done |]. split.
  { apply (lang_opt_char_render false dquote). }
  eexists (t_ws3 t), _. split; [done |]. split.
  { change (lang false (Star Space) (t_ws3 t)). by apply lang_star_space. }
  exists [t_hemi t], []. split; [done |]. split; [| done].
  exists (t_hemi t). split; [done |].
  apply existsb_exists. exists (t_hemi t). split; [by apply list_elem_of_In |].
  by apply char_eq_exact.
Qed.

Lemma lang_parts_render t :
  wf_dms t → lang true (re_body dms_parts_pattern) (render_dms t).
Proof.
  intros (HneD & HD & Hw1 & HM & Hw2 & HS & Hw3 & Hh).
  unfold render_dms, dms_parts_pattern, cat. cbn [re_body foldr]. cbn [lang].
  eexists (t_deg t), _. split; [done |]. split.
  { change (lang true (Plus Digit) (t_deg t)). by apply lang_plus_digit. }
  eexists [deg], _. split; [done |]. split; [by exists deg |].
  eexists (t_ws1 t), _. split; [done |]. split.
  { change (lang true (Star Space) (t_ws1 t)). by apply lang_star_space. }
  eexists (t_min t), _. split; [done |]. split.
  { destruct (t_min t) as [|c M]; [by left | right].
    change (lang true (Plus Digit) (c :: M)). by apply lang_plus_digit. }
  eexists (if t_quote t then lit "'" else []), _. split; [done |]. split.
  { apply (lang_opt_char_render true (chr "'")). }
  eexists (t_ws2 t), _. split; [done |]. split.
  { change (lang true (Star Space) (t_ws2 t)). by apply lang_star_space. }
  eexists (from_option render [] (t_sec t)), _. split; [done |]. split.
  { destruct (t_sec t) as [d|] eqn:E; [right | by left]. cbn [from_option].
    destruct (sec_literal_parts true 4 d (HS d eq_refl)) as (fr & Hr & Hint & Hfr).
    exists (d_int d), (fr ++ []). split; [by rewrite app_nil_r |]. split; [done |].
    exists fr, []. done. }
  eexists (if t_dquote t then [dquote] else []), _. split; [done |]. split.
  { apply (lang_opt_char_render true dquote). }
  eexists (t_ws3 t), _. split; [done |]. split.
  { change (lang true (Star Space) (t_ws3 t)). by apply lang_star_space. }
  exists [t_hemi t], []. split; [done |]. split; [| done].
  assert (Hc : (to_upper (t_hemi t) = 78 ∨ to_upper (t_hemi t) = 83
                ∨ to_upper (t_hemi t) = 69 ∨ to_upper (t_hemi t) = 87)%N).
  { revert Hh. unfold lit, chr. simpl. rewrite !elem_of_cons, elem_of_nil. tauto. }
  destruct Hc as [Hc | [Hc | [Hc | Hc]]]; [left | left | right | right];
    exists (t_hemi t); (split; [done |]); simpl; unfold char_eq; rewrite Hc; done.
Qed.

(** ** Reading a rendered token back *)

Lemma class_not_elem (p : char → bool) (c : char) (w : str) :
  Forall (λ x, p x = true) w → p c = false → c ∉ w.
Proof.
  intros Hw Hc Hin. rewrite Forall_forall in Hw. apply Hw in Hin. congruence.
Qed.

(** The code units of a seconds literal. *)
Definition sec_char (c : char) : bool := is_digit c || (c =? chr ".")%N.

Lemma sec_literal_chars d :
  sec_literal d →
  render d ≠ [] ∧ Forall (λ c, sec_char c = true) (render d)
  ∧ stops is_space (render d).
Proof.
  intros ((Hne & Hi & Hf & _) & Hneg & _). unfold render. rewrite Hneg. simpl.
  assert (Hd : ∀ w, digits w → Forall (λ c, sec_char c = true) w).
  { intros w Hw. eapply Forall_impl; [exact Hw |].
    intros c Hc. unfold sec_char. by rewrite Hc. }
  split_and!.
  - by destruct (d_int d).
  - rewrite !Forall_app. split_and!; auto.
    destruct (d_point d); by repeat constructor.
  - destruct Hi as [|c w Hc _]; [done |]. simpl. by apply digit_not_space.
Qed.

Lemma seconds_read_back (ws2 S ws3 : str) (dq : bool) (h : char) :
  spaces ws2 → spaces ws3 → Forall (λ c, sec_char c = true) S → stops is_space S →
  dms_body_char h = false →
  take_while sec_char
    (drop_while is_space
       (ws2 ++ S ++ (if dq then [dquote] else []) ++ ws3 ++ [h])) = S.
Proof.
  intros Hw2 Hw3 HS Hstop Hh.
  assert (Hh' : is_space h = false ∧ sec_char h = false).
  { revert Hh. unfold dms_body_char, sec_char.
    rewrite !orb_false_iff, bool_decide_eq_false, !elem_of_cons, N.eqb_neq.
    intros [[-> ->] Hn]. split; [done |]. split; [done |]. intros ->. tauto. }
  destruct Hh' as [Hhs Hhc].
  assert (Hsec : stops sec_char ((if dq then [dquote] else []) ++ ws3 ++ [h])).
  { destruct dq; [done |]. destruct Hw3 as [|c ws3 Hc _]; simpl; [done |].
    destruct (sec_char c) eqn:E; [| done].
    assert (Hn : num_char c = true).
    { revert E. unfold sec_char, num_char. rewrite !orb_true_iff. tauto. }
    apply num_char_not_space in Hn. congruence. }
  destruct S as [|c S].
  - simpl. destruct dq.
    + rewrite drop_while_app by done. done.
    + simpl. rewrite (assoc_L (++)), drop_while_app;
        [| by apply Forall_app | done].
      simpl. by rewrite Hhc.
  - rewrite drop_while_app by done. by rewrite take_while_app.
Qed.

Lemma seconds_value_eq (s s' : option decimal) :
  (∀ d, s = Some d → sec_literal d) → (∀ d, s' = Some d → sec_literal d) →
  from_option render [] s = from_option render [] s' →
  (match s with None => 0 | Some d => dec_value d end
   == match s' with None => 0 | Some d => dec_value d end)%Q.
Proof.
  intros Hs Hs' Heq. destruct s as [d|], s' as [d'|]; simpl in Heq.
  - destruct (Hs d eq_refl) as (Hwf & _). destruct (Hs' d' eq_refl) as (Hwf' & _).
    pose proof (parseFloat_render d Hwf) as H. pose proof (parseFloat_render d' Hwf') as H'.
    rewrite Heq in H. destruct (parseFloat (render d')) as [|q]; [done |].
    simpl in H, H'. by rewrite <- H, <- H'.
  - destruct (Hs d eq_refl) as (Hwf & _).
    by destruct (wf_decimal_render_chars d Hwf).
  - destruct (Hs' d' eq_refl) as (Hwf & _).
    by destruct (wf_decimal_render_chars d' Hwf).
  - reflexivity.
Qed.

(** A token with its minute mark is read back in one way only: a token
    that renders to a prefix of its text renders to all of it and has the
    same value. *)
Lemma render_dms_marked_value t t' post :
  wf_dms t → wf_dms t' → t_quote t = true →
  render_dms t = render_dms t' ++ post →
  post = [] ∧ (dms_value t' == dms_value t)%Q.
Proof.
  intros Hwf Hwf' Hq Heq.
  destruct (render_dms_body t Hwf) as (body & Hr & Hbody).
  destruct (render_dms_body t' Hwf') as (body' & Hr' & Hbody').
  pose proof (proj1 (hemisphere_letter_not_body (t_hemi t) ltac:(apply Hwf))) as Hh.
  pose proof (proj1 (hemisphere_letter_not_body (t_hemi t') ltac:(apply Hwf'))) as Hh'.
  assert (Hsplit : body = body' ∧ [t_hemi t] = t_hemi t' :: post).
  { apply (split_after_class dms_body_char); try done.
    rewrite <- Hr, Heq, Hr'. by rewrite <- !(assoc_L (++)). }
  destruct Hsplit as [_ [= Hhemi <-]]. split; [done |].
  rewrite app_nil_r in Heq. clear body body' Hr Hr' Hbody Hbody'.
  destruct Hwf as (HneD & HD & Hw1 & HM & Hw2 & HS & Hw3 & Hht).
  destruct Hwf' as (HneD' & HD' & Hw1' & HM' & Hw2' & HS' & Hw3' & Hht').
  unfold render_dms in Heq. rewrite Hq in Heq.
  (* the degrees *)
  destruct (split_at_first deg (t_deg t) _ (t_deg t') _
              (digits_no_deg _ HD) (digits_no_deg _ HD') Heq) as [Hdeg Heq1].
  (* the minute mark *)
  set (X := t_ws2 t ++ from_option render [] (t_sec t)
            ++ (if t_dquote t then [dquote] else []) ++ t_ws3 t ++ [t_hemi t]) in *.
  set (X' := t_ws2 t' ++ from_option render [] (t_sec t')
             ++ (if t_dquote t' then [dquote] else []) ++ t_ws3 t' ++ [t_hemi t']) in *.
  assert (Hsec' : Forall (λ c, sec_char c = true) (from_option render [] (t_sec t'))
                  ∧ stops is_space (from_option render [] (t_sec t'))).
  { destruct (t_sec t') as [d|]; [| by split]. simpl.
    by destruct (sec_literal_chars d (HS' d eq_refl)) as (_ & ? & ?). }
  assert (Hsec : Forall (λ c, sec_char c = true) (from_option render [] (t_sec t))
                 ∧ stops is_space (from_option render [] (t_sec t))).
  { destruct (t_sec t) as [d|]; [| by split]. simpl.
    by destruct (sec_literal_chars d (HS d eq_refl)) as (_ & ? & ?). }
  assert (Hq' : t_quote t' = true).
  { destruct (t_quote t') eqn:E; [done |]. exfalso.
    assert (Hin : chr "'" ∈ t_ws1 t' ++ t_min t' ++ [] ++ X').
    { rewrite <- Heq1. rewrite !elem_of_app. right. right. left. by left. }
    unfold X' in Hin. rewrite !elem_of_app in Hin.
    destruct Hin as [Hin | [Hin | [Hin | [Hin | [Hin | [Hin | [Hin | Hin]]]]]]].
    - by apply (class_not_elem is_space) in Hin.
    - by apply (class_not_elem is_digit) in Hin.
    - by apply elem_of_nil in Hin.
    - by apply (class_not_elem is_space) in Hin.
    - by apply (class_not_elem sec_char) in Hin; [| apply Hsec' |].
    - destruct (t_dquote t'); [| by apply elem_of_nil in Hin].
      by apply list_elem_of_singleton in Hin.
    - by apply (class_not_elem is_space) in Hin.
    - apply list_elem_of_singleton in Hin. rewrite <- Hin in Hh'. done. }
  rewrite Hq' in Heq1.
  assert (Hnq : ∀ ws M, spaces ws → digits M → chr "'" ∉ ws ++ M).
  { intros ws M Hws HMd. rewrite not_elem_of_app. split.
    - by apply (class_not_elem is_space).
    - by apply (class_not_elem is_digit). }
  assert (Heq2 : (t_ws1 t ++ t_min t) ++ chr "'" :: X
                 = (t_ws1 t' ++ t_min t') ++ chr "'" :: X').
  { rewrite <- !(assoc_L (++)). exact Heq1. }
  destruct (split_at_first (chr "'") _ _ _ _ (Hnq _ _ Hw1 HM) (Hnq _ _ Hw1' HM') Heq2)
    as [Hmin HX].
  assert (Hstopd : ∀ M, digits M → stops is_space M).
  { intros M HMd. destruct HMd as [|c M Hc _]; [done |]. simpl.
    by apply digit_not_space. }
  destruct (split_after_class is_space _ _ _ _ Hw1 Hw1' (Hstopd _ HM) (Hstopd _ HM') Hmin)
    as [_ HMeq].
  (* the seconds *)
  assert (HSeq : from_option render [] (t_sec t) = from_option render [] (t_sec t')).
  { rewrite <- (seconds_read_back (t_ws2 t) _ (t_ws3 t) (t_dquote t) (t_hemi t));
      [| done | done | apply Hsec | apply Hsec | done].
    rewrite <- (seconds_read_back (t_ws2 t') (from_option render [] (t_sec t'))
                 (t_ws3 t') (t_dquote t') (t_hemi t'));
      [| done | done | apply Hsec' | apply Hsec' | done].
    fold X X'. by rewrite HX. }
  pose proof (seconds_value_eq _ _ HS HS' HSeq) as Hval.
  unfold dms_value. rewrite <- Hdeg, <- HMeq, <- Hhemi. cbv zeta.
  destruct (south_or_west (t_hemi t)); rewrite Hval; reflexivity.
Qed.

(** [parseDMS] reads back a token it is given: for a token with its minute
    mark, whatever stands before it without a digit (a minus sign, say),
    the result is the value of the token: degrees + minutes/60 +
    seconds/3600, negated for S and W. *)
Theorem parseDMS_marked_token (pre : str) (t : dms_token) :
  Forall (λ c, is_digit c = false) pre → wf_dms t → t_quote t = true →
  ∃ v, parseDMS (pre ++ render_dms t) = Some v ∧ num_eq v (Fin (dms_value t)).
Proof.
  intros Hpre Hwf Hq.
  assert (H0 : is_Some (match_at dms_parts_pattern (pre ++ render_dms t) (length pre))).
  { apply (match_at_reaches _ _ _ (render_dms t) []); [done | |].
    - by rewrite drop_app_length, app_nil_r.
    - by apply lang_parts_render. }
  assert (Hlen : length pre ≤ length (pre ++ render_dms t))
    by (rewrite length_app; lia).
  destruct (str_match_finds _ _ (length pre) Hlen H0) as [parts Hm].
  exists (dms_of_parts parts). unfold parseDMS. rewrite Hm. split; [done |].
  unfold str_match in Hm. apply search_first in Hm as (j & _ & Hj & Hmin).
  assert (Hjk : j ≤ length pre).
  { destruct (decide (j ≤ length pre)) as [|Hgt]; [done |].
    rewrite Hmin in H0 by lia. by destruct H0. }
  destruct (match_at_parts_token _ _ _ Hj) as (t' & post & Hdrop & Hwf' & Hval).
  destruct (render_dms_head t' Hwf') as (c0 & tl0 & Hhead & Hc0).
  assert (j = length pre) as ->.
  { destruct (decide (j = length pre)) as [|Hne]; [done |]. exfalso.
    rewrite drop_app_le in Hdrop by lia.
    destruct (drop j pre) as [|p0 pr] eqn:E.
    { apply (f_equal length) in E. rewrite length_drop in E. simpl in E. lia. }
    assert (Hp0 : is_digit p0 = false).
    { assert (Hin : p0 ∈ pre).
      { rewrite <- (take_drop j pre), E, elem_of_app. right. by left. }
      rewrite Forall_forall in Hpre. by apply Hpre. }
    rewrite Hhead in Hdrop. simpl in Hdrop. injection Hdrop as -> _. congruence. }
  rewrite drop_app_length in Hdrop.
  destruct (render_dms_marked_value t t' post Hwf Hwf' Hq Hdrop) as [_ Hv].
  destruct (dms_of_parts parts) as [|q]; [done |]. simpl in Hval |- *.
  by rewrite Hval.
Qed.

(** ** DMS pairs [parseCoordinates] accepts *)

(** A token as the DMS pattern wants it, with its minute mark: minute
    digits, the mark, a seconds literal, and a hemisphere letter of the
    given set. *)
Definition pair_token (hemi : list char) (t : dms_token) : Prop :=
  wf_dms t ∧ full_token t ∧ t_quote t = true ∧ t_hemi t ∈ hemi.

Lemma sign_split (s s' x x' : str) :
  sign_prefix s → sign_prefix s' →
  (∃ c tl, x = c :: tl ∧ is_digit c = true) →
  (∃ c tl, x' = c :: tl ∧ is_digit c = true) →
  s ++ x = s' ++ x' → s = s' ∧ x = x'.
Proof.
  intros Hs Hs' (c & tl & -> & Hc) (c' & tl' & -> & Hc') Heq.
  apply (split_after_class (λ ch, (ch =? chr "-")%N)); try done.
  - destruct Hs as [-> | ->]; by repeat constructor.
  - destruct Hs' as [-> | ->]; by repeat constructor.
  - simpl. apply N.eqb_neq. intros ->. by vm_compute in Hc.
  - simpl. apply N.eqb_neq. intros ->. by vm_compute in Hc'.
Qed.

Lemma signed_token_stops s t :
  sign_prefix s → wf_dms t →
  stops (λ c, is_space c || (c =? chr ",")%N) (s ++ render_dms t).
Proof.
  intros Hs Hwf. destruct (render_dms_head t Hwf) as (c & tl & -> & Hc).
  destruct Hs as [-> | ->]; simpl; [| done].
  rewrite (digit_not_space c Hc). simpl. apply N.eqb_neq. intros ->.
  by vm_compute in Hc.
Qed.

Lemma dms_pair_unique s1 t1 sep s2 t2 s1' t1' sep' s2' t2' :
  sign_prefix s1 → sign_prefix s2 → sign_prefix s1' → sign_prefix s2' →
  wf_dms t1 → wf_dms t2 → wf_dms t1' → wf_dms t2' →
  separator sep → separator sep' →
  s1 ++ render_dms t1 ++ sep ++ s2 ++ render_dms t2
  = s1' ++ render_dms t1' ++ sep' ++ s2' ++ render_dms t2' →
  render_dms t1 = render_dms t1' ∧ render_dms t2 = render_dms t2'.
Proof.
  intros Hs1 Hs2 Hs1' Hs2' Hwf1 Hwf2 Hwf1' Hwf2' Hsep Hsep' Heq.
  destruct (render_dms_body t1 Hwf1) as (b1 & Hr1 & Hb1).
  destruct (render_dms_body t1' Hwf1') as (b1' & Hr1' & Hb1').
  pose proof (proj1 (hemisphere_letter_not_body (t_hemi t1) ltac:(apply Hwf1))) as Hh.
  pose proof (proj1 (hemisphere_letter_not_body (t_hemi t1') ltac:(apply Hwf1'))) as Hh'.
  assert (Heq1 : s1 ++ (render_dms t1 ++ sep ++ s2 ++ render_dms t2)
                 = s1' ++ (render_dms t1' ++ sep' ++ s2' ++ render_dms t2')) by done.
  apply sign_split in Heq1 as [_ Heq1]; try done.
  2:{ destruct (render_dms_head t1 Hwf1) as (c & tl & -> & Hc). by eexists c, _. }
  2:{ destruct (render_dms_head t1' Hwf1') as (c & tl & -> & Hc). by eexists c, _. }
  assert (Heq2 : b1 ++ t_hemi t1 :: (sep ++ s2 ++ render_dms t2)
                 = b1' ++ t_hemi t1' :: (sep' ++ s2' ++ render_dms t2')).
  { rewrite Hr1, Hr1' in Heq1. by rewrite <- !(assoc_L (++)) in Heq1. }
  apply (split_after_class dms_body_char) in Heq2 as [-> [= Hhemi Heq3]]; try done.
  split; [by rewrite Hr1, Hr1', Hhemi |].
  assert (Heq4 : sep ++ (s2 ++ render_dms t2) = sep' ++ (s2' ++ render_dms t2')) by done.
  apply (split_after_class (λ c, is_space c || (c =? chr ",")%N)) in Heq4
    as [_ Heq4]; auto using signed_token_stops.
  apply sign_split in Heq4 as [_ Heq4]; auto using render_dms_head.
Qed.

Lemma coord_is_proper c x y x' y' :
  (x' == x)%Q → (y' == y)%Q → coord_is c x' y' → coord_is c x y.
Proof.
  intros Hx Hy (a & b & Ha & Hb & Hax & Hby). exists a, b. split_and!; try done.
  - destruct a; [done |]. simpl in *. by rewrite Hax.
  - destruct b; [done |]. simpl in *. by rewrite Hby.
Qed.

Lemma pair_separator_separator ws (comma : bool) ws' :
  spaces ws → spaces ws' →
  separator (ws ++ (if comma then lit "," else []) ++ ws').
Proof.
  intros Hws Hws'. unfold separator. rewrite !Forall_app. split_and!.
  - eapply Forall_impl; [exact Hws |]. by intros c ->.
  - destruct comma; by repeat constructor.
  - eapply Forall_impl; [exact Hws' |]. by intros c ->.
Qed.

Lemma str_match_dms_pair s1 t1 ws (comma : bool) ws' s2 t2 :
  sign_prefix s1 → sign_prefix s2 →
  wf_dms t1 → full_token t1 → t_hemi t1 ∈ lit "NS" →
  wf_dms t2 → full_token t2 → t_hemi t2 ∈ lit "EW" →
  spaces ws → spaces ws' →
  is_Some (str_match (s1 ++ render_dms t1 ++ ws ++ (if comma then lit "," else [])
                      ++ ws' ++ s2 ++ render_dms t2) dms_pattern).
Proof.
  intros Hs1 Hs2 Hwf1 Hf1 Hh1 Hwf2 Hf2 Hh2 Hws Hws'.
  set (text := s1 ++ render_dms t1 ++ ws ++ (if comma then lit "," else [])
               ++ ws' ++ s2 ++ render_dms t2).
  pose (rs := [Group 1 (dms_token_re 2 (lit "NS")); Star Space;
               Opt (Char (chr ",")); Star Space;
               Group 3 (dms_token_re 4 (lit "EW"))]).
  assert (Hlang : lang false (cat rs) text).
  { unfold rs, cat. cbn [foldr]. cbn [lang].
    exists (s1 ++ render_dms t1),
      (ws ++ (if comma then lit "," else []) ++ ws' ++ s2 ++ render_dms t2).
    split; [by unfold text; rewrite <- !(assoc_L (++)) |].
    split; [by apply lang_dms_token_render |].
    eexists ws, _. split; [done |]. split.
    { change (lang false (Star Space) ws). by apply lang_star_space. }
    eexists (if comma then lit "," else []), _. split; [done |]. split.
    { apply (lang_opt_char_render false (chr ",")). }
    eexists ws', _. split; [done |]. split.
    { change (lang false (Star Space) ws'). by apply lang_star_space. }
    exists (s2 ++ render_dms t2), []. split; [by rewrite app_nil_r |].
    split; [by apply lang_dms_token_render | done]. }
  destruct (cat_reaches_eol false rs eq_refl text
              (MState 0 text (replicate 5 None)) Hlang eq_refl) as (st' & Hin).
  apply (str_match_finds _ _ 0); [lia |].
  unfold match_at.
  change (re_body dms_pattern) with (Seq Bol (cat (rs ++ [Eol]))).
  change (re_ignoreCase dms_pattern) with false.
  change (drop 0 text) with text.
  change (replicate _ _) with (replicate 5 (@None str)).
  assert (Hin' : st' ∈ matcher false (Seq Bol (cat (rs ++ [Eol])))
                        (MState 0 text (replicate 5 None))).
  { apply elem_of_matcher_seq. exists (MState 0 text (replicate 5 None)).
    split; [by apply elem_of_matcher_bol | done]. }
  destruct (matcher false (Seq Bol (cat (rs ++ [Eol]))) _);
    [by apply elem_of_nil in Hin' | done].
Qed.

Lemma parseCoordinates_dms_cases (text : str) (c : Coordinates) :
  parseCoordinates text = Some c → deg ∈ text →
  ∃ s1 t1 sep s2 t2,
    sign_prefix s1 ∧ sign_prefix s2 ∧ wf_dms t1 ∧ wf_dms t2 ∧ separator sep
    ∧ t_hemi t1 ∈ lit "NS" ∧ t_hemi t2 ∈ lit "EW"
    ∧ text = s1 ++ render_dms t1 ++ sep ++ s2 ++ render_dms t2
    ∧ coord_is c (dms_value t1) (dms_value t2).
Proof.
  intros Hparse Hdeg.
  destruct (parseCoordinates_success_cases _ _ Hparse)
    as [(d1 & ws0 & d2 & Hd1 & Hd2 & Hws0 & Hdec & _) | H]; [exfalso | done].
  apply dms_like_not_decimal in Hdeg.
  assert (H : str_match text decimal_pattern
              = Some [Some text; Some (render d1); Some (render d2)]).
  { apply str_match_decimal_pattern. exists (render d1), ws0, (render d2).
    auto using lang_num_re_render. }
  congruence.
Qed.

(** A DMS pair with minute marks is recognised, and the coordinate
    returned holds the values of its two tokens: degrees + minutes/60 +
    seconds/3600, negated for S and W.  The first token has hemisphere N
    or S, the second E or W; white space and at most one comma stand
    between them, and a minus sign before the degrees changes nothing. *)
Theorem parseCoordinates_dms_pair s1 t1 ws (comma : bool) ws' s2 t2 :
  sign_prefix s1 → sign_prefix s2 →
  pair_token (lit "NS") t1 → pair_token (lit "EW") t2 →
  spaces ws → spaces ws' →
  ∃ c, parseCoordinates (s1 ++ render_dms t1 ++ ws ++ (if comma then lit "," else [])
                         ++ ws' ++ s2 ++ render_dms t2) = Some c
       ∧ coord_is c (dms_value t1) (dms_value t2).
Proof.
  intros Hs1 Hs2 (Hwf1 & Hf1 & Hq1 & Hh1) (Hwf2 & Hf2 & Hq2 & Hh2) Hws Hws'.
  destruct (str_match_dms_pair s1 t1 ws comma ws' s2 t2) as [m Hm]; try done.
  pose proof (pair_separator_separator ws comma ws' Hws Hws') as Hsep.
  set (sep := ws ++ (if comma then lit "," else []) ++ ws') in *.
  assert (Htext : s1 ++ render_dms t1 ++ ws ++ (if comma then lit "," else [])
                  ++ ws' ++ s2 ++ render_dms t2
                  = s1 ++ render_dms t1 ++ sep ++ s2 ++ render_dms t2).
  { unfold sep. by rewrite <- !(assoc_L (++)). }
  rewrite Htext in Hm |- *.
  set (text := s1 ++ render_dms t1 ++ sep ++ s2 ++ render_dms t2) in *.
  assert (Hdeg : deg ∈ text).
  { unfold text, render_dms. rewrite !elem_of_app, list_elem_of_singleton. tauto. }
  assert (Hparse : parseCoordinates text
                   = Some {| lat := group m 1 ≫= parseDMS;
                             lng := group m 3 ≫= parseDMS |}).
  { rewrite parseCoordinates_unfold, (dms_like_not_decimal text Hdeg). by rewrite Hm. }
  eexists. split; [exact Hparse |].
  destruct (parseCoordinates_dms_cases _ _ Hparse Hdeg)
    as (s1' & t1' & sep' & s2' & t2' & Hs1' & Hs2' & Hwf1' & Hwf2' & Hsep' & _ & _
        & Heq & Hc).
  destruct (dms_pair_unique s1 t1 sep s2 t2 s1' t1' sep' s2' t2') as [Hr1 Hr2];
    try done.
  destruct (render_dms_marked_value t1 t1' [] Hwf1 Hwf1' Hq1) as [_ Hv1];
    [by rewrite app_nil_r |].
  destruct (render_dms_marked_value t2 t2' [] Hwf2 Hwf2' Hq2) as [_ Hv2];
    [by rewrite app_nil_r |].
  by apply (coord_is_proper _ _ _ _ _ Hv1 Hv2).
Qed.

(** Sample tokens: 30 degrees 21 minutes 20 seconds north, and 120 degrees
    1 minute 26.5 seconds west. *)
Definition token_lat : dms_token :=
  DmsToken (lit "30") [] (lit "21") true []
           (Some (Decimal false (lit "20") false [])) true [] (chr "N").
Definition token_lng : dms_token :=
  DmsToken (lit "120") [] (lit "1") true (lit " ")
           (Some (Decimal false (lit "26") true (lit "5"))) true [] (chr "W").

Lemma token_lat_pair : pair_token (lit "NS") token_lat.
Proof.
  assert (Hin : ∀ (c : char) (l : list char), bool_decide (c ∈ l) = true → c ∈ l).
  { intros c l. by rewrite bool_decide_eq_true. }
  unfold pair_token, wf_dms, full_token.
  split_and!; try done; try (by repeat constructor); try (by apply Hin).
  intros d [= <-]. split_and!; try done; by repeat constructor.
Qed.

Lemma token_lng_pair : pair_token (lit "EW") token_lng.
Proof.
  assert (Hin : ∀ (c : char) (l : list char), bool_decide (c ∈ l) = true → c ∈ l).
  { intros c l. by rewrite bool_decide_eq_true. }
  unfold pair_token, wf_dms, full_token.
  split_and!; try done; try (by repeat constructor); try (by apply Hin).
  intros d [= <-]. split_and!; try done; by repeat constructor.
Qed.

Lemma parseDMS_marked_token_witness :
  ∃ v, parseDMS (lit "lat -" ++ render_dms token_lng) = Some v
       ∧ num_eq v (Fin (dms_value token_lng)).
Proof.
  apply (parseDMS_marked_token (lit "lat -") token_lng).
  - by repeat constructor.
  - apply token_lng_pair.
  - done.
Defined.

Lemma parseCoordinates_dms_pair_witness :
  ∃ c, parseCoordinates (lit "-" ++ render_dms token_lat ++ lit " "
                         ++ (if true then lit "," else []) ++ lit " "
                         ++ [] ++ render_dms token_lng) = Some c
       ∧ coord_is c (dms_value token_lat) (dms_value token_lng).
Proof.
  apply (parseCoordinates_dms_pair (lit "-") token_lat (lit " ") true (lit " ")
           [] token_lng).
  - by right.
  - by left.
  - apply token_lat_pair.
  - apply token_lng_pair.
  - by repeat constructor.
  - by repeat constructor.
Defined.

(** A text that begins with a DMS token whose hemisphere letter is not N
    or S -- E or W as in a pair written longitude first, or a letter in
    lower case -- is not recognised: the two numbers are never swapped. *)
Theorem parseCoordinates_latitude_first (s : str) (t : dms_token) (rest : str) :
  sign_prefix s → wf_dms t → t_hemi t ∉ lit "NS" →
  parseCoordinates (s ++ render_dms t ++ rest) = None.
Proof.
  intros Hs Hwf Hh.
  destruct (parseCoordinates (s ++ render_dms t ++ rest)) as [c|] eqn:Hparse;
    [exfalso | done].
  assert (Hdeg : deg ∈ s ++ render_dms t ++ rest).
  { unfold render_dms. rewrite !elem_of_app, list_elem_of_singleton. tauto. }
  destruct (parseCoordinates_dms_cases _ _ Hparse Hdeg)
    as (s1' & t1' & sep' & s2' & t2' & Hs1' & _ & Hwf1' & _ & _ & Hh1' & _ & Heq & _).
  apply sign_split in Heq as [_ Heq]; try done.
  2:{ destruct (render_dms_head t Hwf) as (c0 & tl & -> & Hc). by eexists c0, _. }
  2:{ destruct (render_dms_head t1' Hwf1') as (c0 & tl & -> & Hc). by eexists c0, _. }
  destruct (render_dms_body t Hwf) as (b & Hr & Hb).
  destruct (render_dms_body t1' Hwf1') as (b' & Hr' & Hb').
  pose proof (proj1 (hemisphere_letter_not_body (t_hemi t) ltac:(apply Hwf))) as Hl.
  pose proof (proj1 (hemisphere_letter_not_body (t_hemi t1') ltac:(apply Hwf1'))) as Hl'.
  assert (Heq2 : b ++ t_hemi t :: rest
                 = b' ++ t_hemi t1' :: (sep' ++ s2' ++ render_dms t2')).
  { rewrite Hr, Hr' in Heq. by rewrite <- !(assoc_L (++)) in Heq. }
  apply (split_after_class dms_body_char) in Heq2 as [_ [= Hhemi _]]; try done.
  by rewrite Hhemi in Hh.
Qed.

Lemma parseCoordinates_latitude_first_witness :
  parseCoordinates ([] ++ render_dms token_lng ++ lit ", " ++ render_dms token_lat)
  = None.
Proof.
  apply (parseCoordinates_latitude_first [] token_lng).
  - by left.
  - apply token_lng_pair.
  - intros H. repeat (apply elem_of_cons in H as [H | H]; [by vm_compute in H |]).
    by apply elem_of_nil in H.
Defined.

(** ** Tokens that read one way only *)

(** A token whose text splits into degrees, minutes and seconds in one way
    only: its minute mark is there, or it has neither minutes nor
    seconds. *)
Definition single_reading (t : dms_token) : Prop :=
  t_quote t = true ∨ (t_min t = [] ∧ t_sec t = None).

(** A token without minutes and seconds is read back in one way only. *)
Lemma render_dms_bare_value t t' post :
  wf_dms t → wf_dms t' → t_min t = [] → t_sec t = None →
  render_dms t = render_dms t' ++ post →
  post = [] ∧ (dms_value t' == dms_value t)%Q.
Proof.
  intros Hwf Hwf' HM0 HS0 Heq.
  destruct (render_dms_body t Hwf) as (body & Hr & Hbody).
  destruct (render_dms_body t' Hwf') as (body' & Hr' & Hbody').
  destruct (hemisphere_letter_not_body (t_hemi t) ltac:(apply Hwf)) as [Hh Hhd].
  pose proof (proj1 (hemisphere_letter_not_body (t_hemi t') ltac:(apply Hwf'))) as Hh'.
  assert (Hsplit : body = body' ∧ [t_hemi t] = t_hemi t' :: post).
  { apply (split_after_class dms_body_char); try done.
    rewrite <- Hr, Heq, Hr'. by rewrite <- !(assoc_L (++)). }
  destruct Hsplit as [_ [= Hhemi <-]]. split; [done |].
  rewrite app_nil_r in Heq. clear body body' Hr Hr' Hbody Hbody'.
  destruct Hwf as (HneD & HD & Hw1 & HM & Hw2 & HS & Hw3 & Hht).
  destruct Hwf' as (HneD' & HD' & Hw1' & HM' & Hw2' & HS' & Hw3' & Hht').
  unfold render_dms in Heq. rewrite HM0, HS0 in Heq. cbn [from_option] in Heq.
  destruct (split_at_first deg (t_deg t) _ (t_deg t') _
              (digits_no_deg _ HD) (digits_no_deg _ HD') Heq) as [Hdeg Heq1].
  (* no digit after the degree sign *)
  assert (Hnodigit : ∀ c, c ∈ t_ws1 t ++ [] ++ (if t_quote t then lit "'" else [])
                            ++ t_ws2 t ++ [] ++ (if t_dquote t then [dquote] else [])
                            ++ t_ws3 t ++ [t_hemi t] → is_digit c = false).
  { assert (Hsp : ∀ ws c, spaces ws → c ∈ ws → is_digit c = false).
    { intros ws c Hws Hc. unfold spaces in Hws. rewrite Forall_forall in Hws.
      apply Hws in Hc. destruct (is_digit c) eqn:E; [| done].
      apply digit_not_space in E. congruence. }
    intros c. rewrite !elem_of_app.
    intros [Hc | [Hc | [Hc | [Hc | [Hc | [Hc | [Hc | Hc]]]]]]]; eauto.
    - by apply elem_of_nil in Hc.
    - destruct (t_quote t); [| by apply elem_of_nil in Hc].
      by apply list_elem_of_singleton in Hc as ->.
    - by apply elem_of_nil in Hc.
    - destruct (t_dquote t); [| by apply elem_of_nil in Hc].
      by apply list_elem_of_singleton in Hc as ->.
    - by apply list_elem_of_singleton in Hc as ->. }
  rewrite Heq1 in Hnodigit.
  assert (HM0' : t_min t' = []).
  { destruct (t_min t') as [|c M] eqn:E; [done |]. exfalso.
    apply Forall_cons in HM' as [Hc _].
    rewrite (Hnodigit c) in Hc; [done |].
    rewrite !elem_of_app. right. left. by left. }
  assert (HS0' : t_sec t' = None).
  { destruct (t_sec t') as [d|] eqn:E; [| done]. exfalso.
    destruct (HS' d eq_refl) as ((Hne & Hi & _) & Hneg & _).
    destruct (d_int d) as [|c di] eqn:Ei; [done |].
    apply Forall_cons in Hi as [Hc _].
    rewrite (Hnodigit c) in Hc; [done |].
    rewrite !elem_of_app. do 4 right. left. cbn [from_option]. unfold render.
    rewrite Hneg, Ei. by left. }
  unfold dms_value. rewrite HM0, HS0, HM0', HS0', <- Hdeg, <- Hhemi.
  reflexivity.
Qed.

Lemma render_dms_single_reading t t' post :
  wf_dms t → wf_dms t' → single_reading t →
  render_dms t = render_dms t' ++ post →
  post = [] ∧ (dms_value t' == dms_value t)%Q.
Proof.
  intros Hwf Hwf' [Hq | [HM HS]].
  - by apply render_dms_marked_value.
  - by apply render_dms_bare_value.
Qed.

(** C2.  [parseDMS] computes degrees + minutes/60 + seconds/3600, negated
    exactly when the hemisphere letter is S or W (in either case), a
    component that is not there counting 0:
    - for every token that reads one way only (its minute mark is there,
      or it has neither minutes nor seconds), whatever text without a
      digit stands before it -- a minus sign is not read --, [parseDMS]
      returns the value of that token;
    - for every token the DMS pattern of [parseCoordinates] captures,
      [parseDMS] returns the value of a token that, after the optional
      minus sign, renders to exactly the captured text;
    - and whenever [parseDMS] returns a number at all, the text contains a
      token with that value. *)
Theorem parseDMS_formula :
  (∀ pre t,
     Forall (λ c, is_digit c = false) pre → wf_dms t → single_reading t →
     ∃ v, parseDMS (pre ++ render_dms t) = Some v
          ∧ num_eq v (Fin (dms_value t)))
  ∧ (∀ g hemi w,
       hemisphere_set hemi → lang false (dms_token_re g hemi) w →
       ∃ sgn t v,
         w = sgn ++ render_dms t ∧ (sgn = [] ∨ sgn = lit "-")
         ∧ wf_dms t ∧ t_hemi t ∈ hemi
         ∧ parseDMS w = Some v ∧ num_eq v (Fin (dms_value t)))
  ∧ (∀ dms v,
       parseDMS dms = Some v →
       ∃ pre t post,
         dms = pre ++ render_dms t ++ post ∧ wf_dms t
         ∧ num_eq v (Fin (dms_value t))).
Proof.
  split_and!.
  - intros pre t Hpre Hwf Hsingle.
    assert (H0 : is_Some (match_at dms_parts_pattern (pre ++ render_dms t) (length pre))).
    { apply (match_at_reaches _ _ _ (render_dms t) []); [done | |].
      - by rewrite drop_app_length, app_nil_r.
      - by apply lang_parts_render. }
    assert (Hlen : length pre ≤ length (pre ++ render_dms t))
      by (rewrite length_app; lia).
    destruct (str_match_finds _ _ (length pre) Hlen H0) as [parts Hm].
    exists (dms_of_parts parts). unfold parseDMS. rewrite Hm. split; [done |].
    unfold str_match in Hm. apply search_first in Hm as (j & _ & Hj & Hmin).
    assert (Hjk : j ≤ length pre).
    { destruct (decide (j ≤ length pre)) as [|Hgt]; [done |].
      rewrite Hmin in H0 by lia. by destruct H0. }
    destruct (match_at_parts_token _ _ _ Hj) as (t' & post & Hdrop & Hwf' & Hval).
    destruct (render_dms_head t' Hwf') as (c0 & tl0 & Hhead & Hc0).
    assert (j = length pre) as ->.
    { destruct (decide (j = length pre)) as [|Hne]; [done |]. exfalso.
      rewrite drop_app_le in Hdrop by lia.
      destruct (drop j pre) as [|p0 pr] eqn:E.
      { apply (f_equal length) in E. rewrite length_drop in E. simpl in E. lia. }
      assert (Hp0 : is_digit p0 = false).
      { assert (Hin : p0 ∈ pre).
        { rewrite <- (take_drop j pre), E, elem_of_app. right. by left. }
        rewrite Forall_forall in Hpre. by apply Hpre. }
      rewrite Hhead in Hdrop. simpl in Hdrop. injection Hdrop as -> _. congruence. }
    rewrite drop_app_length in Hdrop.
    destruct (render_dms_single_reading t t' post Hwf Hwf' Hsingle Hdrop) as [_ Hv].
    destruct (dms_of_parts parts) as [|q]; [done |]. simpl in Hval |- *.
    by rewrite Hval.
  - apply parseDMS_token.
  - apply parseDMS_sound.
Qed.

Lemma parseDMS_formula_witness :
  ∃ v, parseDMS (lit "-" ++ render_dms token_lat) = Some v
       ∧ num_eq v (Fin (dms_value token_lat)).
Proof.
  destruct parseDMS_formula as (H & _ & _).
  apply (H (lit "-") token_lat).
  - by repeat constructor.
  - apply token_lat_pair.
  - by left.
Defined.

(** * The drawn layers over a session *)

(** ** The [zoomstart] handler *)

(** [forEach] over a list of layer ids. *)
Fixpoint for_each (ids : list nat) (f : nat → action unit) : action unit :=
  match ids with
  | [] => ret ()
  | id :: ids' => f id >>> for_each ids' f
  end.

(** [drawnItems.eachLayer(f)]: the layers of the group in the order of
    their ids. *)
Definition drawnItems_eachLayer (f : nat → action unit) : action unit :=
  λ st, for_each (merge_sort (≤) (elements (drawnItems st))) f st.

(** The body of the [zoomstart] handler for one layer: a bound popup that
    is open is closed. *)
Definition close_if_open (id : nat) : action unit :=
  let* popup := get (λ st, (objects st !! id) ≫= _popup) in
  match popup with
  | Some _ =>
      let* isOpen := get (λ st, bool_decide (open_popup st = Some id)) in
      if isOpen then popup_close id else ret ()
  | None => ret ()
  end.

(** The handler of [zoomstart] on the map. *)
Definition on_zoomstart : action unit := drawnItems_eachLayer close_if_open.

(** [popup.update()]: Leaflet lays out again a popup that is on the map
    and returns at once for one that is not; nothing of the state changes,
    a closed popup stays closed. *)
Definition popup_update (id : nat) : action unit := ret ().

(** The body of the [zoomend] handler for one layer. *)
Definition update_if_bound (id : nat) : action unit :=
  let* popup := get (λ st, (objects st !! id) ≫= _popup) in
  match popup with
  | Some _ => popup_update id
  | None => ret ()
  end.

(** The handler of [zoomend] that [initDrawTools] registers. *)
Definition on_zoomend : action unit := drawnItems_eachLayer update_if_bound.

(** ** Events of a session *)

(** The draw tool finished a layer, the delete tool removed the layer with
    an id, the map began or ended a zoom. *)
Inductive map_event :=
| Created (l : layer)
| Deleted (id : nat)
| ZoomStart
| ZoomEnd.

(** What an event runs.  The group [drawnItems] and the handlers exist
    only if [initDrawTools] got past its first line. *)
Definition handle `{LeafletGeometry} (props : Props) (ev : map_event) : action unit :=
  match initDrawTools props with
  | Some _ =>
      match ev with
      | Created l => on_created props (DrawEvent l (type_of l))
      | Deleted id => drawnItems_removeLayer id
      | ZoomStart => on_zoomstart
      | ZoomEnd => on_zoomend
      end
  | None => ret ()
  end.

(** The state after a sequence of events; a handler that throws leaves
    the state it reached, and the next event is handled as usual. *)
Fixpoint run `{LeafletGeometry} (props : Props) (evs : list map_event)
    (st : map_state) : map_state :=
  match evs with
  | [] => st
  | ev :: evs' => run props evs' (state_after (handle props ev) st)
  end.

(** The drawn layers are the layers on the map and have ids below [next_id];
    the popup the map shows belongs to a drawn layer that has it bound;
    a layer outside the group has no popup bound. *)
Definition consistent (st : map_state) : Prop :=
  on_map st = drawnItems st
  ∧ (∀ id, id ∈ drawnItems st → is_Some (objects st !! id))
  ∧ (∀ id, is_Some (objects st !! id) → id < next_id st)
  ∧ (∀ id, open_popup st = Some id →
       id ∈ drawnItems st ∧ is_Some ((objects st !! id) ≫= _popup))
  ∧ (∀ id, id ∉ drawnItems st → (objects st !! id) ≫= _popup = None).

Lemma consistent_initial : consistent initial_state.
Proof.
  split_and!; try done. intros id [x Hx]. simpl in Hx.
  by rewrite lookup_empty in Hx.
Qed.

Lemma consistent_created `{LeafletGeometry} props e st :
  consistent st → consistent (state_after (on_created props e) st).
Proof.
  intros (Hmap & Hobj & Hfresh & Hopen & Hgone).
  assert (Hnew : next_id st ∉ drawnItems st).
  { intros Hin. apply Hobj, Hfresh in Hin. lia. }
  unfold state_after, on_created, bind, lift, ret, drawnItems_addLayer,
    bindPopup, openPopup. simpl.
  destruct (enableMeasure props || _ || _);
    [destruct (measurement_text _ _) as [[text|]|err] |]; simpl.
  - rewrite lookup_alter_eq, lookup_insert_eq. simpl. split_and!; simpl.
    + by rewrite Hmap.
    + intros id [->%elem_of_singleton | Hin]%elem_of_union.
      * rewrite lookup_alter_eq, lookup_insert_eq. by eexists.
      * assert (id ≠ next_id st) by (intros ->; done).
        rewrite lookup_alter_ne, lookup_insert_ne by done. auto.
    + intros id. destruct (decide (id = next_id st)) as [-> | Hne]; [lia |].
      rewrite lookup_alter_ne, lookup_insert_ne by done.
      intros Hid%Hfresh. lia.
    + intros id [= <-]. split; [set_solver |].
      rewrite lookup_alter_eq, lookup_insert_eq. by eexists.
    + intros id Hid. assert (id ≠ next_id st) by set_solver.
      rewrite lookup_alter_ne, lookup_insert_ne by done. apply Hgone. set_solver.
  - split_and!; simpl.
    + by rewrite Hmap.
    + intros id [->%elem_of_singleton | Hin]%elem_of_union.
      * rewrite lookup_insert_eq. by eexists.
      * assert (id ≠ next_id st) by (intros ->; done).
        rewrite lookup_insert_ne by done. auto.
    + intros id. destruct (decide (id = next_id st)) as [-> | Hne]; [lia |].
      rewrite lookup_insert_ne by done. intros Hid%Hfresh. lia.
    + intros id Hid. destruct (Hopen id Hid) as [Hin Hp].
      assert (id ≠ next_id st) by (intros ->; done).
      rewrite lookup_insert_ne by done. split; [set_solver | done].
    + intros id Hid. assert (id ≠ next_id st) by set_solver.
      rewrite lookup_insert_ne by done. apply Hgone. set_solver.
  - split_and!; simpl.
    + by rewrite Hmap.
    + intros id [->%elem_of_singleton | Hin]%elem_of_union.
      * rewrite lookup_insert_eq. by eexists.
      * assert (id ≠ next_id st) by (intros ->; done).
        rewrite lookup_insert_ne by done. auto.
    + intros id. destruct (decide (id = next_id st)) as [-> | Hne]; [lia |].
      rewrite lookup_insert_ne by done. intros Hid%Hfresh. lia.
    + intros id Hid. destruct (Hopen id Hid) as [Hin Hp].
      assert (id ≠ next_id st) by (intros ->; done).
      rewrite lookup_insert_ne by done. split; [set_solver | done].
    + intros id Hid. assert (id ≠ next_id st) by set_solver.
      rewrite lookup_insert_ne by done. apply Hgone. set_solver.
  - split_and!; simpl.
    + by rewrite Hmap.
    + intros id [->%elem_of_singleton | Hin]%elem_of_union.
      * rewrite lookup_insert_eq. by eexists.
      * assert (id ≠ next_id st) by (intros ->; done).
        rewrite lookup_insert_ne by done. auto.
    + intros id. destruct (decide (id = next_id st)) as [-> | Hne]; [lia |].
      rewrite lookup_insert_ne by done. intros Hid%Hfresh. lia.
    + intros id Hid. destruct (Hopen id Hid) as [Hin Hp].
      assert (id ≠ next_id st) by (intros ->; done).
      rewrite lookup_insert_ne by done. split; [set_solver | done].
    + intros id Hid. assert (id ≠ next_id st) by set_solver.
      rewrite lookup_insert_ne by done. apply Hgone. set_solver.
Qed.

Lemma consistent_removed id st :
  consistent st → consistent (state_after (drawnItems_removeLayer id) st).
Proof.
  intros (Hmap & Hobj & Hfresh & Hopen & Hgone).
  unfold state_after, drawnItems_removeLayer.
  case_decide as Hin; [| done].
  unfold on_layerremove, bind, get, ret, popup_close, popup_remove, popup_leave,
    popup_null, map_removeLayer, layer_off. simpl.
  destruct (objects st !! id ≫= _popup) as [m|] eqn:Hp; simpl;
    (rewrite bool_decide_false by set_solver); simpl.
  - split_and!; simpl.
    + by rewrite Hmap.
    + intros j Hj. rewrite lookup_alter_ne by set_solver. apply Hobj. set_solver.
    + intros j. destruct (decide (j = id)) as [-> | Hne].
      * intros _. apply Hfresh, Hobj, Hin.
      * rewrite lookup_alter_ne by done. apply Hfresh.
    + intros j Hj.
      assert (Hopj : open_popup st = Some j ∧ j ≠ id).
      { repeat case_decide; try done; split; congruence. }
      destruct Hopj as [Hopj Hne]. destruct (Hopen j Hopj) as [Hd Hpj].
      rewrite lookup_alter_ne by done. split; [set_solver | done].
    + intros j Hj. destruct (decide (j = id)) as [-> | Hne].
      * rewrite lookup_alter_eq. by destruct (objects st !! id).
      * rewrite lookup_alter_ne by done. apply Hgone. set_solver.
  - split_and!; simpl.
    + by rewrite Hmap.
    + intros j Hj. apply Hobj. set_solver.
    + done.
    + intros j Hj. destruct (Hopen j Hj) as [Hd Hpj]. split; [| done].
      assert (j ≠ id) by (intros ->; rewrite Hp in Hpj; by destruct Hpj).
      set_solver.
    + intros j Hj. destruct (decide (j = id)) as [-> | Hne]; [done |].
      apply Hgone. set_solver.
Qed.

(** What [forEach] of the [zoomstart] body does: only the popup shown can
    change, and only by being closed. *)
Lemma close_if_open_spec id st :
  result_of (close_if_open id) st = Returns ()
  ∧ objects (state_after (close_if_open id) st) = objects st
  ∧ drawnItems (state_after (close_if_open id) st) = drawnItems st
  ∧ on_map (state_after (close_if_open id) st) = on_map st
  ∧ next_id (state_after (close_if_open id) st) = next_id st
  ∧ (open_popup (state_after (close_if_open id) st) = open_popup st
     ∨ (open_popup (state_after (close_if_open id) st) = None
        ∧ open_popup st = Some id))
  ∧ (is_Some ((objects st !! id) ≫= _popup) →
     open_popup (state_after (close_if_open id) st) ≠ Some id).
Proof.
  unfold result_of, state_after, close_if_open, bind, get, ret, popup_close,
    popup_leave. simpl.
  destruct (objects st !! id ≫= _popup); simpl.
  - case_bool_decide as Ho; simpl.
    + rewrite decide_True by done. split_and!; try done; by right.
    + split_and!; try done; by left.
  - split_and!; try done; try (by left); by intros [? ?].
Qed.

Lemma for_each_cons (f : nat → action unit) id ids st :
  result_of (f id) st = Returns () →
  for_each (id :: ids) f st = for_each ids f (state_after (f id) st).
Proof.
  unfold result_of, state_after. simpl. unfold bind.
  destruct (f id st) as [[[]|e] st1]; simpl; [done | by intros].
Qed.

(** What [forEach] of the [zoomstart] body does: only the popup shown can
    change, and only by being closed. *)
Lemma for_each_close_if_open ids : ∀ st,
  result_of (for_each ids close_if_open) st = Returns ()
  ∧ objects (state_after (for_each ids close_if_open) st) = objects st
  ∧ drawnItems (state_after (for_each ids close_if_open) st) = drawnItems st
  ∧ on_map (state_after (for_each ids close_if_open) st) = on_map st
  ∧ next_id (state_after (for_each ids close_if_open) st) = next_id st
  ∧ (open_popup (state_after (for_each ids close_if_open) st) = open_popup st
     ∨ (open_popup (state_after (for_each ids close_if_open) st) = None
        ∧ ∃ id, id ∈ ids ∧ open_popup st = Some id))
  ∧ (∀ id, id ∈ ids → is_Some ((objects st !! id) ≫= _popup) →
       open_popup (state_after (for_each ids close_if_open) st) ≠ Some id).
Proof.
  induction ids as [|id ids IH]; intros st.
  { split_and!; try done; [by left | by intros id ?%elem_of_nil]. }
  destruct (close_if_open_spec id st) as (Hr & Ho & Hd & Hm & Hn & Hp & Hid).
  unfold result_of, state_after. rewrite (for_each_cons _ _ _ _ Hr).
  destruct (IH (state_after (close_if_open id) st))
    as (Hr' & Ho' & Hd' & Hm' & Hn' & Hp' & Hids).
  unfold result_of, state_after in *.
  split_and!; try congruence.
  - destruct Hp' as [-> | [-> (j & Hj & Hopen)]].
    + destruct Hp as [-> | [-> Hopen]]; [by left | right].
      split; [done |]. exists id. split; [by left | done].
    + right. split; [done |]. destruct Hp as [Hp | [Hp _]]; [| congruence].
      exists j. split; [by right | congruence].
  - intros j [-> | Hj]%elem_of_cons Hsome.
    + destruct Hp' as [-> | [-> _]]; [by apply Hid | done].
    + apply Hids; [done | by rewrite Ho].
Qed.

Lemma elem_of_sorted_elements (s : gset nat) id :
  id ∈ merge_sort (≤) (elements s) ↔ id ∈ s.
Proof. by rewrite merge_sort_Permutation, elem_of_elements. Qed.

Lemma consistent_zoomstart st :
  consistent st → consistent (state_after on_zoomstart st).
Proof.
  intros (Hmap & Hobj & Hfresh & Hopen & Hgone).
  unfold on_zoomstart, drawnItems_eachLayer, state_after.
  destruct (for_each_close_if_open (merge_sort (≤) (elements (drawnItems st))) st)
    as (_ & Ho & Hd & Hm & Hn & Hp & _).
  unfold state_after in *. simpl in *.
  split_and!; rewrite ?Ho, ?Hd, ?Hm, ?Hn; try done.
  intros id Hid. apply Hopen. destruct Hp as [Hp | [Hp _]]; congruence.
Qed.

Lemma for_each_update_if_bound ids : ∀ st,
  for_each ids update_if_bound st = (Returns (), st).
Proof.
  induction ids as [|id ids IH]; intros st; simpl; [done |].
  unfold bind at 1.
  assert (H : update_if_bound id st = (Returns (), st)).
  { unfold update_if_bound, popup_update, bind, get, ret. simpl.
    by destruct (objects st !! id ≫= _popup). }
  by rewrite H.
Qed.

Lemma on_zoomend_spec st : on_zoomend st = (Returns (), st).
Proof. apply for_each_update_if_bound. Qed.

Lemma consistent_handle `{LeafletGeometry} props ev st :
  consistent st → consistent (state_after (handle props ev) st).
Proof.
  intros Hst. unfold handle. destruct (initDrawTools props); [| done].
  destruct ev; auto using consistent_created, consistent_removed, consistent_zoomstart.
  unfold state_after. by rewrite on_zoomend_spec.
Qed.

Lemma run_consistent `{LeafletGeometry} props evs :
  ∀ st, consistent st → consistent (run props evs st).
Proof.
  induction evs as [|ev evs IH]; intros st Hst; simpl; [done |].
  by apply IH, consistent_handle.
Qed.

(** After any sequence of [created], delete and zoom events, from the
    empty map: the layers on the map are the drawn layers; the popup
    the map shows, if any, is the measurement bound to a drawn layer; and
    no layer that was deleted keeps a popup. *)
Theorem session_consistent `{LeafletGeometry} (props : Props) (evs : list map_event) :
  let st := run props evs initial_state in
  on_map st = drawnItems st
  ∧ (∀ id, open_popup st = Some id →
       id ∈ drawnItems st ∧ is_Some ((objects st !! id) ≫= _popup))
  ∧ (∀ id, id ∉ drawnItems st → (objects st !! id) ≫= _popup = None).
Proof.
  destruct (run_consistent props evs initial_state consistent_initial)
    as (H1 & _ & _ & H4 & H5).
  by split_and!.
Qed.

(** ** Zooming and the measurement popups *)

(** When a zoom starts, the popup of a drawn layer that is open is closed,
    and nothing else happens: the measurements stay bound to their layers,
    the layers stay in the group and on the map, and a popup of a layer
    outside the group stays open.  The handler of [zoomend] changes
    nothing, so a popup closed by the zoom is closed after it. *)
Theorem zoom_closes_measurement st :
  result_of (on_zoomstart >>> on_zoomend) st = Returns ()
  ∧ objects (state_after (on_zoomstart >>> on_zoomend) st) = objects st
  ∧ drawnItems (state_after (on_zoomstart >>> on_zoomend) st) = drawnItems st
  ∧ on_map (state_after (on_zoomstart >>> on_zoomend) st) = on_map st
  ∧ (∀ id, id ∈ drawnItems st → is_Some ((objects st !! id) ≫= _popup) →
       open_popup (state_after (on_zoomstart >>> on_zoomend) st) ≠ Some id)
  ∧ (∀ id, id ∉ drawnItems st → open_popup st = Some id →
       open_popup (state_after (on_zoomstart >>> on_zoomend) st) = Some id).
Proof.
  destruct (for_each_close_if_open (merge_sort (≤) (elements (drawnItems st))) st)
    as (Hr & Ho & Hd & Hm & _ & Hp & Hids).
  assert (Hrun : (on_zoomstart >>> on_zoomend) st
                 = (Returns (), state_after on_zoomstart st)).
  { unfold bind, state_after, on_zoomstart, drawnItems_eachLayer.
    unfold result_of in Hr.
    destruct (for_each _ close_if_open st) as [[[]|e] st1]; [| done].
    simpl. apply on_zoomend_spec. }
  unfold result_of, state_after. rewrite Hrun. cbn [fst snd].
  unfold on_zoomstart, drawnItems_eachLayer, state_after in *.
  split_and!; try done.
  - intros id Hid. apply Hids. by apply elem_of_sorted_elements.
  - intros id Hid Hopen. destruct Hp as [-> | [_ (j & Hj & Hopj)]]; [done |].
    apply elem_of_sorted_elements in Hj. congruence.
Qed.

(** ** What a new layer changes on the map *)

(** The state after [on_created] for an event of the draw tool: the layer
    added, and its measurement bound and opened when the event is
    measured. *)
Lemma on_created_state `{LeafletGeometry} props event st :
  well_typed event →
  ∃ mt,
    (is_Some mt ↔ measured props (ev_layerType event) = true)
    ∧ on_created props event st
      = (Returns (),
         MapState (<[next_id st := LayerObject (ev_layer event) mt]> (objects st))
                  ({[next_id st]} ∪ drawnItems st) ({[next_id st]} ∪ on_map st)
                  (if measured props (ev_layerType event) then Some (next_id st)
                   else open_popup st)
                  (S (next_id st))
                  (calls st ++ AddLayer (next_id st)
                     :: (if measured props (ev_layerType event)
                         then [BindPopup (next_id st); OpenPopup (next_id st)]
                         else []))).
Proof.
  destruct event as [l ty]. unfold well_typed. simpl. intros ->.
  destruct (measurement_text_well_typed l) as (mt & Hmt & Hsome).
  unfold on_created, bind, lift, ret, drawnItems_addLayer,
    bindPopup, openPopup, measured.
  cbn [ev_layer ev_layerType].
  exists (if enableMeasure props || String.eqb (type_of l) "circle"
             || String.eqb (type_of l) "rectangle" then mt else None).
  rewrite Hmt. clear Hmt.
  assert (Hmarker : mt = None → type_of l = "marker").
  { intros ->. destruct (decide (type_of l = "marker")) as [|Hne]; [done |].
    apply Hsome in Hne. by destruct Hne. }
  assert (Hnot : is_Some mt → type_of l ≠ "marker") by apply Hsome.
  destruct (enableMeasure props);
    destruct l; simpl in *;
    (destruct mt as [text|];
     [| try (by specialize (Hmarker eq_refl))]); simpl.
  all: try (by specialize (Hnot ltac:(by eexists))).
  all: split; [first [by split; [| eexists] | by split; [intros [? ?] |]] |].
  all: rewrite ?alter_insert_eq, ?lookup_insert_eq, <- ?(assoc_L (++)); simpl; done.
Qed.

(** Drawing a layer puts it into the group and on the map under a new id.
    If the layer is measured its popup is the one the map shows from then
    on, after the calls [addLayer], [bindPopup] and [openPopup] in this
    order; otherwise the popup shown is the one shown before. *)
Theorem on_created_opens_measurement `{LeafletGeometry} props event st :
  well_typed event →
  drawnItems (state_after (on_created props event) st) = {[next_id st]} ∪ drawnItems st
  ∧ on_map (state_after (on_created props event) st) = {[next_id st]} ∪ on_map st
  ∧ next_id (state_after (on_created props event) st) = S (next_id st)
  ∧ open_popup (state_after (on_created props event) st)
    = (if measured props (ev_layerType event) then Some (next_id st)
       else open_popup st)
  ∧ calls (state_after (on_created props event) st)
    = calls st ++ AddLayer (next_id st)
        :: (if measured props (ev_layerType event)
            then [BindPopup (next_id st); OpenPopup (next_id st)] else []).
Proof.
  intros Hty. unfold state_after.
  destruct (on_created_state props event st Hty) as (mt & _ & ->).
  done.
Qed.

Lemma on_created_opens_measurement_witness :
  drawnItems (state_after (@on_created planar_geometry props_draw_only circle_event)
                state_with_rectangle) = {[1]} ∪ {[0]}
  ∧ open_popup (state_after (@on_created planar_geometry props_draw_only circle_event)
                  state_with_rectangle) = Some 1.
Proof.
  destruct (@on_created_opens_measurement planar_geometry props_draw_only
              circle_event state_with_rectangle) as (H1 & _ & _ & H4 & _); [done |].
  split; [| exact H4]. rewrite H1. by vm_compute.
Defined.

(** Drawing a layer and deleting it again leaves the group and the map as
    they were, with every other layer untouched and no popup left on the
    deleted layer.  The popup that was shown before is shown again only
    if the new layer was not measured: a measured layer takes the popup
    place and gives it up closed. *)
Theorem created_then_deleted `{LeafletGeometry} props event st :
  well_typed event → consistent st →
  drawnItems (state_after (on_created props event >>> drawnItems_removeLayer (next_id st)) st)
  = drawnItems st
  ∧ on_map (state_after (on_created props event >>> drawnItems_removeLayer (next_id st)) st)
    = on_map st
  ∧ (∀ j, j ≠ next_id st →
       objects (state_after (on_created props event
                             >>> drawnItems_removeLayer (next_id st)) st) !! j
       = objects st !! j)
  ∧ (objects (state_after (on_created props event
                           >>> drawnItems_removeLayer (next_id st)) st)
       !! next_id st) ≫= _popup = None
  ∧ open_popup (state_after (on_created props event
                             >>> drawnItems_removeLayer (next_id st)) st)
    = (if measured props (ev_layerType event) then None else open_popup st).
Proof.
  intros Hty (Hmap & Hobj & Hfresh & Hopen & Hgone).
  assert (Hnew : next_id st ∉ drawnItems st).
  { intros Hin. apply Hobj, Hfresh in Hin. lia. }
  assert (Hnew' : next_id st ∉ on_map st) by by rewrite Hmap.
  assert (Hold : open_popup st ≠ Some (next_id st)).
  { intros Ho. by apply Hopen in Ho as [? _]. }
  assert (Hd : ({[next_id st]} ∪ drawnItems st) ∖ {[next_id st]} = drawnItems st)
    by set_solver.
  assert (Hm : ({[next_id st]} ∪ on_map st) ∖ {[next_id st]} = on_map st)
    by set_solver.
  assert (Hin : next_id st ∈ ({[next_id st]} ∪ drawnItems st : gset nat))
    by set_solver.
  assert (Hout : next_id st
                 ∉ (({[next_id st]} ∪ on_map st) ∖ {[next_id st]} : gset nat))
    by set_solver.
  unfold state_after, bind.
  destruct (on_created_state props event st Hty) as (mt & Hmt & ->).
  unfold drawnItems_removeLayer. cbn [drawnItems objects on_map open_popup next_id calls].
  rewrite decide_True by exact Hin.
  unfold on_layerremove, bind, get, ret, popup_close, popup_remove, popup_leave,
    popup_null, map_removeLayer, layer_off.
  cbn [drawnItems objects on_map open_popup next_id calls fst snd].
  rewrite lookup_insert_eq. cbn [mbind option_bind _popup].
  destruct (measured props (ev_layerType event)) eqn:Hmeas.
  - destruct mt as [text|]; [| by destruct (proj2 Hmt eq_refl)].
    cbn [drawnItems objects on_map open_popup next_id calls fst snd].
    rewrite bool_decide_false by exact Hout.
    cbn [drawnItems objects on_map open_popup next_id calls fst snd].
    split_and!.
    + exact Hd.
    + exact Hm.
    + intros j Hj. by rewrite lookup_alter_ne, lookup_insert_ne.
    + rewrite lookup_alter_eq, lookup_insert_eq. done.
    + by repeat case_decide.
  - destruct mt as [text|]; [pose proof (proj1 Hmt ltac:(by eexists)); done |].
    cbn [drawnItems objects on_map open_popup next_id calls fst snd].
    rewrite bool_decide_false by exact Hout.
    cbn [drawnItems objects on_map open_popup next_id calls fst snd].
    split_and!.
    + exact Hd.
    + exact Hm.
    + intros j Hj. by rewrite lookup_insert_ne.
    + by rewrite lookup_insert_eq.
    + done.
Qed.

Lemma created_then_deleted_witness :
  drawnItems (state_after (@on_created planar_geometry props_all rectangle_event
                           >>> drawnItems_removeLayer 0) initial_state) = ∅
  ∧ open_popup (state_after (@on_created planar_geometry props_all rectangle_event
                             >>> drawnItems_removeLayer 0) initial_state) = None.
Proof.
  destruct (@created_then_deleted planar_geometry props_all rectangle_event
              initial_state) as (H1 & _ & _ & _ & H5).
  - done.
  - apply consistent_initial.
  - split; [exact H1 | exact H5].
Defined.

(** * The area of a circle *)

